(** * Filesystem object store: bucket policies, safe writes, multipart uploads

    A shallow embedding of [bucket-policy-handlers.go] and of the multipart
    half of the filesystem backend ([removeFileTree], [safeWriteFile],
    [makeS3MD5], [cleanupUploadID], [PutObjectPart], [AbortMultipartUpload],
    [CompleteMultipartUpload], [ListObjectParts]).

    Go values are held as follows: [string] is [string], [[]byte] is
    [list byte], [int] and [int64] are [Z], [map[string]T] is
    [gmap string T] read with the zero value for an absent key, [error] is
    the sum type [error], and a function returning [(T, error)] returns
    [result T].  The directory tree the backend works on is explicit state
    ([world]); every function touching it runs in the state-and-error monad
    [io]. *)

From Stdlib Require Import ZArith List String Ascii Lia Bool DecimalString.
From Stdlib.Strings Require Import Byte.
From stdpp Require Import base option list strings gmap fin_maps sorting.

Local Open Scope Z_scope.

(** ** Go's [strings] package *)

(** The double-quote byte, 0x22. *)
Definition quote : ascii := "034"%char.

Definition strings_HasPrefix (s prefix : string) : bool := String.prefix prefix s.

Definition strings_HasSuffix (s suffix : string) : bool :=
  (String.length suffix <=? String.length s)%nat &&
  String.eqb (String.substring (String.length s - String.length suffix)
                (String.length suffix) s) suffix.

Definition strings_TrimPrefix (s prefix : string) : string :=
  if strings_HasPrefix s prefix
  then String.substring (String.length prefix)
         (String.length s - String.length prefix) s
  else s.

Definition strings_TrimSuffix (s suffix : string) : string :=
  if strings_HasSuffix s suffix
  then String.substring 0 (String.length s - String.length suffix) s
  else s.

Definition inCutset (cutset : string) (c : ascii) : bool :=
  existsb (Ascii.eqb c) (list_ascii_of_string cutset).

Fixpoint trimLeft (cutset s : string) : string :=
  match s with
  | EmptyString => EmptyString
  | String a r => if inCutset cutset a then trimLeft cutset r else s
  end.

Fixpoint trimRight (cutset s : string) : string :=
  match s with
  | EmptyString => EmptyString
  | String a r =>
      match trimRight cutset r with
      | EmptyString => if inCutset cutset a then EmptyString else String a EmptyString
      | r' => String a r'
      end
  end.

(** [strings.Trim(s, cutset)]: every leading and trailing byte of [cutset]
    is dropped. *)
Definition strings_Trim (s cutset : string) : string :=
  trimRight cutset (trimLeft cutset s).

(** [strings.Split(s, sep)] for a separator of one byte, the only use the
    backend makes of it: one piece more than there are separators. *)
Fixpoint strings_Split (s : string) (sep : ascii) : list string :=
  match s with
  | EmptyString => [EmptyString]
  | String c r =>
      if Ascii.eqb c sep then EmptyString :: strings_Split r sep
      else match strings_Split r sep with
           | [] => [String c EmptyString]
           | t :: ts => String c t :: ts
           end
  end.

(** [strings.ToLower] on the ASCII letters; other bytes are kept. *)
Definition lowerAscii (c : ascii) : ascii :=
  let n := N_of_ascii c in
  if ((65 <=? n) && (n <=? 90))%N then ascii_of_N (n + 32) else c.

Fixpoint strings_ToLower (s : string) : string :=
  match s with
  | EmptyString => EmptyString
  | String c r => String (lowerAscii c) (strings_ToLower r)
  end.

(** ** Go's [encoding/hex] *)

Definition hextable : list ascii := list_ascii_of_string "0123456789abcdef".

Definition hexDigit (n : N) : ascii := nth (N.to_nat n) hextable "0"%char.

Fixpoint hex_EncodeToString (src : list byte) : string :=
  match src with
  | [] => EmptyString
  | b :: r =>
      String (hexDigit (Byte.to_N b / 16))
        (String (hexDigit (Byte.to_N b mod 16)) (hex_EncodeToString r))
  end.

Definition fromHexChar (c : ascii) : option N :=
  let n := N_of_ascii c in
  if ((48 <=? n) && (n <=? 57))%N then Some (n - 48)%N
  else if ((97 <=? n) && (n <=? 102))%N then Some (n - 97 + 10)%N
  else if ((65 <=? n) && (n <=? 70))%N then Some (n - 65 + 10)%N
  else None.

(** [hex.DecodeString]: [None] stands for its two errors, an odd length and
    a byte that is no hexadecimal digit. *)
Fixpoint hex_DecodeString (s : string) : option (list byte) :=
  match s with
  | EmptyString => Some []
  | String _ EmptyString => None
  | String a (String b r) =>
      match fromHexChar a, fromHexChar b with
      | Some x, Some y =>
          match Byte.of_N (16 * x + y), hex_DecodeString r with
          | Some v, Some bs => Some (v :: bs)
          | _, _ => None
          end
      | _, _ => None
      end
  end.

(** ** Go's [strconv] *)

(** [strconv.Itoa], and the verb [%d] of [fmt.Sprintf]. *)
Definition strconv_Itoa (i : Z) : string := NilZero.string_of_int (Z.to_int i).

Fixpoint atoiDigits (s : string) (acc : Z) : option Z :=
  match s with
  | EmptyString => Some acc
  | String c r =>
      let n := Z.of_N (N_of_ascii c) in
      if (48 <=? n) && (n <=? 57) then atoiDigits r (10 * acc + (n - 48)) else None
  end.

Definition maxInt : Z := 2 ^ 63 - 1.
Definition minInt : Z := - 2 ^ 63.

(** [strconv.Atoi] on a 64-bit [int]: an optional sign, then one or more
    decimal digits; [None] stands for its syntax and range errors. *)
Definition strconv_Atoi (s : string) : option Z :=
  let unsigned (t : string) : option Z :=
    match t with
    | EmptyString => None
    | _ => atoiDigits t 0
    end in
  let signed :=
    match s with
    | String "+" r => unsigned r
    | String "-" r => Z.opp <$> unsigned r
    | _ => unsigned s
    end in
  match signed with
  | Some v => if (minInt <=? v) && (v <=? maxInt) then Some v else None
  | None => None
  end.

(** ** Go's [path/filepath], on a system whose separator is the slash *)

Definition slash : ascii := "/"%char.

(** One element of a path under [filepath.Clean]: empty elements and single dots
    vanish, a double dot takes the element before it away. [acc] is the cleaned
    path so far, last element first. *)
Definition cleanStep (rooted : bool) (acc : list string) (e : string) : list string :=
  if String.eqb e EmptyString || String.eqb e "." then acc
  else if String.eqb e ".." then
    match acc with
    | top :: rest => if String.eqb top ".." then e :: acc else rest
    | [] => if rooted then [] else [e]
    end
  else e :: acc.

Definition cleanElems (rooted : bool) (path : string) : list string :=
  rev (fold_left (cleanStep rooted) (strings_Split path slash) []).

Definition filepath_Clean (path : string) : string :=
  let rooted := strings_HasPrefix path "/" in
  let body := String.concat "/" (cleanElems rooted path) in
  if rooted then "/" +:+ body
  else if String.eqb body EmptyString then "." else body.

(** [filepath.Join]: leading empty elements are skipped, the rest is joined
    with the separator and cleaned. *)
Fixpoint filepath_Join (elem : list string) : string :=
  match elem with
  | [] => EmptyString
  | e :: r =>
      if String.eqb e EmptyString then filepath_Join r
      else filepath_Clean (String.concat "/" elem)
  end.

(** The path up to and including its last separator. *)
Definition uptoLastSlash (path : string) : string :=
  match rev (strings_Split path slash) with
  | [] | [_] => EmptyString
  | _ :: front => String.concat "/" (rev front) +:+ "/"
  end.

Definition filepath_Dir (path : string) : string :=
  filepath_Clean (uptoLastSlash path).

(** [filepath.Ext]: from the last dot of the last element on. *)
Definition filepath_Ext (path : string) : string :=
  match rev (strings_Split (List.last (strings_Split path slash) EmptyString) "."%char) with
  | [] | [_] => EmptyString
  | ext :: _ => "." +:+ ext
  end.

(** ** Go's [regexp]

    The policy evaluator needs two things of the library: whether a pattern
    compiles, and [MatchString] on a compiled pattern.  The evaluator is
    written over any such library. *)
Record RegexpLib := {
  Regexp : Type;
  regexp_Compile : string → option Regexp;
  Regexp_MatchString : Regexp → string → bool
}.

(** [regexp.MatchString(pattern, s)]: compile, then match; [None] is the
    compile error. *)
Definition regexp_MatchString (L : RegexpLib) (pattern s : string) : option bool :=
  match regexp_Compile L pattern with
  | Some re => Some (Regexp_MatchString L re s)
  | None => None
  end.

(** A model of the library for the patterns met in policy documents:
    literals, [.], the postfix operators [*] [+] [?], alternation, groups,
    escaped punctuation, and the anchors [^] and [$].  Character classes and
    counted repetition are outside it ([compile] answers [None] for them
    too).  Matching follows the library: [MatchString] reports whether the
    string CONTAINS a match of the pattern. *)
Module GoRegexp.

Inductive re :=
| Eps | Chr (c : ascii) | AnyChar | Bol | Eol
| Cat (a b : re) | Alt (a b : re) | Star (a : re).

Definition isMeta (c : ascii) : bool :=
  existsb (Ascii.eqb c) (list_ascii_of_string "\.+*?()|[]{}^$").

Definition postfix (a : re) (s : list ascii) : re * list ascii :=
  match s with
  | "*"%char :: r => (Star a, r)
  | "+"%char :: r => (Cat a (Star a), r)
  | "?"%char :: r => (Alt a Eps, r)
  | _ => (a, s)
  end.

Fixpoint parseAlt (n : nat) (s : list ascii) {struct n} : option (re * list ascii) :=
  match n with
  | O => None
  | S n' =>
      match parseCat n' s with
      | Some (a, "|"%char :: r) =>
          match parseAlt n' r with
          | Some (b, r') => Some (Alt a b, r')
          | None => None
          end
      | other => other
      end
  end
with parseCat (n : nat) (s : list ascii) {struct n} : option (re * list ascii) :=
  match n with
  | O => None
  | S n' =>
      match s with
      | [] | "|"%char :: _ | ")"%char :: _ => Some (Eps, s)
      | _ =>
          match parseAtom n' s with
          | Some (a, r) =>
              let '(a', r') := postfix a r in
              match parseCat n' r' with
              | Some (b, r'') => Some (Cat a' b, r'')
              | None => None
              end
          | None => None
          end
      end
  end
with parseAtom (n : nat) (s : list ascii) {struct n} : option (re * list ascii) :=
  match n with
  | O => None
  | S n' =>
      match s with
      | [] => None
      | "("%char :: r =>
          match parseAlt n' r with
          | Some (a, ")"%char :: r') => Some (a, r')
          | _ => None
          end
      | "."%char :: r => Some (AnyChar, r)
      | "^"%char :: r => Some (Bol, r)
      | "$"%char :: r => Some (Eol, r)
      | "\"%char :: c :: r => if isMeta c then Some (Chr c, r) else None
      | c :: r => if isMeta c then None else Some (Chr c, r)
      end
  end.

Definition compile (pattern : string) : option re :=
  let s := list_ascii_of_string pattern in
  match parseAlt (4 * (length s + 1)) s with
  | Some (r, []) => Some r
  | _ => None
  end.

Definition newline : ascii := "010"%char.

(** [run s r ps]: the positions of [s] at which a match of [r] begun at
    one of the positions [ps] can end. *)
Fixpoint run (s : list ascii) (r : re) (ps : list nat) : list nat :=
  match r with
  | Eps => ps
  | Chr c =>
      omap (λ i, match s !! i with
                 | Some c' => if Ascii.eqb c c' then Some (S i) else None
                 | None => None
                 end) ps
  | AnyChar =>
      omap (λ i, match s !! i with
                 | Some c' => if Ascii.eqb c' newline then None else Some (S i)
                 | None => None
                 end) ps
  | Bol => filter (λ i, i = O) ps
  | Eol => filter (λ i, i = length s) ps
  | Cat a b => run s b (run s a ps)
  | Alt a b => remove_dups (run s a ps ++ run s b ps)
  | Star a =>
      Nat.iter (S (length s)) (λ acc, remove_dups (ps ++ run s a acc)) ps
  end.

Definition search (r : re) (s : string) : bool :=
  let l := list_ascii_of_string s in
  negb (forallb (λ _, false) (run l r (seq 0 (S (length l))))).

(** What a full match would be: begun at the first position and ended at
    the last. *)
Definition fullMatch (r : re) (s : string) : bool :=
  let l := list_ascii_of_string s in
  bool_decide (length l ∈ run l r [O]).

Definition lib : RegexpLib :=
  {| Regexp := re; regexp_Compile := compile; Regexp_MatchString := search |}.

(** The library a specification asking for full matches describes. *)
Definition fullLib : RegexpLib :=
  {| Regexp := re; regexp_Compile := compile; Regexp_MatchString := fullMatch |}.

End GoRegexp.

(** ** Errors and results *)

(** Go's [error] values met in the embedded code: the errors of [os] and
    [io], the untyped errors of [errors.New], and the backend's typed
    errors. *)
Inductive error :=
| ErrNotExist (path : string)
| ErrExist (path : string)
| ErrNotDir (path : string)
| ErrIsDir (path : string)
| ErrNotEmpty (path : string)
| ErrInvalid (path : string)
| EOF
| ReadFault (msg : string)
| errorString (msg : string)
| hexError (src : string)
| BucketNameInvalid (Bucket : string)
| BucketNotFound (Bucket : string)
| ObjectNameInvalid (Object : string)
| InvalidUploadID (UploadID : string)
| InvalidPart
| BadDigest (ExpectedMD5 CalculatedMD5 : string)
| RootPathFull (Path : string).

Inductive result (A : Type) : Type :=
| Ok (a : A)
| Err (e : error).
Arguments Ok {A} a.
Arguments Err {A} e.

Definition isOk {A : Type} (r : result A) : bool :=
  match r with Ok _ => true | Err _ => false end.

Definition isSome {A : Type} (o : option A) : bool :=
  match o with Some _ => true | None => false end.

(** An [io.Reader]: the bytes it delivers, then either the end of the stream
    ([None]) or a read error. *)
Record reader := {
  pending : list byte;
  failure : option error
}.

(** [io.LimitReader(r, n)]: the end of the stream is reported once [n] bytes
    were delivered, without asking [r] again. *)
Definition io_LimitReader (r : reader) (n : Z) : reader :=
  if n <=? Z.of_nat (length (pending r))
  then {| pending := take (Z.to_nat n) (pending r); failure := None |}
  else r.

(** [ioutil.ReadAll]: the bytes read, and the error that stopped the
    reading if it was not the end of the stream. *)
Definition ioutil_ReadAll (r : reader) : list byte * option error :=
  (pending r, failure r).

(** ** Bucket policy evaluation *)

Record policyStatement := {
  Sid : string;
  Effect : string;
  Principal : list string;
  Actions : list string;
  Resources : list string;
  Conditions : gmap string (gmap string string)
}.

(** Modelled from the spec: [fatalIf], whose source is not at hand: an
    invalid pattern in a statement is a configuration error surfaced at the
    evaluator.  A function whose body calls it either returns or ends with
    the message it logs. *)
Inductive outcome (A : Type) : Type :=
| Returned (a : A)
| Fatal (msg : string).
Arguments Returned {A} a.
Arguments Fatal {A} msg.

(** [m[k]] on a Go map of strings: the empty string for an absent key. *)
Definition index (m : gmap string string) (k : string) : string :=
  default EmptyString (m !! k).

Definition invalidPattern : string :=
  "Invalid pattern, please verify the pattern string.".

(** One round of the loop of [bucketPolicyConditionMatch]: [false] is the
    round that sets [conditionMatches = false] and breaks. *)
Definition conditionRound (conditions : gmap string string)
    (condition : string) (conditionKeys : gmap string string) : bool :=
  if String.eqb condition "StringEquals" then
    if negb (String.eqb (index conditionKeys "s3:prefix") (index conditions "prefix"))
    then false
    else if negb (String.eqb (index conditionKeys "s3:max-keys") (index conditions "max-keys"))
    then false
    else true
  else if String.eqb condition "StringNotEquals" then
    if String.eqb (index conditionKeys "s3:prefix") (index conditions "prefix")
    then false
    else if String.eqb (index conditionKeys "s3:max-keys") (index conditions "max-keys")
    then false
    else true
  else true.

(** The loop of [bucketPolicyConditionMatch] over the entries of the map in
    the order [entries]; Go fixes no order for [range] over a map. *)
Fixpoint conditionLoop (conditions : gmap string string)
    (entries : list (string * gmap string string)) : bool :=
  match entries with
  | [] => true
  | (condition, conditionKeys) :: rest =>
      if conditionRound conditions condition conditionKeys
      then conditionLoop conditions rest
      else false
  end.

Definition bucketPolicyConditionMatch (conditions : gmap string string)
    (statement : policyStatement) : bool :=
  conditionLoop conditions (map_to_list (Conditions statement)).

Section Policy.

Context (L : RegexpLib).

(** The loop shared by [bucketPolicyActionMatch] and
    [bucketPolicyResourceMatch]: the first pattern that matches [s]
    answers true, a pattern that does not compile is fatal. *)
Fixpoint patternLoop (s : string) (patterns : list string) : outcome bool :=
  match patterns with
  | [] => Returned false
  | pattern :: rest =>
      match regexp_MatchString L pattern s with
      | None => Fatal invalidPattern
      | Some true => Returned true
      | Some false => patternLoop s rest
      end
  end.

Definition bucketPolicyActionMatch (action : string)
    (statement : policyStatement) : outcome bool :=
  patternLoop action (Actions statement).

Definition bucketPolicyResourceMatch (resource : string)
    (statement : policyStatement) : outcome bool :=
  patternLoop (strings_TrimPrefix resource "/") (Resources statement).

Definition bucketPolicyMatchStatement (action resource : string)
    (conditions : gmap string string) (statement : policyStatement) : outcome bool :=
  match bucketPolicyActionMatch action statement with
  | Fatal msg => Fatal msg
  | Returned false => Returned false
  | Returned true =>
      match bucketPolicyResourceMatch resource statement with
      | Fatal msg => Fatal msg
      | Returned false => Returned false
      | Returned true =>
          if bucketPolicyConditionMatch conditions statement
          then Returned true
          else Returned false
      end
  end.

Fixpoint bucketPolicyEvalStatements (action resource : string)
    (conditions : gmap string string) (statements : list policyStatement)
    : outcome bool :=
  match statements with
  | [] => Returned false
  | statement :: rest =>
      match bucketPolicyMatchStatement action resource conditions statement with
      | Fatal msg => Fatal msg
      | Returned true =>
          if String.eqb (Effect statement) "Allow" then Returned true
          else Returned false
      | Returned false =>
          bucketPolicyEvalStatements action resource conditions rest
      end
  end.

(** *** The evaluation as the specification words it

    A statement matches when some action pattern matches the action, some
    resource pattern matches the resource without its leading slash, and
    the conditions match; the first matching statement decides. *)
Definition patternMatches (s pattern : string) : bool :=
  match regexp_MatchString L pattern s with
  | Some b => b
  | None => false
  end.

Definition statementMatches (action resource : string)
    (conditions : gmap string string) (statement : policyStatement) : bool :=
  existsb (patternMatches action) (Actions statement) &&
  existsb (patternMatches (strings_TrimPrefix resource "/")) (Resources statement) &&
  bucketPolicyConditionMatch conditions statement.

Definition Evaluate (action resource : string)
    (conditions : gmap string string) (statements : list policyStatement) : bool :=
  match List.find (statementMatches action resource conditions) statements with
  | Some statement => String.eqb (Effect statement) "Allow"
  | None => false
  end.

Definition compiles (pattern : string) : Prop :=
  is_Some (regexp_Compile L pattern).

Definition statementCompiles (statement : policyStatement) : Prop :=
  Forall compiles (Actions statement) ∧ Forall compiles (Resources statement).

End Policy.

(** The two condition operators as the specification words them: every key
    listed under the operator is compared with the request's value for the
    key it names ([s3:prefix] names [prefix], [s3:max-keys] names
    [max-keys]). *)
Definition requestKey (key : string) : string := strings_TrimPrefix key "s3:".

Definition listedKeysEqual (conditions conditionKeys : gmap string string) : bool :=
  forallb (λ kv, String.eqb kv.2 (index conditions (requestKey kv.1)))
    (map_to_list conditionKeys).

Definition listedKeysDiffer (conditions conditionKeys : gmap string string) : bool :=
  forallb (λ kv, negb (String.eqb kv.2 (index conditions (requestKey kv.1))))
    (map_to_list conditionKeys).

(** ** PutBucketPolicy *)

(** maximum supported access policy size. *)
Definition maxAccessPolicySize : Z := 20 * 1024 * 1024.

(** The size the comments of the handler and the specification give:
    20 KiB. *)
Definition documentedPolicySize : Z := 20 * 1024.

Inductive APIErrorCode :=
| ErrNone
| ErrAccessDenied
| ErrMissingContentLength
| ErrEntityTooLarge
| ErrInternalError
| ErrInvalidPolicyDocument
| ErrInvalidBucketName
| ErrNoSuchBucketPolicy
| ErrMalformedPolicy
| ErrSignatureDoesNotMatch.

Inductive authType :=
| authTypeUnknown
| authTypeAnonymous
| authTypePresigned
| authTypeSigned
| authTypeJWT.

(** What the handler reads of the request: the bucket of the route, the
    answers of [getRequestAuthType] and [isReqAuthenticated], two headers and
    the body. *)
Record Request := {
  bucketVar : string;
  requestAuthType : authType;
  reqAuthenticated : APIErrorCode;
  TransferEncoding : list string;
  ContentLength : Z;
  Body : reader
}.

Inductive response :=
| writeErrorResponse (code : APIErrorCode)
| writeSuccessNoContent.

(** The policy store behind the handler, declared in other files:
    [parseBucketPolicy], [checkBucketPolicy] and [writeBucketPolicy]. *)
Record PolicyStore := {
  BucketPolicy : Type;
  parseBucketPolicy : list byte → option BucketPolicy;
  checkBucketPolicy : string → BucketPolicy → APIErrorCode;
  writeBucketPolicy : string → list byte → option error
}.

(** Modelled from the spec: [contains], whose source is not at hand and
    which the specification does not describe further: by its name and its
    use on the transfer encodings of the request, whether the list holds the
    element. *)
Definition contains (stringList : list string) (element : string) : bool :=
  existsb (String.eqb element) stringList.

Section Handlers.

Context (P : PolicyStore).

(** The handler from the read of the body on. *)
Definition putBucketPolicyBody (r : Request) : response :=
  match ioutil_ReadAll (io_LimitReader (Body r) maxAccessPolicySize) with
  | (_, Some e) => writeErrorResponse ErrInternalError
  | (bucketPolicyBuf, None) =>
      match parseBucketPolicy P bucketPolicyBuf with
      | None => writeErrorResponse ErrInvalidPolicyDocument
      | Some bucketPolicy =>
          match checkBucketPolicy P (bucketVar r) bucketPolicy with
          | ErrNone =>
              match writeBucketPolicy P (bucketVar r) bucketPolicyBuf with
              | Some (BucketNameInvalid _) => writeErrorResponse ErrInvalidBucketName
              | Some _ => writeErrorResponse ErrInternalError
              | None => writeSuccessNoContent
              end
          | s3Error => writeErrorResponse s3Error
          end
      end
  end.

(** The size checks on the declared length of a request that is not
    chunked; [None] lets the request through. *)
Definition contentLengthCheck (r : Request) : option response :=
  if negb (contains (TransferEncoding r) "chunked") then
    if (ContentLength r =? -1) || (ContentLength r =? 0)
    then Some (writeErrorResponse ErrMissingContentLength)
    else if maxAccessPolicySize <? ContentLength r
    then Some (writeErrorResponse ErrEntityTooLarge)
    else None
  else None.

Definition PutBucketPolicyHandler (r : Request) : response :=
  let authFailure :=
    match requestAuthType r with
    | authTypePresigned | authTypeSigned =>
        match reqAuthenticated r with
        | ErrNone => None
        | s3Error => Some (writeErrorResponse s3Error)
        end
    | _ => Some (writeErrorResponse ErrAccessDenied)
    end in
  match authFailure with
  | Some resp => resp
  | None =>
      match contentLengthCheck r with
      | Some resp => resp
      | None => putBucketPolicyBody r
      end
  end.

End Handlers.

(** ** The directory tree *)

(** A regular file holds its bytes and its modification time; the
    modification time of a directory is not tracked. *)
Inductive node :=
| RegularFile (data : list byte) (modTime : Z)
| Directory.

(** The world the backend runs in: the directory tree, keyed by cleaned
    paths held as their lists of elements (the root is the empty list and is
    always a directory); the clock; the random suffixes that temporary files
    will draw; and what [disk.GetInfo] answers ([Free], [Total]). *)
Record world := {
  tree : gmap (list string) node;
  now : Z;
  entropy : list string;
  diskInfo : result (Z * Z)
}.

Definition withTree (w : world) (t : gmap (list string) node) : world :=
  {| tree := t; now := now w; entropy := entropy w; diskInfo := diskInfo w |}.

(** State and errors: a computation takes the world and gives a result and
    the world it leaves, also when it fails. *)
Definition io (A : Type) : Type := world → result A * world.

Global Instance io_ret : MRet io := λ A a w, (Ok a, w).

Global Instance io_bind : MBind io := λ A B f m w,
  match m w with
  | (Ok a, w') => f a w'
  | (Err e, w') => (Err e, w')
  end.

Definition fail {A : Type} (e : error) : io A := λ w, (Err e, w).

(** [e := f()] with the error looked at by the caller. *)
Definition try {A : Type} (m : io A) : io (result A) := λ w,
  let '(r, w') := m w in (Ok r, w').

(** A call whose error the caller drops. *)
Definition ignore {A : Type} (m : io A) : io unit := λ w,
  let '(_, w') := m w in (Ok tt, w').

Definition getTree : io (gmap (list string) node) := λ w, (Ok (tree w), w).

Fixpoint forEach {A : Type} (l : list A) (body : A → io unit) : io unit :=
  match l with
  | [] => mret tt
  | x :: r => _ ← body x; forEach r body
  end.

(** The key of a path: its elements after cleaning, a relative path being
    taken from the root. *)
Definition resolve (path : string) : list string := cleanElems true path.

Definition lookupNode (t : gmap (list string) node) (p : list string) : option node :=
  match p with
  | [] => Some Directory
  | _ => t !! p
  end.

Module DirEntry.
Record t := {
  Name : string;
  ModTime : Z;
  Size : Z;
  IsDir : bool
}.
End DirEntry.

Definition entryOf (name : string) (n : node) : DirEntry.t :=
  match n with
  | RegularFile data modTime =>
      {| DirEntry.Name := name; DirEntry.ModTime := modTime;
         DirEntry.Size := Z.of_nat (length data); DirEntry.IsDir := false |}
  | Directory =>
      {| DirEntry.Name := name; DirEntry.ModTime := 0;
         DirEntry.Size := 0; DirEntry.IsDir := true |}
  end.

(** The entries of the directory [d]: the keys one element longer than
    [d]. *)
Definition childOf (d : list string) (k : list string) : option string :=
  match rev k with
  | name :: front => if bool_decide (rev front = d) then Some name else None
  | [] => None
  end.

Definition readdir (t : gmap (list string) node) (d : list string) : list DirEntry.t :=
  omap (λ kv, (λ name, entryOf name kv.2) <$> childOf d kv.1) (map_to_list t).

Definition byDirentName (a b : DirEntry.t) : Prop :=
  String.leb (DirEntry.Name a) (DirEntry.Name b) = true.

Global Instance byDirentName_dec a b : Decision (byDirentName a b).
Proof. unfold byDirentName. apply _. Defined.

(** ** Go's [os] on the tree *)

Module FileInfo.
Record t := {
  Size : Z;
  ModTime : Z;
  IsRegular : bool
}.
End FileInfo.

Definition infoOf (n : node) : FileInfo.t :=
  match n with
  | RegularFile data modTime =>
      {| FileInfo.Size := Z.of_nat (length data); FileInfo.ModTime := modTime;
         FileInfo.IsRegular := true |}
  | Directory =>
      {| FileInfo.Size := 0; FileInfo.ModTime := 0; FileInfo.IsRegular := false |}
  end.

Definition os_Lstat (name : string) : io FileInfo.t := λ w,
  match lookupNode (tree w) (resolve name) with
  | Some n => (Ok (infoOf n), w)
  | None => (Err (ErrNotExist name), w)
  end.

(** No symbolic links are modelled. *)
Definition os_Stat (name : string) : io FileInfo.t := os_Lstat name.

Definition os_IsNotExist (e : error) : bool :=
  match e with ErrNotExist _ => true | _ => false end.

(** [os.Remove]: a file, or a directory that is empty. *)
Definition os_Remove (name : string) : io unit := λ w,
  match resolve name with
  | [] => (Err (ErrInvalid name), w)
  | k =>
      match tree w !! k with
      | None => (Err (ErrNotExist name), w)
      | Some (RegularFile _ _) => (Ok tt, withTree w (delete k (tree w)))
      | Some Directory =>
          match readdir (tree w) k with
          | [] => (Ok tt, withTree w (delete k (tree w)))
          | _ => (Err (ErrNotEmpty name), w)
          end
      end
  end.

(** [os.MkdirAll]: every missing directory down to [path] is made; a file
    on the way is an error. *)
Fixpoint mkdirs (done todo : list string) (t : gmap (list string) node)
    : option (gmap (list string) node) :=
  match todo with
  | [] => Some t
  | e :: r =>
      match t !! (done ++ [e]) with
      | Some (RegularFile _ _) => None
      | Some Directory => mkdirs (done ++ [e]) r t
      | None => mkdirs (done ++ [e]) r (<[done ++ [e] := Directory]> t)
      end
  end.

Definition os_MkdirAll (path : string) : io unit := λ w,
  match mkdirs [] (resolve path) (tree w) with
  | Some t => (Ok tt, withTree w t)
  | None => (Err (ErrNotDir path), w)
  end.

Fixpoint stripPrefix (p k : list string) : option (list string) :=
  match p, k with
  | [], _ => Some k
  | a :: p', b :: k' => if String.eqb a b then stripPrefix p' k' else None
  | _ :: _, [] => None
  end.

(** The keys at and under [old] moved to [new]. *)
Definition moveKeys (old new : list string) (t : gmap (list string) node)
    : gmap (list string) node :=
  list_to_map
    (map (λ kv, match stripPrefix old kv.1 with
                | Some rest => (new ++ rest, kv.2)
                | None => kv
                end)
       (map_to_list (delete new t))).

(** [os.Rename] as POSIX has it. *)
Definition os_Rename (oldpath newpath : string) : io unit := λ w,
  let old := resolve oldpath in
  let new := resolve newpath in
  match old, tree w !! old with
  | [], _ => (Err (ErrInvalid oldpath), w)
  | _, None => (Err (ErrNotExist oldpath), w)
  | _, Some n =>
      if bool_decide (old = new) then (Ok tt, w)
      else
        match new, lookupNode (tree w) (removelast new) with
        | [], _ => (Err (ErrInvalid newpath), w)
        | _, None => (Err (ErrNotExist newpath), w)
        | _, Some (RegularFile _ _) => (Err (ErrNotDir newpath), w)
        | _, Some Directory =>
            match n, tree w !! new with
            | RegularFile _ _, Some Directory => (Err (ErrIsDir newpath), w)
            | RegularFile _ _, _ => (Ok tt, withTree w (<[new := n]> (delete old (tree w))))
            | Directory, Some (RegularFile _ _) => (Err (ErrNotDir newpath), w)
            | Directory, target =>
                if isSome (stripPrefix old new) then (Err (ErrInvalid newpath), w)
                else
                  match target, readdir (tree w) new with
                  | Some _, _ :: _ => (Err (ErrNotEmpty newpath), w)
                  | _, _ => (Ok tt, withTree w (moveKeys old new (tree w)))
                  end
            end
        end
  end.

(** [os.Open] followed by the read of the whole file, as [io.Copy] from the
    opened file does it: a directory opens but does not read. *)
Definition os_Open (name : string) : io reader := λ w,
  match lookupNode (tree w) (resolve name) with
  | None => (Err (ErrNotExist name), w)
  | Some (RegularFile data _) => (Ok {| pending := data; failure := None |}, w)
  | Some Directory => (Ok {| pending := []; failure := Some (ErrIsDir name) |}, w)
  end.

(** [io.Copy(dst, src)]: every byte [src] delivers is handed to [dst]; the
    bytes written, and the error that ended the copy if it was not the end
    of the stream. *)
Definition io_Copy (dst : list byte → io unit) (src : reader)
    : io (list byte * option error) :=
  r ← try (dst (pending src));
  match r with
  | Ok _ => mret (pending src, failure src)
  | Err e => mret ([], Some e)
  end.

(** [io.CopyN(dst, src, n)]: [Copy] from [LimitReader(src, n)]; fewer than
    [n] bytes written without an error is the error [EOF]. *)
Definition io_CopyN (dst : list byte → io unit) (src : reader) (n : Z)
    : io (list byte * option error) :=
  '(written, err) ← io_Copy dst (io_LimitReader src n);
  if Z.of_nat (length written) =? n then mret (written, None)
  else if (Z.of_nat (length written) <? n) && negb (isSome err)
  then mret (written, Some EOF)
  else mret (written, err).

(** ** Helpers of the backend declared in other files *)

(** Modelled from the spec: [isDirExist], the walker's IsDirExist(dir),
    whose source is not at hand: whether [dirname] names a directory. *)
Definition isDirExist (dirname : string) : io bool := λ w,
  match lookupNode (tree w) (resolve dirname) with
  | Some Directory => (Ok true, w)
  | _ => (Ok false, w)
  end.

(** Modelled from the spec: [isDirEmpty], the walker's IsDirEmpty(dir),
    whose source is not at hand: whether the directory has no entry; an
    error when [dirname] names no directory. *)
Definition isDirEmpty (dirname : string) : io bool := λ w,
  match lookupNode (tree w) (resolve dirname) with
  | Some Directory =>
      (Ok (bool_decide (readdir (tree w) (resolve dirname) = [])), w)
  | Some (RegularFile _ _) => (Err (ErrNotDir dirname), w)
  | None => (Err (ErrNotExist dirname), w)
  end.

(** Modelled from the spec: [filteredReaddir], the walker's
    FilteredReaddir(dir, predicate, followDirs), whose source is not at
    hand: the entries of the directory that pass the predicate, in
    byte-wise ascending order of their names, not recursive. *)
Definition filteredReaddir (dirname : string) (filter : DirEntry.t → bool)
    (followDirs : bool) : io (list DirEntry.t) := λ w,
  match lookupNode (tree w) (resolve dirname) with
  | Some Directory =>
      (Ok (merge_sort byDirentName
             (List.filter filter (readdir (tree w) (resolve dirname)))), w)
  | Some (RegularFile _ _) => (Err (ErrNotDir dirname), w)
  | None => (Err (ErrNotExist dirname), w)
  end.

(** Modelled from the spec: [filteredReaddirnames], the walker's
    FilteredReaddirnames(dir, predicate), whose source is not at hand: the
    names only. *)
Definition filteredReaddirnames (dirname : string) (filter : string → bool)
    : io (list string) :=
  entries ← filteredReaddir dirname (λ entry, filter (DirEntry.Name entry)) false;
  mret (map DirEntry.Name entries).

(** *** Package [safe]: a file written beside its target *)

Module safe.

(** The open temporary file and the path it is written for. *)
Record File := {
  Name : string;
  target : string
}.

(** Modelled from the spec: [safe.CreateFileWithSuffix], whose source is
    not at hand: a sibling temporary file, the target's path followed by
    the suffix and random characters, opened empty in the target's
    directory.  It fails when that directory is missing or the name is
    taken. *)
Definition CreateFileWithSuffix (name suffix : string) : io File := λ w,
  let tmp := name +:+ suffix +:+ hd EmptyString (entropy w) in
  let w' := {| tree := tree w; now := now w; entropy := tl (entropy w);
               diskInfo := diskInfo w |} in
  match lookupNode (tree w) (removelast (resolve tmp)),
        lookupNode (tree w) (resolve tmp) with
  | Some Directory, None =>
      (Ok {| Name := tmp; target := name |},
       withTree w' (<[resolve tmp := RegularFile [] (now w)]> (tree w)))
  | Some Directory, Some _ => (Err (ErrExist tmp), w')
  | _, _ => (Err (ErrNotExist tmp), w')
  end.

(** A write to the temporary file: the bytes are appended. *)
Definition Write (f : File) (p : list byte) : io unit := λ w,
  match tree w !! resolve (Name f) with
  | Some (RegularFile data _) =>
      (Ok tt, withTree w (<[resolve (Name f) := RegularFile (data ++ p) (now w)]> (tree w)))
  | _ => (Err (ErrInvalid (Name f)), w)
  end.

(** Modelled from the spec: the method [Close] of the file, whose source is not at hand:
    the temporary file is closed and renamed to the target path, the
    release of the temporary file on success. *)
Definition Close (f : File) : io unit := λ w,
  match tree w !! resolve (Name f) with
  | Some n =>
      (Ok tt, withTree w (<[resolve (target f) := n]> (delete (resolve (Name f)) (tree w))))
  | None => (Err (ErrInvalid (Name f)), w)
  end.

(** Modelled from the spec: the method [CloseAndRemove] of the file, whose source is not
    at hand: the temporary file is closed and unlinked, the release of the
    temporary file on failure. *)
Definition CloseAndRemove (f : File) : io unit := λ w,
  (Ok tt, withTree w (delete (resolve (Name f)) (tree w))).

End safe.

(** ** The multipart backend *)

Definition configDir : string := ".minio".
Definition uploadIDSuffix : string := ".uploadid".
Definition quoteString : string := String quote EmptyString.

Record Filesystem := {
  path : string;
  minFreeDisk : Z
}.

(** What the backend takes from other packages and files: the MD5 digest of
    [crypto/md5]; [isMD5SumEqual]; the name rules [IsValidBucketName] and
    [IsValidObjectName]; [getActualBucketname], which reads the storage
    root; the floating-point percentage of [checkDiskFree]; and the table
    [mimedb.DB] of content types. *)
Record Env := {
  md5_Sum : list byte → list byte;
  isMD5SumEqual : string → string → bool;
  IsValidBucketName : string → bool;
  IsValidObjectName : string → bool;
  getActualBucketname : gmap (list string) node → string → string → string;
  availablePercent : Z → Z → Z;
  mimedb_DB : string → option string
}.

Module completePart.
Record t := {
  PartNumber : Z;
  ETag : string
}.
End completePart.

Module partInfo.
Record t := {
  PartNumber : Z;
  LastModified : Z;
  ETag : string;
  Size : Z
}.
End partInfo.

Module ObjectInfo.
Record t := {
  Bucket : string;
  Name : string;
  ModifiedTime : Z;
  Size : Z;
  ContentType : string;
  MD5Sum : string
}.
End ObjectInfo.

Module ListPartsInfo.
Record t := {
  Bucket : string;
  Object : string;
  UploadID : string;
  PartNumberMarker : Z;
  NextPartNumberMarker : Z;
  MaxParts : Z;
  IsTruncated : bool;
  Parts : list partInfo.t
}.
End ListPartsInfo.

(** The loop of [removeFileTree]: a round that runs to its end has removed
    a directory, so [fuel] rounds are enough once [fuel] exceeds the number
    of entries in the tree. *)
Fixpoint removeLoop (fuel : nat) (fileDir level : string) : io unit :=
  match fuel with
  | O => fail (errorString "removeFileTree: out of rounds")
  | S fuel' =>
      if String.ltb level fileDir then
        status ← isDirEmpty fileDir;
        if negb status then mret tt
        else
          _ ← os_Remove fileDir;
          removeLoop fuel' (filepath_Dir fileDir) level
      else mret tt
  end.

Definition removeFileTree (fileName level : string) : io unit :=
  _ ← os_Remove fileName;
  t ← getTree;
  removeLoop (S (size t)) (filepath_Dir fileName) level.

Definition isFileExist (filename : string) : io bool :=
  r ← try (os_Lstat filename);
  match r with
  | Err e => if os_IsNotExist e then mret false else fail e
  | Ok fi => mret (FileInfo.IsRegular fi)
  end.

Section Backend.

Context (E : Env).

(** Takes an input stream and safely writes to disk, additionally
    verifies checksum.  The MD5 hasher and the file sit behind one
    [io.MultiWriter]: the hasher has seen the bytes the copy wrote. *)
Definition safeWriteFile (fileName : string) (data : reader) (size : Z)
    (md5sum : string) : io unit :=
  safeFile ← safe.CreateFileWithSuffix fileName "-";
  '(written, e) ←
    (if 0 <? size
     then io_CopyN (safe.Write safeFile) data size
     else io_Copy (safe.Write safeFile) data);
  match e with
  | Some e => _ ← ignore (safe.CloseAndRemove safeFile); fail e
  | None =>
      let dataMd5sum := hex_EncodeToString (md5_Sum E written) in
      if negb (String.eqb md5sum EmptyString) &&
         negb (isMD5SumEqual E md5sum dataMd5sum)
      then
        _ ← ignore (safe.CloseAndRemove safeFile);
        fail (BadDigest md5sum dataMd5sum)
      else
        _ ← ignore (safe.Close safeFile);
        mret tt
  end.

Fixpoint decodeAll (md5Strs : list string) (finalMD5Bytes : list byte)
    : result (list byte) :=
  match md5Strs with
  | [] => Ok finalMD5Bytes
  | md5Str :: rest =>
      match hex_DecodeString md5Str with
      | None => Err (hexError md5Str)
      | Some md5Bytes => decodeAll rest (finalMD5Bytes ++ md5Bytes)
      end
  end.

(** Create an s3 compatible MD5sum for complete multipart transaction. *)
Definition makeS3MD5 (md5Strs : list string) : result string :=
  match decodeAll md5Strs [] with
  | Err e => Err e
  | Ok finalMD5Bytes =>
      Ok (hex_EncodeToString (md5_Sum E finalMD5Bytes) +:+ "-" +:+
          strconv_Itoa (Z.of_nat (length md5Strs)))
  end.

Definition isUploadIDExist (fs : Filesystem) (bucket object uploadID : string)
    : io bool :=
  isFileExist (filepath_Join [path fs; configDir; bucket; object;
                              uploadID +:+ uploadIDSuffix]).

Definition cleanupUploadID (fs : Filesystem) (bucket object uploadID : string)
    : io unit :=
  let metaObjectDir := filepath_Join [path fs; configDir; bucket; object] in
  let uploadIDPrefix := uploadID +:+ "." in
  names ← filteredReaddirnames metaObjectDir
             (λ name, strings_HasPrefix name uploadIDPrefix);
  _ ← forEach names (λ name, os_Remove (filepath_Join [metaObjectDir; name]));
  status ← isDirEmpty metaObjectDir;
  if (status : bool)
  then removeFileTree metaObjectDir (filepath_Join [path fs; configDir; bucket])
  else mret tt.

Definition checkBucketArg (fs : Filesystem) (bucket : string) : io string :=
  if negb (IsValidBucketName E bucket) then fail (BucketNameInvalid bucket)
  else
    t ← getTree;
    let bucket := getActualBucketname E t (path fs) bucket in
    status ← isDirExist (filepath_Join [path fs; bucket]);
    if negb status then fail (BucketNotFound bucket) else mret bucket.

Definition disk_GetInfo (path : string) : io (Z * Z) := λ w, (diskInfo w, w).

Definition checkDiskFree (fs : Filesystem) : io unit :=
  '(free, total) ← disk_GetInfo (path fs);
  if availablePercent E free total <=? minFreeDisk fs
  then fail (RootPathFull (path fs))
  else mret tt.

Definition checkMultipartArgs (fs : Filesystem) (bucket object : string)
    : io string :=
  bucket ← checkBucketArg fs bucket;
  if negb (IsValidObjectName E object) then fail (ObjectNameInvalid object)
  else mret bucket.

(** PutObjectPart - create a part in a multipart session *)
Definition PutObjectPart (fs : Filesystem) (bucket object uploadID : string)
    (partNumber : Z) (size : Z) (data : reader) (md5Hex : string) : io string :=
  bucket ← checkMultipartArgs fs bucket object;
  status ← isUploadIDExist fs bucket object uploadID;
  if negb status then fail (InvalidUploadID uploadID)
  else if partNumber <=? 0
  then fail (errorString "invalid part id, cannot be zero or less than zero")
  else if 10000 <? partNumber
  then fail (errorString "invalid part id, should be not more than 10000")
  else
    _ ← checkDiskFree fs;
    let partSuffix :=
      uploadID +:+ "." +:+ strconv_Itoa partNumber +:+ "." +:+ md5Hex in
    let partFilePath :=
      filepath_Join [path fs; configDir; bucket; object; partSuffix] in
    _ ← safeWriteFile partFilePath data size md5Hex;
    mret md5Hex.

(** AbortMultipartUpload - abort an incomplete multipart session *)
Definition AbortMultipartUpload (fs : Filesystem) (bucket object uploadID : string)
    : io unit :=
  bucket ← checkMultipartArgs fs bucket object;
  status ← isUploadIDExist fs bucket object uploadID;
  if negb status then fail (InvalidUploadID uploadID)
  else cleanupUploadID fs bucket object uploadID.

(** The first loop of [CompleteMultipartUpload]: every part named by the
    client must be on disk. *)
Fixpoint collectMD5Sums (metaObjectDir uploadID : string)
    (parts : list completePart.t) (md5Sums : list string) : io (list string) :=
  match parts with
  | [] => mret md5Sums
  | part :: rest =>
      let partNumber := completePart.PartNumber part in
      let md5sum := strings_Trim (completePart.ETag part) quoteString in
      let partFile :=
        filepath_Join [metaObjectDir;
                       uploadID +:+ "." +:+ strconv_Itoa partNumber +:+ "." +:+ md5sum] in
      status ← isFileExist partFile;
      if negb status then fail InvalidPart
      else collectMD5Sums metaObjectDir uploadID rest (md5Sums ++ [md5sum])
  end.

(** The second loop: the parts are appended to the temporary file. *)
Fixpoint concatParts (metaObjectDir uploadID : string) (safeFile : safe.File)
    (parts : list completePart.t) : io unit :=
  match parts with
  | [] => mret tt
  | part :: rest =>
      let partNumber := completePart.PartNumber part in
      let md5sum :=
        strings_TrimSuffix
          (strings_TrimPrefix (completePart.ETag part) quoteString) quoteString in
      let partFileStr :=
        filepath_Join [metaObjectDir;
                       uploadID +:+ "." +:+ strconv_Itoa partNumber +:+ "." +:+ md5sum] in
      r ← try (os_Open partFileStr);
      match r with
      | Err e => _ ← ignore (safe.CloseAndRemove safeFile); fail e
      | Ok partFile =>
          '(_, e) ← io_Copy (safe.Write safeFile) partFile;
          match e with
          | Some e => _ ← ignore (safe.CloseAndRemove safeFile); fail e
          | None => concatParts metaObjectDir uploadID safeFile rest
          end
      end
  end.

Definition contentTypeOf (objectPath : string) : string :=
  let objectExt := filepath_Ext objectPath in
  if negb (String.eqb objectExt EmptyString) then
    match mimedb_DB E (strings_ToLower (strings_TrimPrefix objectExt ".")) with
    | Some content => content
    | None => "application/octet-stream"
    end
  else "application/octet-stream".

(** CompleteMultipartUpload - complete a multipart upload and persist the
    data *)
Definition CompleteMultipartUpload (fs : Filesystem)
    (bucket object uploadID : string) (parts : list completePart.t)
    : io ObjectInfo.t :=
  bucket ← checkMultipartArgs fs bucket object;
  status ← isUploadIDExist fs bucket object uploadID;
  if negb status then fail (InvalidUploadID uploadID)
  else
    _ ← checkDiskFree fs;
    let metaObjectDir := filepath_Join [path fs; configDir; bucket; object] in
    md5Sums ← collectMD5Sums metaObjectDir uploadID parts [];
    match makeS3MD5 md5Sums with
    | Err e => fail e
    | Ok s3MD5 =>
        let completeObjectFile :=
          filepath_Join [metaObjectDir; uploadID +:+ ".complete."] in
        safeFile ← safe.CreateFileWithSuffix completeObjectFile "-";
        _ ← concatParts metaObjectDir uploadID safeFile parts;
        _ ← ignore (safe.Close safeFile);
        objSt ← os_Stat completeObjectFile;
        let bucketPath := filepath_Join [path fs; bucket] in
        let objectPath := filepath_Join [bucketPath; object] in
        r ← try (os_MkdirAll (filepath_Dir objectPath));
        match r with
        | Err e => _ ← ignore (os_Remove completeObjectFile); fail e
        | Ok _ =>
            r ← try (os_Rename completeObjectFile objectPath);
            match r with
            | Err e => _ ← ignore (os_Remove completeObjectFile); fail e
            | Ok _ =>
                _ ← ignore (cleanupUploadID fs bucket object uploadID);
                mret {| ObjectInfo.Bucket := bucket;
                        ObjectInfo.Name := object;
                        ObjectInfo.ModifiedTime := FileInfo.ModTime objSt;
                        ObjectInfo.Size := FileInfo.Size objSt;
                        ObjectInfo.ContentType := contentTypeOf objectPath;
                        ObjectInfo.MD5Sum := s3MD5 |}
            end
        end
    end.

(** The filter [ListObjectParts] hands to [filteredReaddir]. *)
Definition partFilter (uploadID : string) (partNumberMarker : Z)
    (entry : DirEntry.t) : bool :=
  match strings_Split (DirEntry.Name entry) "."%char with
  | [token0; token1; _] =>
      if String.eqb token0 uploadID then
        match strconv_Atoi token1 with
        | Some partNumber =>
            (1 <=? partNumber) && (partNumber <=? 10000) &&
            (partNumberMarker <? partNumber)
        | None => false
        end
      else false
  | _ => false
  end.

Definition partOf (entry : DirEntry.t) : partInfo.t :=
  let tokens := strings_Split (DirEntry.Name entry) "."%char in
  {| partInfo.PartNumber := default 0 (strconv_Atoi (nth 1 tokens EmptyString));
     partInfo.LastModified := DirEntry.ModTime entry;
     partInfo.ETag := nth 2 tokens EmptyString;
     partInfo.Size := DirEntry.Size entry |}.

(** The loop over the entries: [i] counts the entries seen, the loop breaks
    with [isTruncated] set at entry number [maxParts]. *)
Fixpoint partsLoop (i maxParts : Z) (entries : list DirEntry.t)
    (parts : list partInfo.t) : bool * list partInfo.t :=
  match entries with
  | [] => (false, parts)
  | entry :: rest =>
      if i =? maxParts then (true, parts)
      else partsLoop (i + 1) maxParts rest (parts ++ [partOf entry])
  end.

(** ListObjectParts - list parts from incomplete multipart session *)
Definition ListObjectParts (fs : Filesystem) (bucket object uploadID : string)
    (partNumberMarker maxParts : Z) : io ListPartsInfo.t :=
  bucket ← checkMultipartArgs fs bucket object;
  status ← isUploadIDExist fs bucket object uploadID;
  if negb status then fail (InvalidUploadID uploadID)
  else
    let metaObjectDir := filepath_Join [path fs; configDir; bucket; object] in
    entries ← filteredReaddir metaObjectDir (partFilter uploadID partNumberMarker) false;
    let maxParts := if (maxParts <=? 0) || (1000 <? maxParts) then 1000 else maxParts in
    let nextPartNumberMarker := 0 in
    let '(isTruncated, parts) := partsLoop 0 maxParts entries [] in
    let nextPartNumberMarker := if isTruncated then 0 else nextPartNumberMarker in
    mret {| ListPartsInfo.Bucket := bucket;
            ListPartsInfo.Object := object;
            ListPartsInfo.UploadID := uploadID;
            ListPartsInfo.PartNumberMarker := partNumberMarker;
            ListPartsInfo.NextPartNumberMarker := nextPartNumberMarker;
            ListPartsInfo.MaxParts := maxParts;
            ListPartsInfo.IsTruncated := isTruncated;
            ListPartsInfo.Parts := parts |}.

End Backend.

(** ** What a copy delivers

    The bytes [safeWriteFile] hands to the hasher and the temporary file,
    and the error that ends the copy, read off [io_CopyN] and [io_Copy]: a
    positive [size] asks for that many bytes, any other [size] for the whole
    stream. *)
Definition streamed (data : reader) (size : Z) : list byte * option error :=
  if 0 <? size then
    if size <=? Z.of_nat (length (pending data))
    then (take (Z.to_nat size) (pending data), None)
    else (pending data, Some (default EOF (failure data)))
  else (pending data, failure data).

(** The copy as the specification words it: exactly [size] bytes when
    [size] is zero or more, the whole stream when it is negative. *)
Definition streamedAsSpecified (data : reader) (size : Z) : list byte * option error :=
  if 0 <=? size then
    if size <=? Z.of_nat (length (pending data))
    then (take (Z.to_nat size) (pending data), None)
    else (pending data, Some (default EOF (failure data)))
  else (pending data, failure data).

(** What [safeWriteFile] leaves once the bytes [written] were copied without
    an error: the target holds them when no checksum was asked for or the
    checksum agrees, and the write is discarded with [BadDigest]
    otherwise. *)
Definition settled (E : Env) (fileName md5sum : string) (w : world)
    (written : list byte) (res : result unit * world) : Prop :=
  let dataMd5sum := hex_EncodeToString (md5_Sum E written) in
  if String.eqb md5sum EmptyString || isMD5SumEqual E md5sum dataMd5sum
  then res.1 = Ok tt ∧
       tree res.2 = <[resolve fileName := RegularFile written (now w)]> (tree w)
  else res.1 = Err (BadDigest md5sum dataMd5sum) ∧ tree res.2 = tree w.

(** ** Paths in clean form

    A path element as a directory holds it: not empty, neither of the dot
    names, and without a separator. *)
Definition isElement (name : string) : bool :=
  negb (String.eqb name EmptyString) && negb (String.eqb name ".") &&
  negb (String.eqb name "..") &&
  forallb (λ c, negb (Ascii.eqb c slash)) (list_ascii_of_string name).

(** The absolute path made of the elements; the root for no element. *)
Definition absolute (elems : list string) : string :=
  "/" +:+ String.concat "/" elems.

(** Every key of the tree is made of path elements. *)
Definition wellFormed (t : gmap (list string) node) : bool :=
  forallb (λ kv, forallb isElement kv.1) (map_to_list t).

(** Upload IDs are UUIDs in their string form, hexadecimal digits and
    dashes: they hold no dot. *)
Definition hasNoDot (s : string) : bool :=
  forallb (λ c, negb (Ascii.eqb c "."%char)) (list_ascii_of_string s).

(** What [cleanupUploadID] may take away, given the elements [metaDir] of
    the object's metadir and [level] of the bucket's: an entry of the
    metadir whose name starts with the upload ID and a dot, or a directory
    from the metadir upwards that lies strictly below [level]. *)
Definition removable (t0 : gmap (list string) node) (metaDir level : list string)
    (uploadID : string) (k : list string) : Prop :=
  (∃ name, k = metaDir ++ [name] ∧
           strings_HasPrefix name (uploadID +:+ ".") = true)
  ∨ (t0 !! k = Some Directory ∧ level `prefix_of` k ∧ level ≠ k ∧
     k `prefix_of` metaDir).

(** The tree [t] is the tree [t0] less some keys, each of them allowed to go
    and, when it was a directory, left without an entry. *)
Definition onlyRemoved (t0 t : gmap (list string) node)
    (allowed : list string → Prop) : Prop :=
  ∀ k, t !! k = t0 !! k ∨
       (t !! k = None ∧ allowed k ∧
        (t0 !! k = Some Directory → ∀ name, t !! (k ++ [name]) = None)).

Definition outOfRounds : error := errorString "removeFileTree: out of rounds".

(** Computations that only look at the world. *)
Definition readonly {A : Type} (m : io A) : Prop :=
  ∀ w r w', m w = (r, w') → w' = w.

(** ** Sample values

    A small environment, a storage root and a few requests on which the
    definitions above can be run. *)

Definition bytesOf (s : string) : list byte :=
  map byte_of_ascii (list_ascii_of_string s).

Definition readerOf (s : string) : reader :=
  {| pending := bytesOf s; failure := None |}.

(** A one-byte stand-in for the MD5 digest. *)
Definition demoDigest (bs : list byte) : list byte :=
  [default "000"%byte
     (Byte.of_N (fold_right (λ b acc, (Byte.to_N b + 3 * acc) mod 256)%N 7%N bs))].

Definition demoEnv : Env := {|
  md5_Sum := demoDigest;
  isMD5SumEqual := String.eqb;
  IsValidBucketName := λ b, (3 <=? String.length b)%nat;
  IsValidObjectName := λ o, negb (String.eqb o EmptyString);
  getActualBucketname := λ _ _ b, b;
  availablePercent := λ free total, free * 100 / (total - total / 20);
  mimedb_DB := λ ext, if String.eqb ext "txt" then Some "text/plain" else None
|}.

Definition demoFs : Filesystem := {| path := "/data"; minFreeDisk := 10 |}.

Definition metaDir : list string := ["data"; ".minio"; "bkt"; "big"].

(** The root [/data] with the bucket [bkt] and two multipart sessions, [u1]
    and [u2], open on the object [big]; [u1] has two parts, [u2] one. *)
Definition demoWorld : world := {|
  tree := list_to_map
    [ (["data"], Directory);
      (["data"; "bkt"], Directory);
      (["data"; ".minio"], Directory);
      (["data"; ".minio"; "bkt"], Directory);
      (metaDir, Directory);
      (metaDir ++ ["u1.uploadid"], RegularFile [] 5);
      (metaDir ++ ["u2.uploadid"], RegularFile [] 6);
      (metaDir ++ ["u1.1.8b"], RegularFile (bytesOf "hello") 7);
      (metaDir ++ ["u1.2.73"], RegularFile (bytesOf "world") 8);
      (metaDir ++ ["u2.1.8b"], RegularFile (bytesOf "hello") 9) ];
  now := 100;
  entropy := ["a1b2c3d4"; "00112233"];
  diskInfo := Ok (500, 1000)
|}.

(** The same root with a single session, [u3], reserved in the bucket's own
    metadir. *)
Definition loneUploadWorld : world := {|
  tree := list_to_map
    [ (["data"], Directory);
      (["data"; "bkt"], Directory);
      (["data"; ".minio"], Directory);
      (["data"; ".minio"; "bkt"], Directory);
      (["data"; ".minio"; "bkt"; "u3.uploadid"], RegularFile [] 5) ];
  now := 100;
  entropy := [];
  diskInfo := Ok (500, 1000)
|}.

Definition getObjectStatement : policyStatement := {|
  Sid := EmptyString;
  Effect := "Allow";
  Principal := ["*"];
  Actions := ["s3:GetObject"];
  Resources := ["B/.*"];
  Conditions := ∅
|}.

(** A statement whose only condition is [StringEquals] on [s3:prefix]. *)
Definition prefixStatement : policyStatement := {|
  Sid := EmptyString;
  Effect := "Allow";
  Principal := ["*"];
  Actions := ["s3:ListBucket"];
  Resources := ["B"];
  Conditions := {[ "StringEquals" := {[ "s3:prefix" := "photos" ]} ]}
|}.

(** A statement whose only condition operator is one the evaluator does
    not know. *)
Definition ipStatement : policyStatement := {|
  Sid := EmptyString;
  Effect := "Deny";
  Principal := ["*"];
  Actions := ["s3:.*"];
  Resources := ["B/.*"];
  Conditions := {[ "IpAddress" := {[ "aws:SourceIp" := "10.0.0.0/8" ]} ]}
|}.

(** A policy store that takes any document opening with a brace. *)
Definition demoStore : PolicyStore := {|
  BucketPolicy := list byte;
  parseBucketPolicy := λ buf,
    match buf with
    | b :: _ => if Byte.eqb b "{"%byte then Some buf else None
    | [] => None
    end;
  checkBucketPolicy := λ _ _, ErrNone;
  writeBucketPolicy := λ _ _, None
|}.

(** A signed, authenticated request, not chunked, whose body is a document
    of [n] bytes declared as such. *)
Definition policyRequest (n : Z) : Request := {|
  bucketVar := "bkt";
  requestAuthType := authTypeSigned;
  reqAuthenticated := ErrNone;
  TransferEncoding := [];
  ContentLength := n;
  Body := {| pending := "{"%byte :: repeat " "%byte (Z.to_nat (n - 1));
             failure := None |}
|}.

(** ** Errors of the checks

    The typed errors with which the backend refuses a request, and the
    error of an MD5 string that is not hexadecimal. *)
Definition isCheckError (e : error) : bool :=
  match e with
  | BucketNameInvalid _ | BucketNotFound _ | ObjectNameInvalid _
  | InvalidUploadID _ | RootPathFull _ | InvalidPart | hexError _ => true
  | _ => false
  end.

(** ** Opening a session *)

(** [uuid.New] and [String] on its result: the next random string of the
    world, and an error when the source of randomness gives none. *)
Definition uuid_New : io string := λ w,
  match entropy w with
  | [] => (Err (errorString "uuid: no random bytes"), w)
  | u :: rest =>
      (Ok u, {| tree := tree w; now := now w; entropy := rest;
                diskInfo := diskInfo w |})
  end.

(** [ioutil.WriteFile(filename, data, 0644)]: the file is created, or
    truncated, in a directory that exists. *)
Definition ioutil_WriteFile (filename : string) (data : list byte) : io unit := λ w,
  match lookupNode (tree w) (removelast (resolve filename)),
        lookupNode (tree w) (resolve filename) with
  | Some Directory, Some Directory => (Err (ErrIsDir filename), w)
  | Some Directory, _ =>
      (Ok tt, withTree w (<[resolve filename := RegularFile data (now w)]> (tree w)))
  | Some (RegularFile _ _), _ => (Err (ErrNotDir filename), w)
  | None, _ => (Err (ErrNotExist filename), w)
  end.

Definition outOfUUIDs : error := errorString "newUploadID: out of rounds".

(** The loop of [newUploadID]: every round draws a UUID, so [fuel] rounds
    are enough once [fuel] exceeds the number of random strings left. *)
Fixpoint newUploadIDLoop (fuel : nat) (metaObjectDir : string) : io string :=
  match fuel with
  | O => fail outOfUUIDs
  | S fuel' =>
      uploadID ← uuid_New;
      let uploadIDFile := filepath_Join [metaObjectDir; uploadID +:+ uploadIDSuffix] in
      r ← try (os_Lstat uploadIDFile);
      match r with
      | Err e =>
          if negb (os_IsNotExist e) then fail e
          else
            (* uploadIDFile doesn't exist, so create empty file to reserve the name *)
            _ ← ioutil_WriteFile uploadIDFile [];
            mret uploadID
      | Ok _ =>
          (* uploadIDFile already exists: loop again with another uuid *)
          newUploadIDLoop fuel' metaObjectDir
      end
  end.

Definition getEntropy : io (list string) := λ w, (Ok (entropy w), w).

Definition newUploadID (fs : Filesystem) (bucket object : string) : io string :=
  let metaObjectDir := filepath_Join [path fs; configDir; bucket; object] in
  (* create metaObjectDir if not exist *)
  status ← isDirExist metaObjectDir;
  _ ← (if negb status then os_MkdirAll metaObjectDir else mret tt);
  random ← getEntropy;
  newUploadIDLoop (S (length random)) metaObjectDir.

(** NewMultipartUpload - initiate a new multipart session *)
Definition NewMultipartUpload (E : Env) (fs : Filesystem) (bucket object : string)
    : io string :=
  bucket ← checkMultipartArgs E fs bucket object;
  _ ← checkDiskFree E fs;
  newUploadID fs bucket object.

(** ** Part numbers in file names *)

(** Whether a part number, written by [strconv.Itoa] into the name of a part
    file, is read back by [strconv.Atoi], and is a token of the name. *)
Definition partNumberRoundTrip (n : Z) : bool :=
  match strconv_Atoi (strconv_Itoa n) with
  | Some m => (m =? n) && hasNoDot (strconv_Itoa n)
  | None => false
  end.

(** ** The cursors of [ListMultipartUploads]

    The map [listMultipartObjectMap] of the backend keeps, under the
    parameters of a listing, the channels of the walks that stopped at
    them.  The two functions run under the map's mutex, each as one step on
    the map. *)

Section ListMultipartObjectMap.

Context {listMultipartObjectParams multipartObjectInfoChannel : Type}
  `{Countable listMultipartObjectParams}.

(** The method [IsTimedOut] of a channel, declared with the channel in
    another file. *)
Context (IsTimedOut : multipartObjectInfoChannel → bool).

Definition saveListMultipartObjectCh (params : listMultipartObjectParams)
    (ch : multipartObjectInfoChannel)
    (listMultipartObjectMap : gmap listMultipartObjectParams (list multipartObjectInfoChannel))
    : gmap listMultipartObjectParams (list multipartObjectInfoChannel) :=
  let channels :=
    match listMultipartObjectMap !! params with
    | Some saved => saved ++ [ch]
    | None => [ch]
    end in
  <[params := channels]> listMultipartObjectMap.

(** The loop of [lookupListMultipartObjectCh] over the channels saved under
    [params]: at the first channel that is not timed out the channels after
    it are kept, or the entry is deleted when there is none, and the
    channel is returned. *)
Fixpoint lookupLoop (params : listMultipartObjectParams)
    (channels : list multipartObjectInfoChannel)
    (listMultipartObjectMap : gmap listMultipartObjectParams (list multipartObjectInfoChannel))
    : option (multipartObjectInfoChannel *
              gmap listMultipartObjectParams (list multipartObjectInfoChannel)) :=
  match channels with
  | [] => None
  | channel :: chs =>
      if negb (IsTimedOut channel) then
        Some (channel,
              if (0 <? length chs)%nat
              then <[params := chs]> listMultipartObjectMap
              else delete params listMultipartObjectMap)
      else lookupLoop params chs listMultipartObjectMap
  end.

Definition lookupListMultipartObjectCh (params : listMultipartObjectParams)
    (listMultipartObjectMap : gmap listMultipartObjectParams (list multipartObjectInfoChannel))
    : option multipartObjectInfoChannel *
      gmap listMultipartObjectParams (list multipartObjectInfoChannel) :=
  match listMultipartObjectMap !! params with
  | Some channels =>
      match lookupLoop params channels listMultipartObjectMap with
      | Some (channel, listMultipartObjectMap') => (Some channel, listMultipartObjectMap')
      | None =>
          (* As all channels are timed out, delete the map entry *)
          (None, delete params listMultipartObjectMap)
      end
  | None => (None, listMultipartObjectMap)
  end.

(** No entry of the map holds an empty list of channels. *)
Definition noEmptyEntry
    (listMultipartObjectMap : gmap listMultipartObjectParams (list multipartObjectInfoChannel))
    : Prop :=
  ∀ params channels, listMultipartObjectMap !! params = Some channels → channels ≠ [].

End ListMultipartObjectMap.

(** Sample cursors: listings named by strings, channels by numbers, the
    negative ones timed out. *)
Definition demoIsTimedOut (channel : Z) : bool := channel <? 0.

Definition demoCursors : gmap string (list Z) :=
  {[ "bkt/a" := [-1; 2; 3]; "bkt/b" := [-4] ]}.

(** ** Patterns that do not compile *)

(** The loop over [patterns] reaches one that does not compile: every
    pattern before it compiles and does not match [s]. *)
Definition reachesInvalid (L : RegexpLib) (s : string) (patterns : list string) : Prop :=
  ∃ before pattern after,
    patterns = before ++ pattern :: after ∧
    Forall (λ p, regexp_MatchString L p s = Some false) before ∧
    regexp_Compile L pattern = None.

(** ** The body of a request *)

Definition withBody (r : Request) (body : reader) : Request :=
  {| bucketVar := bucketVar r;
     requestAuthType := requestAuthType r;
     reqAuthenticated := reqAuthenticated r;
     TransferEncoding := TransferEncoding r;
     ContentLength := ContentLength r;
     Body := body |}.

(** ** The server configuration *)

(** serverConfigV4 server configuration version '4'.  The types of the
    credentials and of the loggers are declared in other files. *)
Module serverConfigV4.
Record t {credential logger : Type} := {
  Version : string;
  Credential : credential;
  Region : string;
  Logger : logger
}.
Arguments t : clear implicits.
End serverConfigV4.

(** What [initConfig] and [Save] call that is declared in other files or
    other packages, with the zero values of the two field types. *)
Record ConfigEnv {credential logger : Type} := {
  globalMinioConfigVersion : string;
  zeroCredential : credential;
  zeroLogger : logger;
  isConfigFileExists : bool;
  mustGenAccessKeys : credential;
  createConfigPath : option error;
  createCertsPath : option error;
  getConfigFile : result string;
  configFileStat : string → option error;
  quick_New : serverConfigV4.t credential logger → option error;
  quick_Save : serverConfigV4.t credential logger → string → option error;
  quick_Load : serverConfigV4.t credential logger → string →
               result (serverConfigV4.t credential logger)
}.
Arguments ConfigEnv : clear implicits.

Section ServerConfig.

Context {credential logger : Type} (C : ConfigEnv credential logger).

(** Save config. *)
Definition Save (s : serverConfigV4.t credential logger) : option error :=
  (* get config file. *)
  match getConfigFile C with
  | Err err => Some err
  | Ok configFile =>
      (* initialize quick. *)
      match quick_New C s with
      | Some err => Some err
      | None =>
          (* Save config file. *)
          quick_Save C s configFile
      end
  end.

(** initConfig - initialize server config.  The second component is the
    global [serverConfig] the call leaves. *)
Definition initConfig (serverConfig : option (serverConfigV4.t credential logger))
    : option error * option (serverConfigV4.t credential logger) :=
  if negb (isConfigFileExists C) then
    let srvCfg :=
      {| serverConfigV4.Version := globalMinioConfigVersion C;
         serverConfigV4.Credential := mustGenAccessKeys C;
         serverConfigV4.Region := "us-east-1";
         serverConfigV4.Logger := zeroLogger C |} in
    (* Create config path. *)
    match createConfigPath C with
    | Some err => (Some err, serverConfig)
    | None =>
        (* Create certs path. *)
        match createCertsPath C with
        | Some err => (Some err, serverConfig)
        | None =>
            (* Save the new config globally. *)
            let serverConfig := Some srvCfg in
            (* Save config into file. *)
            match Save srvCfg with
            | Some err => (Some err, serverConfig)
            | None => (None, serverConfig)
            end
        end
    end
  else
    match getConfigFile C with
    | Err err => (Some err, serverConfig)
    | Ok configFile =>
        let err : option error := None in
        let e := configFileStat C configFile in
        (* the test is on [err], the error of [getConfigFile] *)
        if isSome err then (e, serverConfig)
        else
          let srvCfg :=
            {| serverConfigV4.Version := globalMinioConfigVersion C;
               serverConfigV4.Credential := zeroCredential C;
               serverConfigV4.Region := EmptyString;
               serverConfigV4.Logger := zeroLogger C |} in
          match quick_New C srvCfg with
          | Some err => (Some err, serverConfig)
          | None =>
              match quick_Load C srvCfg configFile with
              | Err err => (Some err, serverConfig)
              | Ok loaded =>
                  (* Save the loaded config globally, and set the version
                     properly after the unmarshalled json is loaded. *)
                  (None,
                   Some {| serverConfigV4.Version := globalMinioConfigVersion C;
                           serverConfigV4.Credential := serverConfigV4.Credential loaded;
                           serverConfigV4.Region := serverConfigV4.Region loaded;
                           serverConfigV4.Logger := serverConfigV4.Logger loaded |})
              end
          end
    end.

End ServerConfig.

(** The environment with another answer of [os.Stat] on the configuration
    file. *)
Definition withConfigFileStat {credential logger : Type}
    (C : ConfigEnv credential logger) (stat : string → option error)
    : ConfigEnv credential logger :=
  {| globalMinioConfigVersion := globalMinioConfigVersion C;
     zeroCredential := zeroCredential C;
     zeroLogger := zeroLogger C;
     isConfigFileExists := isConfigFileExists C;
     mustGenAccessKeys := mustGenAccessKeys C;
     createConfigPath := createConfigPath C;
     createCertsPath := createCertsPath C;
     getConfigFile := getConfigFile C;
     configFileStat := stat;
     quick_New := quick_New C;
     quick_Save := quick_Save C;
     quick_Load := quick_Load C |}.

(** * Properties *)

(** ** Bucket policy evaluation *)

Section PolicyFacts.

Context (L : RegexpLib).

Lemma patternLoop_compiles (s : string) (patterns : list string) :
  Forall (compiles L) patterns →
  patternLoop L s patterns = Returned (existsb (patternMatches L s) patterns).
Proof.
  induction 1 as [|p ps [re Hre] _ IH]; [reflexivity|].
  cbn [patternLoop existsb]. unfold patternMatches at 1, regexp_MatchString.
  rewrite Hre. destruct (Regexp_MatchString L re s); [reflexivity|exact IH].
Qed.

Lemma patternLoop_returned (s : string) (patterns : list string) (b : bool) :
  patternLoop L s patterns = Returned b →
  b = existsb (patternMatches L s) patterns.
Proof.
  induction patterns as [|p ps IH]; cbn [patternLoop existsb].
  - congruence.
  - unfold patternMatches at 1.
    destruct (regexp_MatchString L p s) as [[|]|];
      [intros [= <-]; reflexivity|exact IH|discriminate].
Qed.

Lemma matchStatement_compiles (action resource : string)
    (conditions : gmap string string) (statement : policyStatement) :
  statementCompiles L statement →
  bucketPolicyMatchStatement L action resource conditions statement =
  Returned (statementMatches L action resource conditions statement).
Proof.
  intros [Ha Hr].
  unfold bucketPolicyMatchStatement, bucketPolicyActionMatch,
    bucketPolicyResourceMatch, statementMatches.
  rewrite (patternLoop_compiles _ _ Ha), (patternLoop_compiles _ _ Hr).
  destruct (existsb _ (Actions statement)); [|reflexivity].
  destruct (existsb _ (Resources statement)); [|reflexivity].
  destruct (bucketPolicyConditionMatch conditions statement); reflexivity.
Qed.

Lemma matchStatement_returned (action resource : string)
    (conditions : gmap string string) (statement : policyStatement) (b : bool) :
  bucketPolicyMatchStatement L action resource conditions statement = Returned b →
  b = statementMatches L action resource conditions statement.
Proof.
  unfold bucketPolicyMatchStatement, bucketPolicyActionMatch,
    bucketPolicyResourceMatch, statementMatches.
  destruct (patternLoop L action _) as [[|]|] eqn:Ha; try discriminate.
  - rewrite <- (patternLoop_returned _ _ _ Ha).
    destruct (patternLoop L _ (Resources statement)) as [[|]|] eqn:Hr;
      try discriminate; rewrite <- (patternLoop_returned _ _ _ Hr).
    + destruct (bucketPolicyConditionMatch conditions statement);
        intros [= <-]; reflexivity.
    + intros [= <-]; reflexivity.
  - rewrite <- (patternLoop_returned _ _ _ Ha). intros [= <-]; reflexivity.
Qed.

(** What [List.find] means for the evaluation: the statement that decides
    is the first one that matches. *)
Lemma find_first {A : Type} (f : A → bool) (l : list A) (x : A) :
  List.find f l = Some x ↔
  ∃ before after, l = before ++ x :: after ∧
    Forall (λ y, f y = false) before ∧ f x = true.
Proof.
  induction l as [|a l IH]; cbn [List.find].
  - split; [discriminate|]. intros ([|? ?] & ? & H & _); discriminate.
  - destruct (f a) eqn:Hfa.
    + split.
      * intros [= ->]. exists [], l. auto.
      * intros ([|b before] & after & Hl & Hall & Hx).
        -- cbn in Hl. congruence.
        -- cbn in Hl. injection Hl as -> ->. inversion Hall; congruence.
    + rewrite IH. split.
      * intros (before & after & -> & Hall & Hx).
        exists (a :: before), after. auto.
      * intros ([|b before] & after & Hl & Hall & Hx).
        -- cbn in Hl. injection Hl as -> ->. congruence.
        -- cbn in Hl. injection Hl as -> ->.
           exists before, after. inversion Hall; auto.
Qed.

Lemma find_none {A : Type} (f : A → bool) (l : list A) :
  List.find f l = None ↔ Forall (λ y, f y = false) l.
Proof.
  induction l as [|a l IH]; cbn [List.find].
  - split; auto.
  - destruct (f a) eqn:Hfa.
    + split; [discriminate|]. inversion 1; congruence.
    + rewrite IH. split; [auto|]. inversion 1; auto.
Qed.

End PolicyFacts.




(** The scenario of the specification: the policy allows [s3:GetObject] on
    [/B/a/b] and denies [s3:PutObject]. *)
Example policy_scenario :
  bucketPolicyEvalStatements GoRegexp.lib "s3:GetObject" "/B/a/b" ∅
    [getObjectStatement] = Returned true ∧
  bucketPolicyEvalStatements GoRegexp.lib "s3:PutObject" "/B/a/b" ∅
    [getObjectStatement] = Returned false.
Proof. split; vm_compute; reflexivity. Qed.

(** ** Conditions *)

Lemma conditionLoop_Forall (conditions : gmap string string)
    (entries : list (string * gmap string string)) :
  conditionLoop conditions entries = true ↔
  Forall (λ kv, conditionRound conditions kv.1 kv.2 = true) entries.
Proof.
  induction entries as [|[op keys] rest IH]; cbn [conditionLoop].
  - split; auto.
  - destruct (conditionRound conditions op keys) eqn:Hr.
    + rewrite IH. split; [intros; constructor; auto|inversion 1; auto].
    + split; [discriminate|]. inversion 1; cbn in *; congruence.
Qed.

(** The order in which the map is ranged over does not change the
    answer. *)
Lemma conditionLoop_order (conditions : gmap string string)
    (entries entries' : list (string * gmap string string)) :
  entries ≡ₚ entries' →
  conditionLoop conditions entries = conditionLoop conditions entries'.
Proof.
  intros Hp.
  destruct (conditionLoop conditions entries) eqn:H1,
           (conditionLoop conditions entries') eqn:H2; try reflexivity.
  - apply conditionLoop_Forall in H1. rewrite Hp in H1.
    apply conditionLoop_Forall in H1. congruence.
  - apply conditionLoop_Forall in H2. rewrite <- Hp in H2.
    apply conditionLoop_Forall in H2. congruence.
Qed.

Lemma bucketPolicyConditionMatch_all (conditions : gmap string string)
    (statement : policyStatement) :
  bucketPolicyConditionMatch conditions statement = true ↔
  ∀ op keys, Conditions statement !! op = Some keys →
    conditionRound conditions op keys = true.
Proof.
  unfold bucketPolicyConditionMatch. rewrite conditionLoop_Forall, Forall_forall.
  split.
  - intros H op keys Hl. apply (H (op, keys)). by apply elem_of_map_to_list.
  - intros H [op keys] Hin. apply H. by apply elem_of_map_to_list.
Qed.

(** C6 (as amended): a StringEquals condition matches if and only if its
    values for [s3:prefix] and [s3:max-keys], each taken empty when the key
    is not listed, equal the request's values for [prefix] and [max-keys],
    each taken empty when absent; a StringNotEquals condition matches if and
    only if both differ.  Other keys listed under the operator are not
    looked at.  The conditions of a statement match when every operator of
    its map does. *)
Theorem conditionRound_prefix_and_max_keys (conditions conditionKeys : gmap string string) :
  (conditionRound conditions "StringEquals" conditionKeys = true ↔
     index conditionKeys "s3:prefix" = index conditions "prefix" ∧
     index conditionKeys "s3:max-keys" = index conditions "max-keys")
  ∧ (conditionRound conditions "StringNotEquals" conditionKeys = true ↔
     index conditionKeys "s3:prefix" ≠ index conditions "prefix" ∧
     index conditionKeys "s3:max-keys" ≠ index conditions "max-keys")
  ∧ (∀ statement,
       bucketPolicyConditionMatch conditions statement = true ↔
       ∀ op keys, Conditions statement !! op = Some keys →
         conditionRound conditions op keys = true).
Proof.
  split; [|split].
  - unfold conditionRound. cbn [String.eqb Ascii.eqb Bool.eqb].
    destruct (String.eqb_spec (index conditionKeys "s3:prefix") (index conditions "prefix")),
             (String.eqb_spec (index conditionKeys "s3:max-keys") (index conditions "max-keys"));
      cbn; split; try tauto; try discriminate; intros [? ?]; congruence.
  - unfold conditionRound. cbn [String.eqb Ascii.eqb Bool.eqb].
    destruct (String.eqb_spec (index conditionKeys "s3:prefix") (index conditions "prefix")),
             (String.eqb_spec (index conditionKeys "s3:max-keys") (index conditions "max-keys"));
      cbn; split; try tauto; try discriminate; intros [? ?]; congruence.
  - intros statement. apply bucketPolicyConditionMatch_all.
Qed.

(** C6, the claim as worded: a StringEquals condition that lists
    [s3:prefix] alone, met by a request whose prefix is the listed one and
    which also carries [max-keys], has every listed key equal and yet does
    not match; a StringNotEquals condition that lists [s3:prefix] alone, met
    by a request with another prefix and no [max-keys], has every listed key
    different and yet does not match. *)
Lemma listed_keys_counterexample :
  (listedKeysEqual {[ "prefix" := "photos"; "max-keys" := "10" ]}
     {[ "s3:prefix" := "photos" ]} = true ∧
   conditionRound {[ "prefix" := "photos"; "max-keys" := "10" ]} "StringEquals"
     {[ "s3:prefix" := "photos" ]} = false)
  ∧ (listedKeysDiffer {[ "prefix" := "docs" ]} {[ "s3:prefix" := "photos" ]} = true ∧
     conditionRound {[ "prefix" := "docs" ]} "StringNotEquals"
       {[ "s3:prefix" := "photos" ]} = false).
Proof. repeat split; vm_compute; reflexivity. Qed.

(** C9: a statement whose condition map uses neither StringEquals nor
    StringNotEquals has its conditions match whatever the request carries:
    whether it matches does not depend on the request's condition values,
    and once its actions and resources match it decides the evaluation by
    its effect alone. *)
Theorem unrecognized_operators_ignored (statement : policyStatement) :
  Conditions statement !! "StringEquals" = None →
  Conditions statement !! "StringNotEquals" = None →
  (∀ conditions, bucketPolicyConditionMatch conditions statement = true)
  ∧ (∀ L action resource conditions conditions',
       bucketPolicyMatchStatement L action resource conditions statement =
       bucketPolicyMatchStatement L action resource conditions' statement)
  ∧ (∀ L action resource conditions rest,
       bucketPolicyActionMatch L action statement = Returned true →
       bucketPolicyResourceMatch L resource statement = Returned true →
       bucketPolicyEvalStatements L action resource conditions (statement :: rest) =
       Returned (String.eqb (Effect statement) "Allow")).
Proof.
  intros He Hn.
  assert (Hall : ∀ conditions, bucketPolicyConditionMatch conditions statement = true).
  { intros conditions. apply bucketPolicyConditionMatch_all. intros op keys Hop.
    unfold conditionRound.
    destruct (String.eqb_spec op "StringEquals") as [->|_]; [congruence|].
    destruct (String.eqb_spec op "StringNotEquals") as [->|_]; [congruence|].
    reflexivity. }
  split; [exact Hall|split].
  - intros L action resource c1 c2. unfold bucketPolicyMatchStatement.
    by rewrite !Hall.
  - intros L action resource conditions rest Ha Hr.
    cbn [bucketPolicyEvalStatements]. unfold bucketPolicyMatchStatement.
    rewrite Ha, Hr, Hall.
    destruct (String.eqb (Effect statement) "Allow"); reflexivity.
Qed.

Lemma unrecognized_operators_ignored_witness :
  bucketPolicyConditionMatch {[ "prefix" := "secret" ]} ipStatement = true ∧
  bucketPolicyEvalStatements GoRegexp.lib "s3:GetObject" "/B/a"
    {[ "prefix" := "secret" ]} [ipStatement; getObjectStatement] = Returned false.
Proof.
  destruct (unrecognized_operators_ignored ipStatement) as (H1 & _ & H3);
    [vm_compute; reflexivity | vm_compute; reflexivity |].
  split; [apply H1|].
  rewrite (H3 GoRegexp.lib "s3:GetObject" "/B/a");
    [reflexivity | vm_compute; reflexivity | vm_compute; reflexivity].
Defined.

(** ** PutBucketPolicy *)

(** The limit the handler enforces on the declared length it does enforce
    before the document is read and parsed. *)
Lemma declared_length_checked_first (P : PolicyStore) (r : Request) :
  (requestAuthType r = authTypeSigned ∨ requestAuthType r = authTypePresigned) →
  reqAuthenticated r = ErrNone →
  contains (TransferEncoding r) "chunked" = false →
  maxAccessPolicySize < ContentLength r →
  PutBucketPolicyHandler P r = writeErrorResponse ErrEntityTooLarge.
Proof.
  intros Ha Hauth Hch Hlen.
  unfold PutBucketPolicyHandler, contentLengthCheck.
  rewrite Hauth, Hch. cbn [negb].
  assert (Hm : maxAccessPolicySize = 20971520) by reflexivity.
  destruct (Z.eqb_spec (ContentLength r) (-1)); [lia|].
  destruct (Z.eqb_spec (ContentLength r) 0); [lia|].
  destruct (Z.ltb_spec maxAccessPolicySize (ContentLength r)); [|lia].
  destruct Ha as [-> | ->]; reflexivity.
Qed.

Lemma io_LimitReader_within (r : reader) (n : Z) :
  Z.of_nat (length (pending r)) < n → io_LimitReader r n = r.
Proof.
  intros H. unfold io_LimitReader.
  destruct (Z.leb_spec n (Z.of_nat (length (pending r)))); [lia|reflexivity].
Qed.

(** C4, the code at a document of 20481 bytes, one more than 20 KiB: the
    declared length passes the size check of any policy store, the document
    is read whole and handed to the parser, and the sample store saves
    it. *)
Theorem oversized_policy_accepted :
  documentedPolicySize < ContentLength (policyRequest 20481)
  ∧ (∀ P : PolicyStore,
       PutBucketPolicyHandler P (policyRequest 20481) =
       putBucketPolicyBody P (policyRequest 20481))
  ∧ ioutil_ReadAll (io_LimitReader (Body (policyRequest 20481)) maxAccessPolicySize) =
      (pending (Body (policyRequest 20481)), None)
  ∧ PutBucketPolicyHandler demoStore (policyRequest 20481) = writeSuccessNoContent.
Proof.
  assert (Hread : io_LimitReader (Body (policyRequest 20481)) maxAccessPolicySize =
                  Body (policyRequest 20481)).
  { apply io_LimitReader_within. cbn [Body policyRequest pending length].
    rewrite repeat_length. unfold maxAccessPolicySize. lia. }
  split; [unfold documentedPolicySize; cbn [ContentLength policyRequest]; lia|].
  split; [intros P; reflexivity|].
  split; [by rewrite Hread|].
  change (putBucketPolicyBody demoStore (policyRequest 20481) = writeSuccessNoContent).
  unfold putBucketPolicyBody. rewrite Hread. reflexivity.
Qed.

(** ** The state-and-error monad *)

Lemma io_bind_run {A B : Type} (m : io A) (f : A → io B) (w : world) :
  (m ≫= f) w =
  match m w with
  | (Ok a, w') => f a w'
  | (Err e, w') => (Err e, w')
  end.
Proof. reflexivity. Qed.

Lemma io_bind_Ok {A B : Type} (m : io A) (f : A → io B) (w w' : world) (b : B) :
  (m ≫= f) w = (Ok b, w') →
  ∃ a w1, m w = (Ok a, w1) ∧ f a w1 = (Ok b, w').
Proof.
  rewrite io_bind_run. destruct (m w) as [[a|e] w1]; [eauto|discriminate].
Qed.

Lemma io_bind_fail_Ok {A B : Type} (m : io A) (e : error) (w w' : world) (b : B) :
  (m ≫= λ _, fail e) w = (Ok b, w') → False.
Proof.
  rewrite io_bind_run. destruct (m w) as [[a|e'] w1]; discriminate.
Qed.

(** ** The safe write *)

Section SafeWriteFacts.

Context (E : Env).

Lemma lookupNode_None (t : gmap (list string) node) (k : list string) :
  lookupNode t k = None → t !! k = None.
Proof. destruct k; [discriminate|auto]. Qed.

(** A created temporary file is a fresh, empty entry of the tree. *)
Lemma CreateFileWithSuffix_Ok (name suffix : string) (w w1 : world) (f : safe.File) :
  safe.CreateFileWithSuffix name suffix w = (Ok f, w1) →
  tree w !! resolve (safe.Name f) = None ∧
  safe.target f = name ∧
  safe.Name f = name +:+ suffix +:+ hd EmptyString (entropy w) ∧
  now w1 = now w ∧
  tree w1 = <[resolve (safe.Name f) := RegularFile [] (now w)]> (tree w).
Proof.
  unfold safe.CreateFileWithSuffix. intros H.
  repeat case_match; simplify_eq. cbn. auto using lookupNode_None.
Qed.

Lemma CreateFileWithSuffix_Err (name suffix : string) (w w1 : world) (e : error) :
  safe.CreateFileWithSuffix name suffix w = (Err e, w1) → tree w1 = tree w.
Proof.
  unfold safe.CreateFileWithSuffix. intros H.
  repeat case_match; simplify_eq; reflexivity.
Qed.

(** The copy into a temporary file just created: the file holds what was
    delivered. *)
Lemma copy_into_fresh (f : safe.File) (data : reader) (size : Z) (w1 : world)
    (t : gmap (list string) node) :
  tree w1 = <[resolve (safe.Name f) := RegularFile [] (now w1)]> t →
  (if 0 <? size
   then io_CopyN (safe.Write f) data size
   else io_Copy (safe.Write f) data) w1 =
  (Ok (streamed data size),
   withTree w1 (<[resolve (safe.Name f) :=
                   RegularFile (streamed data size).1 (now w1)]> t)).
Proof.
  intros Ht.
  assert (Hw : ∀ p, safe.Write f p w1 =
                 (Ok tt, withTree w1 (<[resolve (safe.Name f) := RegularFile p (now w1)]> t))).
  { intros p. unfold safe.Write. rewrite Ht, lookup_insert_eq, insert_insert_eq.
    reflexivity. }
  unfold streamed. destruct (0 <? size) eqn:Hs.
  - unfold io_CopyN, io_Copy, io_LimitReader.
    destruct (Z.leb_spec size (Z.of_nat (length (pending data)))) as [Hle|Hgt].
    + rewrite !io_bind_run. unfold try. cbn [pending failure]. rewrite Hw.
      cbn. rewrite length_take.
      apply Z.ltb_lt in Hs.
      destruct (Z.eqb_spec (Z.of_nat (Z.to_nat size `min` length (pending data))) size);
        [reflexivity|lia].
    + rewrite !io_bind_run. unfold try. rewrite Hw. cbn.
      destruct (Z.eqb_spec (Z.of_nat (length (pending data))) size); [lia|].
      destruct (Z.ltb_spec (Z.of_nat (length (pending data))) size); [|lia].
      destruct (failure data); reflexivity.
  - unfold io_Copy. rewrite !io_bind_run. unfold try. rewrite Hw. reflexivity.
Qed.

(** [safeWriteFile] run to its end, exit by exit. *)
Lemma safeWriteFile_run (fileName : string) (data : reader) (size : Z)
    (md5sum : string) (w : world) :
  safeWriteFile E fileName data size md5sum w =
  match safe.CreateFileWithSuffix fileName "-" w with
  | (Err e, w1) => (Err e, w1)
  | (Ok f, w1) =>
      match streamed data size with
      | (_, Some e) => (Err e, withTree w1 (tree w))
      | (written, None) =>
          let dataMd5sum := hex_EncodeToString (md5_Sum E written) in
          if negb (String.eqb md5sum EmptyString) &&
             negb (isMD5SumEqual E md5sum dataMd5sum)
          then (Err (BadDigest md5sum dataMd5sum), withTree w1 (tree w))
          else (Ok tt, withTree w1
                  (<[resolve fileName := RegularFile written (now w)]> (tree w)))
      end
  end.
Proof.
  unfold safeWriteFile. rewrite io_bind_run.
  destruct (safe.CreateFileWithSuffix fileName "-" w) as [[f|e] w1] eqn:Hc;
    [|reflexivity].
  apply CreateFileWithSuffix_Ok in Hc as (Hfresh & Htarget & _ & Hnow & Ht).
  rewrite io_bind_run, (copy_into_fresh f data size w1 (tree w))
    by (by rewrite Hnow).
  destruct (streamed data size) as [written [e|]]; cbn [fst].
  - rewrite io_bind_run. unfold ignore, safe.CloseAndRemove, fail. cbn.
    by rewrite delete_insert_id.
  - cbv zeta.
    destruct (negb (String.eqb md5sum EmptyString) && negb (isMD5SumEqual E md5sum _)).
    + rewrite io_bind_run. unfold ignore, safe.CloseAndRemove, fail. cbn.
      by rewrite delete_insert_id.
    + rewrite io_bind_run. unfold ignore, safe.Close. cbn.
      rewrite lookup_insert_eq. cbn.
      by rewrite delete_insert_id, Htarget, Hnow.
Qed.

End SafeWriteFacts.






(** ** The multipart backend *)

(** One step of a run that is known to succeed. *)
Ltac io_step H :=
  lazymatch type of H with
  | (_ ≫= _) _ = (Ok _, _) =>
      let a := fresh "a" in
      let w := fresh "w" in
      let Hm := fresh "Hm" in
      apply io_bind_Ok in H as (a & w & Hm & H)
  | (if ?b then _ else _) _ = (Ok _, _) =>
      let Hb := fresh "Hb" in
      destruct b eqn:Hb; [try discriminate H|try discriminate H]
  | (match ?r with Ok _ => _ | Err _ => _ end) _ = (Ok _, _) =>
      let Hr := fresh "Hr" in
      destruct r eqn:Hr; [try discriminate H|try discriminate H]
  | (match ?r with Ok _ => _ | Err _ => _ end) = (Ok _, _) =>
      let Hr := fresh "Hr" in
      destruct r eqn:Hr; [try discriminate H|try discriminate H]
  end.

Section BackendFacts.

Context (E : Env).

Lemma isFileExist_run (filename : string) (w : world) :
  isFileExist filename w =
  (Ok match lookupNode (tree w) (resolve filename) with
      | Some (RegularFile _ _) => true
      | _ => false
      end, w).
Proof.
  unfold isFileExist, os_Lstat, try. rewrite io_bind_run.
  destruct (lookupNode (tree w) (resolve filename)) as [[|]|]; reflexivity.
Qed.

Lemma readonly_ret {A : Type} (a : A) : readonly (mret a).
Proof. by intros w r w' [= _ <-]. Qed.

Lemma readonly_fail {A : Type} (e : error) : readonly (@fail A e).
Proof. by intros w r w' [= _ <-]. Qed.

Lemma readonly_bind {A B : Type} (m : io A) (f : A → io B) :
  readonly m → (∀ a, readonly (f a)) → readonly (m ≫= f).
Proof.
  intros Hm Hf w r w'. rewrite io_bind_run.
  destruct (m w) as [[a|e] w1] eqn:H; apply Hm in H as ->.
  - apply Hf.
  - by intros [= _ <-].
Qed.

Lemma readonly_if {A : Type} (b : bool) (m1 m2 : io A) :
  readonly m1 → readonly m2 → readonly (if b then m1 else m2).
Proof. by destruct b. Qed.

Lemma readonly_try {A : Type} (m : io A) : readonly m → readonly (try m).
Proof.
  intros Hm w r w'. unfold try.
  destruct (m w) as [a w1] eqn:H; apply Hm in H as ->. by intros [= _ <-].
Qed.

Lemma readonly_getTree : readonly getTree.
Proof. by intros w r w' [= _ <-]. Qed.

Lemma readonly_isDirExist (dirname : string) : readonly (isDirExist dirname).
Proof. intros w r w'. unfold isDirExist. intros H. repeat case_match; by simplify_eq. Qed.

Lemma readonly_isFileExist (filename : string) : readonly (isFileExist filename).
Proof. intros w r w'. rewrite isFileExist_run. by intros [= _ <-]. Qed.

Lemma readonly_filteredReaddir (dirname : string) (filter : DirEntry.t → bool)
    (followDirs : bool) :
  readonly (filteredReaddir dirname filter followDirs).
Proof.
  intros w r w'. unfold filteredReaddir. intros H. repeat case_match; by simplify_eq.
Qed.

Lemma readonly_checkBucketArg (fs : Filesystem) (bucket : string) :
  readonly (checkBucketArg E fs bucket).
Proof.
  unfold checkBucketArg. apply readonly_if; [apply readonly_fail|].
  apply readonly_bind; [apply readonly_getTree|intros t].
  apply readonly_bind; [apply readonly_isDirExist|intros status].
  apply readonly_if; [apply readonly_fail|apply readonly_ret].
Qed.

Lemma readonly_checkMultipartArgs (fs : Filesystem) (bucket object : string) :
  readonly (checkMultipartArgs E fs bucket object).
Proof.
  unfold checkMultipartArgs.
  apply readonly_bind; [apply readonly_checkBucketArg|intros b].
  apply readonly_if; [apply readonly_fail|apply readonly_ret].
Qed.

End BackendFacts.



(** ** Listing the parts *)

Lemma partsLoop_run (entries : list DirEntry.t) (i maxParts : Z)
    (parts : list partInfo.t) :
  i ≤ maxParts →
  partsLoop i maxParts entries parts =
  (bool_decide (maxParts - i < Z.of_nat (length entries)),
   parts ++ map partOf (take (Z.to_nat (maxParts - i)) entries)).
Proof.
  revert i parts. induction entries as [|entry rest IH]; intros i parts Hi;
    cbn [partsLoop].
  - rewrite take_nil, app_nil_r. rewrite bool_decide_eq_false_2; [done|cbn; lia].
  - destruct (Z.eqb_spec i maxParts) as [->|Hne].
    + rewrite Z.sub_diag. cbn [Z.to_nat take map]. rewrite app_nil_r.
      rewrite bool_decide_eq_true_2; [done|cbn [length]; lia].
    + rewrite IH by lia.
      replace (Z.to_nat (maxParts - i)) with (S (Z.to_nat (maxParts - (i + 1)))) by lia.
      cbn [take map]. rewrite <- app_assoc. cbn [app]. f_equal.
      apply bool_decide_ext. cbn [length]. lia.
Qed.

Lemma partFilter_partNumber (uploadID : string) (partNumberMarker : Z)
    (entry : DirEntry.t) :
  partFilter uploadID partNumberMarker entry = true →
  1 ≤ partInfo.PartNumber (partOf entry) ≤ 10000 ∧
  partNumberMarker < partInfo.PartNumber (partOf entry).
Proof.
  unfold partFilter, partOf. cbn [partInfo.PartNumber].
  destruct (strings_Split (DirEntry.Name entry) ".") as [|t0 [|t1 [|t2 [|? ?]]]];
    try discriminate.
  cbn [nth]. destruct (String.eqb t0 uploadID); [|discriminate].
  destruct (strconv_Atoi t1) as [n|]; [|discriminate]. cbn.
  intros H. apply andb_true_iff in H as [H H3]. apply andb_true_iff in H as [H1 H2].
  apply Z.leb_le in H1, H2. apply Z.ltb_lt in H3. lia.
Qed.

Lemma filteredReaddir_Ok (dirname : string) (filter : DirEntry.t → bool)
    (followDirs : bool) (w w' : world) (entries : list DirEntry.t) :
  filteredReaddir dirname filter followDirs w = (Ok entries, w') →
  Forall (λ entry, filter entry = true) entries.
Proof.
  unfold filteredReaddir. intros H. repeat case_match; simplify_eq.
  rewrite merge_sort_Permutation. apply Forall_forall. intros entry Hin.
  apply list_elem_of_In, filter_In in Hin. tauto.
Qed.

(** C8: whenever [ListObjectParts] answers a truncated result, the
    [NextPartNumberMarker] it returns is 0, while the last part it emitted
    has a part number of 1 or more; the result is truncated exactly when
    more entries matched than [MaxParts]. *)
Theorem ListObjectParts_truncated_marker (E : Env) (fs : Filesystem)
    (bucket object uploadID : string) (partNumberMarker maxParts : Z)
    (w w' : world) (info : ListPartsInfo.t) :
  ListObjectParts E fs bucket object uploadID partNumberMarker maxParts w = (Ok info, w') →
  ListPartsInfo.IsTruncated info = true →
  ListPartsInfo.NextPartNumberMarker info = 0
  ∧ Z.of_nat (length (ListPartsInfo.Parts info)) = ListPartsInfo.MaxParts info
  ∧ ∃ lastPart, last (ListPartsInfo.Parts info) = Some lastPart ∧
      1 ≤ partInfo.PartNumber lastPart ∧
      partInfo.PartNumber lastPart ≠ ListPartsInfo.NextPartNumberMarker info.
Proof.
  intros H Htr. unfold ListObjectParts in H.
  io_step H. io_step H. io_step H. io_step H.
  apply filteredReaddir_Ok in Hm1 as Hall.
  set (limit := if (maxParts <=? 0) || (1000 <? maxParts) then 1000 else maxParts) in H.
  assert (Hlimit : 1 ≤ limit).
  { unfold limit. destruct (Z.leb_spec maxParts 0), (Z.ltb_spec 1000 maxParts); cbn; lia. }
  rewrite partsLoop_run in H by lia. cbn [app] in H.
  injection H as <- _. cbn in Htr |- *.
  apply bool_decide_eq_true_1 in Htr. rewrite Z.sub_0_r in Htr |- *.
  split; [by rewrite bool_decide_eq_true_2 by lia|].
  split; [rewrite length_map, length_take; lia|].
  destruct (a1 !! (Z.to_nat limit - 1)%nat) as [entry|] eqn:Hentry;
    [|apply lookup_ge_None in Hentry; lia].
  exists (partOf entry).
  assert (Hlast : last (map partOf (take (Z.to_nat limit) a1)) = Some (partOf entry)).
  { rewrite last_lookup, length_map, length_take.
    replace (Init.Nat.pred (Z.to_nat limit `min` length a1)) with (Z.to_nat limit - 1)%nat
      by lia.
    rewrite list_lookup_fmap, lookup_take_lt by lia. by rewrite Hentry. }
  split; [exact Hlast|].
  rewrite Forall_forall in Hall.
  destruct (partFilter_partNumber uploadID partNumberMarker entry) as [Hpn _];
    [apply Hall; by eapply list_elem_of_lookup_2|].
  rewrite bool_decide_eq_true_2 by lia. lia.
Qed.

Lemma ListObjectParts_truncated_marker_witness :
  ∃ info w',
    ListObjectParts demoEnv demoFs "bkt" "big" "u1" 0 1 demoWorld = (Ok info, w') ∧
    ListPartsInfo.IsTruncated info = true ∧
    ListPartsInfo.NextPartNumberMarker info = 0 ∧
    (partInfo.PartNumber <$> last (ListPartsInfo.Parts info)) = Some 1.
Proof.
  destruct (ListObjectParts demoEnv demoFs "bkt" "big" "u1" 0 1 demoWorld)
    as [[info|e] w'] eqn:H; [|vm_compute in H; discriminate].
  exists info, w'.
  assert (Htr : ListPartsInfo.IsTruncated info = true)
    by (vm_compute in H; by injection H as <- _).
  destruct (ListObjectParts_truncated_marker demoEnv demoFs "bkt" "big" "u1" 0 1
              demoWorld w' info H Htr) as (Hm & _ & _).
  repeat split; [exact Htr|exact Hm|].
  vm_compute in H. by injection H as <- _.
Defined.

(** ** Completing an upload *)

Lemma hexDigit_lowercase (n : N) : hexDigit n ∈ hextable.
Proof.
  unfold hexDigit. apply list_elem_of_In.
  destruct (nth_in_or_default (N.to_nat n) hextable "0"%char) as [Hin| ->];
    [exact Hin|]. vm_compute. tauto.
Qed.

(** The hexadecimal form [hex.EncodeToString] gives is in lowercase. *)
Lemma hex_EncodeToString_lowercase (src : list byte) :
  Forall (λ c, c ∈ hextable) (list_ascii_of_string (hex_EncodeToString src)).
Proof.
  induction src as [|b r IH]; cbn [hex_EncodeToString list_ascii_of_string].
  - constructor.
  - constructor; [apply hexDigit_lowercase|].
    constructor; [apply hexDigit_lowercase|exact IH].
Qed.

Section CompleteFacts.

Context (E : Env).

Lemma decodeAll_Ok (md5Strs : list string) (acc finalMD5Bytes : list byte) :
  decodeAll md5Strs acc = Ok finalMD5Bytes →
  ∃ decoded : list (list byte),
    Forall2 (λ md5Str md5Bytes, hex_DecodeString md5Str = Some md5Bytes)
      md5Strs decoded ∧
    finalMD5Bytes = acc ++ concat decoded.
Proof.
  revert acc. induction md5Strs as [|md5Str rest IH]; intros acc; cbn [decodeAll].
  - intros [= <-]. exists []. split; [constructor|]. by rewrite app_nil_r.
  - destruct (hex_DecodeString md5Str) as [md5Bytes|] eqn:Hd; [|discriminate].
    intros H. apply IH in H as (decoded & Hall & ->).
    exists (md5Bytes :: decoded). split; [by constructor|].
    cbn [concat]. by rewrite app_assoc.
Qed.

Lemma collectMD5Sums_Ok (metaObjectDir uploadID : string)
    (parts : list completePart.t) (acc md5Sums : list string) (w w' : world) :
  collectMD5Sums metaObjectDir uploadID parts acc w = (Ok md5Sums, w') →
  md5Sums = acc ++ map (λ part, strings_Trim (completePart.ETag part) quoteString) parts.
Proof.
  revert acc w. induction parts as [|part rest IH]; intros acc w;
    cbn [collectMD5Sums].
  - intros [= <- _]. by rewrite app_nil_r.
  - intros H. io_step H. io_step H. apply IH in H as ->.
    cbn [map]. by rewrite <- app_assoc.
Qed.

End CompleteFacts.

(** C2: the object a successful [CompleteMultipartUpload] returns carries as
    its MD5Sum the lowercase hexadecimal MD5 of the concatenation, in the
    order the client gave the parts, of the bytes each part's ETag decodes
    to once its quotes are trimmed, followed by a dash and the number of
    parts. *)
Theorem CompleteMultipartUpload_s3_md5 (E : Env) (fs : Filesystem)
    (bucket object uploadID : string) (parts : list completePart.t)
    (w w' : world) (info : ObjectInfo.t) :
  CompleteMultipartUpload E fs bucket object uploadID parts w = (Ok info, w') →
  ∃ decoded : list (list byte),
    Forall2 (λ part md5Bytes,
               hex_DecodeString (strings_Trim (completePart.ETag part) quoteString)
               = Some md5Bytes) parts decoded
    ∧ ObjectInfo.MD5Sum info =
        hex_EncodeToString (md5_Sum E (concat decoded)) +:+ "-" +:+
        strconv_Itoa (Z.of_nat (length parts))
    ∧ Forall (λ c, c ∈ hextable)
        (list_ascii_of_string (hex_EncodeToString (md5_Sum E (concat decoded)))).
Proof.
  intros H. unfold CompleteMultipartUpload in H.
  io_step H. io_step H. io_step H. io_step H. io_step H.
  apply collectMD5Sums_Ok in Hm2 as Hsums. cbn [app] in Hsums.
  destruct (makeS3MD5 E a2) as [s3MD5|e] eqn:Hmd5; [|discriminate H].
  do 5 io_step H.
  destruct a7 as [?|e]; [|by apply io_bind_fail_Ok in H].
  io_step H.
  destruct a8 as [?|e]; [|by apply io_bind_fail_Ok in H].
  io_step H.
  injection H as <- _. cbn [ObjectInfo.MD5Sum].
  unfold makeS3MD5 in Hmd5.
  destruct (decodeAll a2 []) as [finalMD5Bytes|e] eqn:Hdec; [|discriminate].
  injection Hmd5 as <-.
  apply decodeAll_Ok in Hdec as (decoded & Hall & ->). cbn [app].
  exists decoded. subst a2. rewrite length_map.
  split; [|split; [reflexivity|apply hex_EncodeToString_lowercase]].
  clear -Hall. revert decoded Hall.
  induction parts as [|part rest IH]; intros decoded Hall; inversion Hall; subst;
    constructor; auto.
Qed.

Lemma CompleteMultipartUpload_s3_md5_witness :
  ∃ info w',
    CompleteMultipartUpload demoEnv demoFs "bkt" "big" "u1"
      [ {| completePart.PartNumber := 1; completePart.ETag := "8b" |};
        {| completePart.PartNumber := 2;
           completePart.ETag := quoteString +:+ "73" +:+ quoteString |} ]
      demoWorld = (Ok info, w') ∧
    ObjectInfo.MD5Sum info =
      hex_EncodeToString (demoDigest (bytesOf (String "139"%char (String "115"%char EmptyString))))
      +:+ "-2" ∧
    tree w' !! ["data"; "bkt"; "big"] = Some (RegularFile (bytesOf "helloworld") 100).
Proof.
  destruct (CompleteMultipartUpload demoEnv demoFs "bkt" "big" "u1" _ demoWorld)
    as [[info|e] w'] eqn:H; [|vm_compute in H; discriminate].
  exists info, w'. split; [reflexivity|].
  destruct (CompleteMultipartUpload_s3_md5 _ _ _ _ _ _ _ _ _ H)
    as (decoded & Hall & -> & _).
  split.
  - inversion Hall as [|? b1 ? d1 H1 Hall1]; subst.
    inversion Hall1 as [|? b2 ? d2 H2 Hall2]; subst.
    inversion Hall2; subst.
    vm_compute in H1, H2. injection H1 as <-. injection H2 as <-.
    vm_compute. reflexivity.
  - vm_compute in H. by injection H as _ <-.
Defined.

(** ** Clean paths *)

Lemma isElement_inv (name : string) :
  isElement name = true →
  name ≠ EmptyString ∧ name ≠ "." ∧ name ≠ ".." ∧
  forallb (λ c, negb (Ascii.eqb c slash)) (list_ascii_of_string name) = true.
Proof.
  unfold isElement. rewrite !andb_true_iff, !negb_true_iff.
  intros [[[H1 H2] H3] H4].
  apply String.eqb_neq in H1, H2, H3. auto.
Qed.

Lemma strings_Split_nonempty (s : string) (sep : ascii) : strings_Split s sep ≠ [].
Proof.
  destruct s as [|c r]; cbn [strings_Split]; [discriminate|].
  destruct (Ascii.eqb c sep); [discriminate|].
  destruct (strings_Split r sep); discriminate.
Qed.

Lemma append_empty (s : string) : EmptyString +:+ s = s.
Proof. reflexivity. Qed.

Lemma append_cons (c : ascii) (a s : string) :
  String c a +:+ s = String c (a +:+ s).
Proof. reflexivity. Qed.

Lemma strings_Split_app (a b : string) (sep : ascii) :
  strings_Split (a +:+ String sep b) sep = strings_Split a sep ++ strings_Split b sep.
Proof.
  induction a as [|c a IH]; rewrite ?append_empty, ?append_cons;
    cbn [strings_Split].
  - by rewrite Ascii.eqb_refl.
  - destruct (Ascii.eqb c sep); [by rewrite IH|].
    rewrite IH.
    pose proof (strings_Split_nonempty a sep).
    destruct (strings_Split a sep); [done|reflexivity].
Qed.

Lemma strings_Split_free (s : string) (sep : ascii) :
  forallb (λ c, negb (Ascii.eqb c sep)) (list_ascii_of_string s) = true →
  strings_Split s sep = [s].
Proof.
  induction s as [|c r IH]; cbn [list_ascii_of_string forallb strings_Split];
    [done|].
  rewrite andb_true_iff, negb_true_iff. intros [Hc Hr].
  by rewrite Hc, (IH Hr).
Qed.

Lemma strings_Split_element (name : string) :
  isElement name = true → strings_Split name slash = [name].
Proof.
  intros H. apply strings_Split_free.
  by apply isElement_inv in H as (_ & _ & _ & H).
Qed.

Lemma concat_cons (sep x : string) (xs : list string) :
  xs ≠ [] → String.concat sep (x :: xs) = x +:+ sep +:+ String.concat sep xs.
Proof. by destruct xs. Qed.

Lemma strings_Split_concat (elems : list string) :
  Forall (λ e, isElement e = true) elems → elems ≠ [] →
  strings_Split (String.concat "/" elems) slash = elems.
Proof.
  induction 1 as [|e es He Hes IH]; [done|]. intros _.
  destruct es as [|e' es'].
  - by apply strings_Split_element.
  - rewrite concat_cons by done.
    change (e +:+ "/" +:+ String.concat "/" (e' :: es'))
      with (e +:+ String slash (String.concat "/" (e' :: es'))).
    rewrite strings_Split_app, strings_Split_element, IH by done. done.
Qed.

Lemma cleanStep_element (rooted : bool) (acc : list string) (e : string) :
  isElement e = true → cleanStep rooted acc e = e :: acc.
Proof.
  intros H. apply isElement_inv in H as (H1 & H2 & H3 & _).
  unfold cleanStep.
  apply String.eqb_neq in H1, H2, H3. by rewrite H1, H2, H3.
Qed.

Lemma fold_cleanStep_elements (rooted : bool) (elems acc : list string) :
  Forall (λ e, isElement e = true) elems →
  fold_left (cleanStep rooted) elems acc = rev elems ++ acc.
Proof.
  intros H. revert acc. induction H as [|e es He _ IH]; intros acc; [done|].
  cbn [fold_left rev]. rewrite cleanStep_element, IH by done.
  by rewrite <- app_assoc.
Qed.

(** The elements of a path that starts at an absolute path and goes on
    through elements. *)
Lemma cleanElems_absolute_app (elems more : list string) (tail : string) :
  Forall (λ e, isElement e = true) elems →
  Forall (λ e, isElement e = true) more →
  strings_Split tail slash = more ∨ (tail = EmptyString ∧ more = []) →
  cleanElems true (absolute elems +:+ String slash tail) = elems ++ more.
Proof.
  intros He Hm Ht. unfold cleanElems, absolute.
  rewrite strings_Split_app, fold_left_app.
  assert (Hhead : fold_left (cleanStep true)
            (EmptyString :: strings_Split (String.concat "/" elems) slash) [] = rev elems).
  { cbn [fold_left]. change (cleanStep true [] EmptyString) with (@nil string).
    destruct elems as [|e es]; [reflexivity|].
    rewrite strings_Split_concat, fold_cleanStep_elements by done.
    by rewrite app_nil_r. }
  change (strings_Split ("/" +:+ String.concat "/" elems) slash)
    with (EmptyString :: strings_Split (String.concat "/" elems) slash).
  rewrite Hhead.
  destruct Ht as [Ht|[-> ->]].
  - rewrite Ht, fold_cleanStep_elements by done.
    by rewrite rev_app_distr, !rev_involutive.
  - cbn. by rewrite rev_involutive, app_nil_r.
Qed.

Lemma resolve_absolute (elems : list string) :
  Forall (λ e, isElement e = true) elems → resolve (absolute elems) = elems.
Proof.
  intros He. unfold resolve, cleanElems, absolute.
  change (strings_Split ("/" +:+ String.concat "/" elems) slash)
    with (EmptyString :: strings_Split (String.concat "/" elems) slash).
  cbn [fold_left]. change (cleanStep true [] EmptyString) with (@nil string).
  destruct elems as [|e es]; [reflexivity|].
  rewrite strings_Split_concat, fold_cleanStep_elements by done.
  by rewrite app_nil_r, rev_involutive.
Qed.

Lemma filepath_Clean_rooted (tail : string) :
  filepath_Clean (String slash tail) =
  absolute (cleanElems true (String slash tail)).
Proof.
  unfold filepath_Clean, strings_HasPrefix. cbn [String.prefix].
  destruct (ascii_dec "/" slash); [|done].
  by destruct tail.
Qed.

(** [filepath.Join] of an absolute path and further elements. *)
Lemma filepath_Clean_absolute_app (elems more : list string) :
  Forall (λ e, isElement e = true) elems →
  Forall (λ e, isElement e = true) more →
  more ≠ [] →
  filepath_Clean (absolute elems +:+ "/" +:+ String.concat "/" more) =
  absolute (elems ++ more).
Proof.
  intros He Hm Hne.
  change (absolute elems +:+ "/" +:+ String.concat "/" more)
    with (String slash (String.concat "/" elems +:+ String slash (String.concat "/" more))).
  rewrite filepath_Clean_rooted. f_equal.
  change (String slash (String.concat "/" elems +:+ String slash (String.concat "/" more)))
    with (absolute elems +:+ String slash (String.concat "/" more)).
  apply cleanElems_absolute_app; [done|done|].
  left. by apply strings_Split_concat.
Qed.

Lemma filepath_Join_absolute (elems more : list string) :
  Forall (λ e, isElement e = true) elems →
  Forall (λ e, isElement e = true) more →
  more ≠ [] →
  filepath_Join [absolute elems; String.concat "/" more] = absolute (elems ++ more).
Proof.
  intros. cbn [filepath_Join String.concat]. unfold absolute at 1.
  rewrite append_cons. cbn [String.eqb]. by apply filepath_Clean_absolute_app.
Qed.

Lemma filepath_Join_metaObjectDir (root : list string) (bucket : string)
    (objectElems : list string) :
  Forall (λ e, isElement e = true) root →
  isElement bucket = true →
  Forall (λ e, isElement e = true) objectElems →
  objectElems ≠ [] →
  filepath_Join [absolute root; configDir; bucket; String.concat "/" objectElems] =
  absolute (root ++ [configDir; bucket] ++ objectElems).
Proof.
  intros Hr Hb Ho Hne.
  rewrite <- filepath_Clean_absolute_app;
    [|done|repeat constructor; done|done].
  cbn [app]. rewrite !concat_cons by done.
  cbn [filepath_Join String.concat]. unfold absolute at 1.
  rewrite append_cons. reflexivity.
Qed.

Lemma filepath_Join_level (root : list string) (bucket : string) :
  Forall (λ e, isElement e = true) root →
  isElement bucket = true →
  filepath_Join [absolute root; configDir; bucket] =
  absolute (root ++ [configDir; bucket]).
Proof.
  intros Hr Hb.
  rewrite <- filepath_Clean_absolute_app;
    [|done|repeat constructor; done|done].
  cbn [filepath_Join String.concat]. unfold absolute at 1.
  rewrite append_cons. reflexivity.
Qed.

Lemma filepath_Join_entry (dir : list string) (name : string) :
  Forall (λ e, isElement e = true) dir →
  isElement name = true →
  filepath_Join [absolute dir; name] = absolute (dir ++ [name]).
Proof.
  intros Hd Hn. apply (filepath_Join_absolute dir [name]); [done| |done].
  by constructor.
Qed.

(** [filepath.Dir] of a clean absolute path drops its last element. *)
Lemma filepath_Dir_absolute (elems : list string) :
  Forall (λ e, isElement e = true) elems →
  filepath_Dir (absolute elems) = absolute (removelast elems).
Proof.
  intros He. unfold filepath_Dir, uptoLastSlash, absolute at 1.
  change (strings_Split ("/" +:+ String.concat "/" elems) slash)
    with (EmptyString :: strings_Split (String.concat "/" elems) slash).
  destruct elems as [|e es] using rev_ind; [reflexivity|clear IHes].
  rewrite strings_Split_concat by (done || by destruct es).
  rewrite removelast_last.
  change (EmptyString :: es ++ [e]) with ((EmptyString :: es) ++ [e]).
  rewrite rev_unit. cbn [rev].
  destruct (rev es ++ [EmptyString]) as [|x front] eqn:Hrev;
    [by destruct (rev es)|].
  assert (Hfront : rev (x :: front) = EmptyString :: es).
  { rewrite <- Hrev, rev_unit. by rewrite rev_involutive. }
  rewrite Hfront. apply Forall_app in He as [Hes _].
  destruct es as [|e1 es1]; [reflexivity|].
  rewrite concat_cons by done. rewrite append_empty.
  change ("/" +:+ String.concat "/" (e1 :: es1)) with (absolute (e1 :: es1)).
  change (absolute (e1 :: es1) +:+ "/")
    with (String slash (String.concat "/" (e1 :: es1) +:+ String slash EmptyString)).
  rewrite filepath_Clean_rooted. f_equal.
  change (String slash (String.concat "/" (e1 :: es1) +:+ String slash EmptyString))
    with (absolute (e1 :: es1) +:+ String slash EmptyString).
  rewrite (cleanElems_absolute_app (e1 :: es1) []); [by rewrite app_nil_r|done|done|].
    by right.
Qed.

(** *** The byte-wise order on paths *)

Lemma ascii_compare_refl (c : ascii) : Ascii.compare c c = Eq.
Proof. unfold Ascii.compare. apply N.compare_refl. Qed.

Lemma compare_append (a b : string) :
  String.compare a (a +:+ b) = if String.eqb b EmptyString then Eq else Lt.
Proof.
  induction a as [|c a IH]; rewrite ?append_empty, ?append_cons.
  - by destruct b.
  - cbn [String.compare]. by rewrite ascii_compare_refl.
Qed.

(** A path is not above the paths it is a prefix of, as bytes. *)
Lemma ltb_append_false (a b : string) : String.ltb (a +:+ b) a = false.
Proof.
  unfold String.ltb. rewrite String.compare_antisym, compare_append.
  by destruct (String.eqb b EmptyString).
Qed.

Lemma append_assoc (a b c : string) : (a +:+ b) +:+ c = a +:+ (b +:+ c).
Proof.
  induction a as [|x a IH]; rewrite ?append_empty, ?append_cons; [done|].
  by rewrite IH.
Qed.

Lemma concat_app_suffix (front more : list string) :
  ∃ rest, String.concat "/" (front ++ more) = String.concat "/" front +:+ rest.
Proof.
  induction front as [|e front IH].
  - exists (String.concat "/" more). by rewrite append_empty.
  - destruct IH as [rest IH].
    destruct front as [|e' front'].
    + destruct more as [|m more'].
      * exists EmptyString. cbn. clear. induction e; [done|].
        rewrite append_cons. by f_equal.
      * exists ("/" +:+ String.concat "/" (m :: more')).
        cbn [app]. by rewrite concat_cons.
    + exists rest. cbn [app] in *.
      rewrite (concat_cons "/" e (e' :: front' ++ more)) by done.
      rewrite (concat_cons "/" e (e' :: front')) by done.
      rewrite IH. by rewrite !append_assoc.
Qed.

Lemma absolute_app_suffix (front more : list string) :
  ∃ rest, absolute (front ++ more) = absolute front +:+ rest.
Proof.
  destruct (concat_app_suffix front more) as [rest H].
  exists rest. unfold absolute. by rewrite H, append_assoc.
Qed.

(** The loop of [removeFileTree] goes on only strictly below [level]. *)
Lemma ltb_absolute_prefix (level dir : list string) :
  dir `prefix_of` level →
  String.ltb (absolute level) (absolute dir) = false.
Proof.
  intros [more ->].
  destruct (absolute_app_suffix dir more) as [rest ->].
  apply ltb_append_false.
Qed.

(** *** Names of upload IDs *)

Lemma prefix_cons_inv (c : ascii) (p s : string) :
  String.prefix (String c p) s = true →
  ∃ s', s = String c s' ∧ String.prefix p s' = true.
Proof.
  destruct s as [|d s']; cbn [String.prefix]; [discriminate|].
  destruct (ascii_dec c d) as [->|]; [eauto|discriminate].
Qed.

(** Two upload IDs without a dot that both begin one name, each followed by
    a dot, are the same. *)
Lemma uploadID_prefix_unique (u u' name : string) :
  hasNoDot u = true → hasNoDot u' = true →
  strings_HasPrefix name (u +:+ ".") = true →
  strings_HasPrefix name (u' +:+ ".") = true →
  u = u'.
Proof.
  unfold strings_HasPrefix, hasNoDot.
  revert u' name. induction u as [|c u IH]; intros u' name Hu Hu' H H'.
  - destruct u' as [|c' u'']; [done|].
    rewrite append_empty in H. rewrite append_cons in H'.
    apply prefix_cons_inv in H as (s1 & -> & _).
    apply prefix_cons_inv in H' as (s2 & [= <- _] & _).
    cbn in Hu'. rewrite ?Ascii.eqb_refl in Hu'. discriminate.
  - rewrite append_cons in H.
    apply prefix_cons_inv in H as (s1 & -> & H).
    destruct u' as [|c' u''].
    + rewrite append_empty in H'.
      apply prefix_cons_inv in H' as (s2 & [= -> _] & _).
      cbn in Hu. rewrite ?Ascii.eqb_refl in Hu. discriminate.
    + rewrite append_cons in H'.
      apply prefix_cons_inv in H' as (s2 & [= <- <-] & H').
      cbn [list_ascii_of_string forallb] in Hu, Hu'.
      apply andb_true_iff in Hu as [_ Hu]. apply andb_true_iff in Hu' as [_ Hu'].
      f_equal. by apply (IH u'' s1).
Qed.

(** ** The tree under removals *)

Lemma childOf_Some (d k : list string) (name : string) :
  childOf d k = Some name ↔ k = d ++ [name].
Proof.
  unfold childOf. split.
  - destruct (rev k) as [|n front] eqn:Hrev; [discriminate|].
    case_bool_decide as Hd; [|discriminate]. intros [= ->].
    rewrite <- (rev_involutive k), Hrev. cbn [rev]. by rewrite Hd.
  - intros ->. rewrite rev_unit, rev_involutive.
    by rewrite bool_decide_eq_true_2.
Qed.

Lemma entryOf_Name (name : string) (n : node) : DirEntry.Name (entryOf name n) = name.
Proof. by destruct n. Qed.

Lemma readdir_elem (t : gmap (list string) node) (d : list string) (entry : DirEntry.t) :
  entry ∈ readdir t d → is_Some (t !! (d ++ [DirEntry.Name entry])).
Proof.
  unfold readdir. rewrite list_elem_of_omap. intros ([k n] & Hin & Hf).
  apply elem_of_map_to_list in Hin. cbn in Hf.
  destruct (childOf d k) as [name|] eqn:Hc; [|discriminate].
  injection Hf as <-. apply childOf_Some in Hc as ->.
  rewrite entryOf_Name. eauto.
Qed.

Lemma readdir_nil (t : gmap (list string) node) (d : list string) (name : string) :
  readdir t d = [] → t !! (d ++ [name]) = None.
Proof.
  intros Hnil. destruct (t !! (d ++ [name])) as [n|] eqn:Hl; [|done].
  assert (Hin : entryOf name n ∈ readdir t d).
  { unfold readdir. apply list_elem_of_omap. exists (d ++ [name], n). split.
    - by apply elem_of_map_to_list.
    - cbn. by rewrite (proj2 (childOf_Some d (d ++ [name]) name) eq_refl). }
  rewrite Hnil in Hin. by apply not_elem_of_nil in Hin.
Qed.

Lemma wellFormed_lookup (t : gmap (list string) node) (k : list string) :
  wellFormed t = true → is_Some (t !! k) → Forall (λ e, isElement e = true) k.
Proof.
  unfold wellFormed. rewrite forallb_forall. intros Hwf [n Hn].
  assert (Hk : forallb isElement k = true).
  { apply (Hwf (k, n)). apply list_elem_of_In. by apply elem_of_map_to_list. }
  rewrite forallb_forall in Hk.
  apply Forall_forall. intros e He. apply Hk. by apply list_elem_of_In.
Qed.

Lemma onlyRemoved_refl (t0 : gmap (list string) node) (allowed : list string → Prop) :
  onlyRemoved t0 t0 allowed.
Proof. intros k. by left. Qed.

Lemma onlyRemoved_delete (t0 t : gmap (list string) node)
    (allowed : list string → Prop) (k : list string) (n : node) :
  onlyRemoved t0 t allowed →
  t !! k = Some n → allowed k →
  (n = Directory → readdir t k = []) →
  onlyRemoved t0 (delete k t) allowed.
Proof.
  intros Hinv Hk Hallowed Hempty k'.
  destruct (decide (k' = k)) as [->|Hne].
  - right. rewrite lookup_delete_eq. split; [done|split; [done|]].
    intros Hdir name.
    destruct (Hinv k) as [Heq|[Hnone _]]; [|congruence].
    apply lookup_delete_None. right. apply readdir_nil, Hempty. congruence.
  - rewrite lookup_delete_ne by done.
    destruct (Hinv k') as [Heq|(Hnone & Ha & He)]; [by left|right].
    split; [done|split; [done|]].
    intros Hdir name. apply lookup_delete_None. right. by apply He.
Qed.

Lemma os_Remove_onlyRemoved (t0 : gmap (list string) node)
    (allowed : list string → Prop) (name : string) (w w' : world) (r : result unit) :
  onlyRemoved t0 (tree w) allowed →
  (is_Some (tree w !! resolve name) → allowed (resolve name)) →
  os_Remove name w = (r, w') →
  onlyRemoved t0 (tree w') allowed.
Proof.
  intros Hinv Hallowed. unfold os_Remove.
  destruct (resolve name) as [|e k] eqn:Hk; [by intros [= _ <-]|].
  destruct (tree w !! (e :: k)) as [[data modTime|]|] eqn:Hl.
  - intros [= _ <-]. cbn. eapply onlyRemoved_delete; eauto. discriminate.
  - destruct (readdir (tree w) (e :: k)) eqn:Hrd; intros [= _ <-]; [|done].
    cbn. eapply onlyRemoved_delete; eauto.
  - by intros [= _ <-].
Qed.

Lemma size_delete_Some (t : gmap (list string) node) (k : list string) (n : node) :
  t !! k = Some n → S (size (delete k t)) = size t.
Proof.
  intros Hk. rewrite <- (insert_delete_id t k n Hk) at 2.
  by rewrite map_size_insert_None by apply lookup_delete_eq.
Qed.

Lemma os_Remove_size (name : string) (w w' : world) :
  os_Remove name w = (Ok tt, w') → S (size (tree w')) = size (tree w).
Proof.
  unfold os_Remove.
  destruct (resolve name) as [|e k]; [discriminate|].
  destruct (tree w !! (e :: k)) as [[data modTime|]|] eqn:Hl.
  - intros [= <-]. cbn. by eapply size_delete_Some.
  - destruct (readdir (tree w) (e :: k)); intros [= <-]. cbn.
    by eapply size_delete_Some.
  - discriminate.
Qed.

Lemma os_Remove_Err (name : string) (w w' : world) (e : error) :
  os_Remove name w = (Err e, w') → e ≠ outOfRounds.
Proof.
  unfold os_Remove. intros H. repeat case_match; by simplify_eq.
Qed.

Lemma isDirEmpty_run (dirname : string) (w w' : world) (r : result bool) :
  isDirEmpty dirname w = (r, w') →
  w' = w ∧
  match r with
  | Ok status =>
      lookupNode (tree w) (resolve dirname) = Some Directory ∧
      (status = true → readdir (tree w) (resolve dirname) = [])
  | Err e => e ≠ outOfRounds
  end.
Proof.
  unfold isDirEmpty.
  destruct (lookupNode (tree w) (resolve dirname)) as [[|]|]; intros [= <- <-];
    (split; [done|]); try done.
  split; [done|]. by intros ?%bool_decide_eq_true_1.
Qed.

(** The loop of [removeFileTree] does not run out of rounds. *)
Lemma removeLoop_rounds (fuel : nat) (fileDir level : string) (w w' : world)
    (r : result unit) :
  (size (tree w) < fuel)%nat →
  removeLoop fuel fileDir level w = (r, w') →
  r ≠ Err outOfRounds.
Proof.
  revert fileDir w. induction fuel as [|fuel IH]; intros fileDir w Hsize; [lia|].
  cbn [removeLoop]. destruct (String.ltb level fileDir); [|by intros [= <- _]].
  rewrite io_bind_run.
  destruct (isDirEmpty fileDir w) as [[status|e] w1] eqn:Hd;
    apply isDirEmpty_run in Hd as [-> Hd].
  - destruct status; cbn [negb]; [|by intros [= <- _]].
    rewrite io_bind_run.
    destruct (os_Remove fileDir w) as [[[]|e] w1] eqn:Hrm.
    + apply os_Remove_size in Hrm. apply IH. lia.
    + apply os_Remove_Err in Hrm. intros [= <- _]. congruence.
  - intros [= <- _]. congruence.
Qed.

(** ** Cleaning an upload up *)

Section CleanupFacts.

Context (t0 : gmap (list string) node) (metaDir level : list string)
  (uploadID : string).

Hypothesis metaDir_elements : Forall (λ e, isElement e = true) metaDir.
Hypothesis level_below : level `prefix_of` metaDir.

Local Abbreviation allowed := (removable t0 metaDir level uploadID).

Lemma onlyRemoved_lookup (t : gmap (list string) node) (k : list string) (n : node) :
  onlyRemoved t0 t allowed → t !! k = Some n → t0 !! k = Some n.
Proof. intros Hinv Hk. destruct (Hinv k) as [Heq|[Hnone _]]; congruence. Qed.

Lemma prefix_elements (dir : list string) :
  dir `prefix_of` metaDir → Forall (λ e, isElement e = true) dir.
Proof.
  intros [more Hm]. rewrite Hm in metaDir_elements.
  by apply Forall_app in metaDir_elements as [? _].
Qed.

Lemma removelast_prefix (dir : list string) :
  dir `prefix_of` metaDir → removelast dir `prefix_of` metaDir.
Proof.
  intros Hd. etrans; [|exact Hd].
  destruct dir as [|e es] using rev_ind; [done|].
  rewrite removelast_last. by exists [e].
Qed.

(** The loop of [removeFileTree], begun at a directory from the metadir
    upwards, takes away only directories strictly below [level]. *)
Lemma removeLoop_onlyRemoved (fuel : nat) (dir : list string) (w w' : world)
    (r : result unit) :
  dir `prefix_of` metaDir →
  onlyRemoved t0 (tree w) allowed →
  removeLoop fuel (absolute dir) (absolute level) w = (r, w') →
  onlyRemoved t0 (tree w') allowed.
Proof.
  revert dir w. induction fuel as [|fuel IH]; intros dir w Hdir Hinv;
    cbn [removeLoop]; [by intros [= _ <-]|].
  destruct (String.ltb (absolute level) (absolute dir)) eqn:Hlt;
    [|by intros [= _ <-]].
  assert (Hbelow : level `prefix_of` dir ∧ level ≠ dir).
  { destruct (prefix_weak_total _ _ _ Hdir level_below) as [Hp|Hp].
    - by rewrite (ltb_absolute_prefix level dir Hp) in Hlt.
    - split; [done|]. intros ->.
      by rewrite (ltb_absolute_prefix dir dir) in Hlt. }
  rewrite io_bind_run.
  destruct (isDirEmpty (absolute dir) w) as [[status|e] w1] eqn:Hd;
    apply isDirEmpty_run in Hd as [-> Hd]; [|by intros [= _ <-]].
  destruct status; cbn [negb]; [|by intros [= _ <-]].
  destruct Hd as [Hnode _].
  rewrite resolve_absolute in Hnode by by apply prefix_elements.
  rewrite io_bind_run.
  destruct (os_Remove (absolute dir) w) as [[[]|e] w1] eqn:Hrm.
  - rewrite filepath_Dir_absolute by by apply prefix_elements.
    apply IH; [by apply removelast_prefix|].
    eapply os_Remove_onlyRemoved; [exact Hinv| |exact Hrm].
    rewrite resolve_absolute by by apply prefix_elements.
    intros [n Hn]. right.
    destruct dir as [|e es]; [by destruct Hbelow as [->%prefix_nil_inv ?]|].
    cbn [lookupNode] in Hnode.
    split; [by eapply onlyRemoved_lookup|]. destruct Hbelow; auto.
  - intros [= _ <-].
    eapply os_Remove_onlyRemoved; [exact Hinv| |exact Hrm].
    rewrite resolve_absolute by by apply prefix_elements.
    intros [n Hn]. right.
    destruct dir as [|e' es]; [by destruct Hbelow as [->%prefix_nil_inv ?]|].
    cbn [lookupNode] in Hnode.
    split; [by eapply onlyRemoved_lookup|]. destruct Hbelow; auto.
Qed.

Lemma removeFileTree_onlyRemoved (w w' : world) (r : result unit) :
  level ≠ metaDir →
  onlyRemoved t0 (tree w) allowed →
  tree w !! metaDir = Some Directory →
  removeFileTree (absolute metaDir) (absolute level) w = (r, w') →
  onlyRemoved t0 (tree w') allowed.
Proof.
  intros Hne Hinv Hdir. unfold removeFileTree. rewrite io_bind_run.
  destruct (os_Remove (absolute metaDir) w) as [[[]|e] w1] eqn:Hrm.
  - rewrite io_bind_run. cbn [getTree].
    rewrite filepath_Dir_absolute by done.
    apply removeLoop_onlyRemoved; [by apply removelast_prefix|].
    eapply os_Remove_onlyRemoved; [exact Hinv| |exact Hrm].
    rewrite resolve_absolute by done. intros _. right.
    split; [by eapply onlyRemoved_lookup|]. by repeat split.
  - intros [= _ <-].
    eapply os_Remove_onlyRemoved; [exact Hinv| |exact Hrm].
    rewrite resolve_absolute by done. intros _. right.
    split; [by eapply onlyRemoved_lookup|]. by repeat split.
Qed.

(** The loop over the names read from the metadir. *)
Lemma forEach_remove_onlyRemoved (names : list string) (w w' : world)
    (r : result unit) :
  Forall (λ name, isElement name = true ∧
                  strings_HasPrefix name (uploadID +:+ ".") = true) names →
  onlyRemoved t0 (tree w) allowed →
  forEach names (λ name, os_Remove (filepath_Join [absolute metaDir; name])) w = (r, w') →
  onlyRemoved t0 (tree w') allowed.
Proof.
  intros Hnames. revert w. induction Hnames as [|name names [Hel Hpre] _ IH];
    intros w Hinv; cbn [forEach]; [by intros [= _ <-]|].
  rewrite io_bind_run.
  destruct (os_Remove _ w) as [[[]|e] w1] eqn:Hrm.
  - apply IH. eapply os_Remove_onlyRemoved; [exact Hinv| |exact Hrm].
    intros _. rewrite filepath_Join_entry, resolve_absolute by
      (done || apply Forall_app; by repeat constructor).
    left. eauto.
  - intros [= _ <-]. eapply os_Remove_onlyRemoved; [exact Hinv| |exact Hrm].
    intros _. rewrite filepath_Join_entry, resolve_absolute by
      (done || apply Forall_app; by repeat constructor).
    left. eauto.
Qed.

End CleanupFacts.

Lemma filteredReaddirnames_Ok (dirname : string) (filter : string → bool)
    (w w' : world) (names : list string) :
  filteredReaddirnames dirname filter w = (Ok names, w') →
  w' = w ∧
  Forall (λ name, filter name = true ∧
                  is_Some (tree w !! (resolve dirname ++ [name]))) names.
Proof.
  unfold filteredReaddirnames. rewrite io_bind_run.
  destruct (filteredReaddir dirname _ false w) as [[entries|e] w1] eqn:Hrd;
    [|discriminate].
  intros [= <- <-].
  apply readonly_filteredReaddir in Hrd as Hw. split; [done|]. subst w1.
  unfold filteredReaddir in Hrd.
  destruct (lookupNode (tree w) (resolve dirname)) as [[|]|]; try discriminate.
  injection Hrd as <-.
  apply Forall_forall. intros name Hin.
  apply list_elem_of_fmap in Hin as (entry & -> & Hin).
  rewrite merge_sort_Permutation in Hin.
  apply list_elem_of_In, filter_In in Hin as [Hin Hf].
  split; [done|]. apply readdir_elem. by apply list_elem_of_In.
Qed.



(** The hypothesis on the object is needed: for an object whose name
    cleans to nothing the metadir is [<root>/.minio/<bucket>] itself, and
    the first [os.Remove] of [removeFileTree], which is not under the guard
    of the loop, takes that directory away once it is empty. *)
Example cleanupUploadID_bucket_metadir :
  filepath_Join [path demoFs; configDir; "bkt"; "."] = "/data/.minio/bkt"
  ∧ tree loneUploadWorld !! ["data"; ".minio"; "bkt"] = Some Directory
  ∧ (cleanupUploadID demoFs "bkt" "." "u3" loneUploadWorld).1 = Ok tt
  ∧ tree (cleanupUploadID demoFs "bkt" "." "u3" loneUploadWorld).2
      !! ["data"; ".minio"; "bkt"] = None.
Proof. repeat split; vm_compute; reflexivity. Qed.

(** * Further properties of the backend *)

(** ** The multipart ETag *)

Lemma hex_byte_roundtrip (b : byte) :
  match fromHexChar (hexDigit (Byte.to_N b / 16)),
        fromHexChar (hexDigit (Byte.to_N b mod 16)) with
  | Some x, Some y => Byte.of_N (16 * x + y)
  | _, _ => None
  end = Some b.
Proof. destruct b; reflexivity. Qed.

(** What [hex.EncodeToString] writes, [hex.DecodeString] reads back. *)
Lemma hex_DecodeString_EncodeToString (src : list byte) :
  hex_DecodeString (hex_EncodeToString src) = Some src.
Proof.
  induction src as [|b r IH]; [reflexivity|].
  cbn [hex_EncodeToString hex_DecodeString].
  pose proof (hex_byte_roundtrip b) as Hb.
  destruct (fromHexChar (hexDigit (Byte.to_N b / 16))) as [x|]; [|discriminate].
  destruct (fromHexChar (hexDigit (Byte.to_N b mod 16))) as [y|]; [|discriminate].
  by rewrite Hb, IH.
Qed.

Lemma decodeAll_Err (md5Strs : list string) (acc : list byte) (e : error) :
  decodeAll md5Strs acc = Err e ↔
  ∃ before md5Str after,
    md5Strs = before ++ md5Str :: after ∧
    Forall (λ s, is_Some (hex_DecodeString s)) before ∧
    hex_DecodeString md5Str = None ∧ e = hexError md5Str.
Proof.
  revert acc. induction md5Strs as [|s rest IH]; intros acc; cbn [decodeAll].
  - split; [discriminate|]. intros ([|? ?] & ? & ? & ? & _); discriminate.
  - destruct (hex_DecodeString s) as [bs|] eqn:Hs.
    + rewrite IH. split.
      * intros (before & bad & after & -> & Hall & Hbad & ->).
        exists (s :: before), bad, after. repeat split; [|done].
        constructor; [by rewrite Hs|done].
      * intros ([|s' before] & bad & after & Hl & Hall & Hbad & ->);
          cbn in Hl; injection Hl as -> ->; [congruence|].
        exists before, bad, after. inversion Hall; subst. done.
    + split.
      * intros [= <-]. exists [], s, rest. repeat split; [constructor|done].
      * intros ([|s' before] & bad & after & Hl & Hall & Hbad & ->);
          cbn in Hl; injection Hl as -> ->; [done|].
        inversion Hall as [|? ? [? Hdec] ?]; subst. congruence.
Qed.

(** X1: [makeS3MD5] fails exactly when one of the strings is not
    hexadecimal (an odd number of digits, or a byte that is no digit), and
    the error it returns is the one of the first such string. *)
Theorem makeS3MD5_first_undecodable (E : Env) (md5Strs : list string) (e : error) :
  makeS3MD5 E md5Strs = Err e ↔
  ∃ before md5Str after,
    md5Strs = before ++ md5Str :: after ∧
    Forall (λ s, is_Some (hex_DecodeString s)) before ∧
    hex_DecodeString md5Str = None ∧ e = hexError md5Str.
Proof.
  rewrite <- (decodeAll_Err md5Strs []). unfold makeS3MD5.
  destruct (decodeAll md5Strs []); split; congruence.
Qed.

Lemma decodeAll_encoded (sums : list (list byte)) (acc : list byte) :
  decodeAll (map hex_EncodeToString sums) acc = Ok (acc ++ concat sums).
Proof.
  revert acc. induction sums as [|sum rest IH]; intros acc; cbn [map decodeAll concat].
  - by rewrite app_nil_r.
  - by rewrite hex_DecodeString_EncodeToString, IH, app_assoc.
Qed.

(** X2: on the hexadecimal forms of digests, as [safeWriteFile] computes
    them, [makeS3MD5] does not fail: it answers the hexadecimal MD5 of the
    digests put end to end, a dash, and their number. *)
Theorem makeS3MD5_of_digests (E : Env) (sums : list (list byte)) :
  makeS3MD5 E (map hex_EncodeToString sums) =
  Ok (hex_EncodeToString (md5_Sum E (concat sums)) +:+ "-" +:+
      strconv_Itoa (Z.of_nat (length sums))).
Proof.
  unfold makeS3MD5. by rewrite decodeAll_encoded, length_map.
Qed.

(** ** Sessions that do not exist *)

Lemma isUploadIDExist_run (fs : Filesystem) (bucket object uploadID : string)
    (w : world) :
  isUploadIDExist fs bucket object uploadID w =
  (Ok match lookupNode (tree w)
              (resolve (filepath_Join [path fs; configDir; bucket; object;
                                       uploadID +:+ uploadIDSuffix])) with
      | Some (RegularFile _ _) => true
      | _ => false
      end, w).
Proof. apply isFileExist_run. Qed.



(** ** Listing the parts *)

Lemma partsLoop_length (entries : list DirEntry.t) (i maxParts : Z)
    (parts : list partInfo.t) :
  i ≤ maxParts →
  (partsLoop i maxParts entries parts).2 =
  parts ++ map partOf (take (Z.to_nat (maxParts - i)) entries).
Proof. intros H. by rewrite partsLoop_run. Qed.

(** X4: [ListObjectParts] only reads.  In a result it returns, [MaxParts] is
    the requested number brought into 1..1000 (1000 for a request of zero or
    less, or of more than 1000); no more parts than [MaxParts] are listed;
    every part listed has a number from 1 to 10000 above the marker; and a
    result that is not truncated lists every matching entry. *)
Theorem ListObjectParts_bounds (E : Env) (fs : Filesystem)
    (bucket object uploadID : string) (partNumberMarker maxParts : Z)
    (w w' : world) (info : ListPartsInfo.t) :
  ListObjectParts E fs bucket object uploadID partNumberMarker maxParts w = (Ok info, w') →
  w' = w
  ∧ ListPartsInfo.MaxParts info =
      (if (maxParts <=? 0) || (1000 <? maxParts) then 1000 else maxParts)
  ∧ 1 ≤ ListPartsInfo.MaxParts info ≤ 1000
  ∧ Z.of_nat (length (ListPartsInfo.Parts info)) ≤ ListPartsInfo.MaxParts info
  ∧ Forall (λ part, 1 ≤ partInfo.PartNumber part ≤ 10000 ∧
                    partNumberMarker < partInfo.PartNumber part)
      (ListPartsInfo.Parts info)
  ∧ (ListPartsInfo.IsTruncated info = false →
     ∃ entries,
       filteredReaddir
         (filepath_Join [path fs; configDir; ListPartsInfo.Bucket info; object])
         (partFilter uploadID partNumberMarker) false w = (Ok entries, w) ∧
       ListPartsInfo.Parts info = map partOf entries).
Proof.
  intros H. unfold ListObjectParts in H.
  io_step H. io_step H. io_step H. io_step H.
  apply readonly_checkMultipartArgs in Hm as ->.
  apply readonly_isFileExist in Hm0 as ->.
  apply readonly_filteredReaddir in Hm1 as Hw. subst w2.
  apply filteredReaddir_Ok in Hm1 as Hall.
  set (limit := if (maxParts <=? 0) || (1000 <? maxParts) then 1000 else maxParts) in *.
  assert (Hlimit : 1 ≤ limit ≤ 1000).
  { unfold limit. destruct (Z.leb_spec maxParts 0), (Z.ltb_spec 1000 maxParts); cbn; lia. }
  rewrite partsLoop_run in H by lia. cbn [app] in H.
  injection H as <- <-. cbn.
  rewrite Z.sub_0_r.
  split; [done|]. split; [done|]. split; [done|].
  split; [rewrite length_map, length_take; lia|].
  split.
  - apply Forall_forall. intros part Hin.
    apply list_elem_of_fmap in Hin as (entry & -> & Hin).
    apply elem_of_take in Hin as (i & Hin & _).
    rewrite Forall_forall in Hall.
    apply (partFilter_partNumber uploadID), Hall.
    by eapply list_elem_of_lookup_2.
  - intros Htr. apply bool_decide_eq_false_1 in Htr.
    exists a1. split; [done|].
    by rewrite take_ge by lia.
Qed.

Lemma ListObjectParts_bounds_witness :
  ∃ info,
    ListObjectParts demoEnv demoFs "bkt" "big" "u1" 1 0 demoWorld = (Ok info, demoWorld) ∧
    ListPartsInfo.MaxParts info = 1000 ∧
    (partInfo.PartNumber <$> ListPartsInfo.Parts info) = [2].
Proof.
  destruct (ListObjectParts demoEnv demoFs "bkt" "big" "u1" 1 0 demoWorld)
    as [[info|e] w'] eqn:H; [|vm_compute in H; discriminate].
  destruct (ListObjectParts_bounds _ _ _ _ _ _ _ _ _ _ H) as (-> & Hmax & _).
  exists info. split; [done|]. split; [exact Hmax|].
  vm_compute in H. by injection H as <-.
Defined.

(** ** What a part write changes *)

Lemma readonly_checkDiskFree (E : Env) (fs : Filesystem) : readonly (checkDiskFree E fs).
Proof.
  unfold checkDiskFree. apply readonly_bind.
  - by intros w r w' [= _ <-].
  - intros [free total]. apply readonly_if; [apply readonly_fail|apply readonly_ret].
Qed.



(** ** Completion that fails its checks *)

Lemma readonly_collectMD5Sums (metaObjectDir uploadID : string)
    (parts : list completePart.t) (md5Sums : list string) :
  readonly (collectMD5Sums metaObjectDir uploadID parts md5Sums).
Proof.
  revert md5Sums. induction parts as [|part rest IH]; intros md5Sums;
    cbn [collectMD5Sums]; [apply readonly_ret|].
  apply readonly_bind; [apply readonly_isFileExist|intros status].
  apply readonly_if; [apply readonly_fail|apply IH].
Qed.

Lemma collectMD5Sums_InvalidPart (metaObjectDir uploadID : string)
    (parts : list completePart.t) (md5Sums : list string) (w w' : world) (e : error) :
  collectMD5Sums metaObjectDir uploadID parts md5Sums w = (Err e, w') → e = InvalidPart.
Proof.
  revert md5Sums. induction parts as [|part rest IH]; intros md5Sums;
    cbn [collectMD5Sums]; [discriminate|].
  rewrite io_bind_run, isFileExist_run.
  destruct (negb _); [by intros [= <- _]|apply IH].
Qed.

Lemma os_Open_Err (name : string) (w w' : world) (e : error) :
  os_Open name w = (Err e, w') → isCheckError e = false.
Proof. unfold os_Open. intros H. repeat case_match; by simplify_eq. Qed.

Lemma safe_Write_Err (f : safe.File) (p : list byte) (w w' : world) (e : error) :
  safe.Write f p w = (Err e, w') → isCheckError e = false.
Proof. unfold safe.Write. intros H. repeat case_match; by simplify_eq. Qed.

Lemma concatParts_Err (metaObjectDir uploadID : string) (safeFile : safe.File)
    (parts : list completePart.t) (w w' : world) (e : error) :
  concatParts metaObjectDir uploadID safeFile parts w = (Err e, w') →
  isCheckError e = false.
Proof.
  revert w. induction parts as [|part rest IH]; intros w; cbn [concatParts];
    [discriminate|].
  rewrite io_bind_run. unfold try at 1.
  destruct (os_Open _ w) as [[partFile|e0] w1] eqn:Hopen.
  - rewrite io_bind_run. unfold io_Copy. rewrite io_bind_run. unfold try at 1.
    destruct (safe.Write safeFile (pending partFile) w1) as [[[]|e1] w2] eqn:Hwr.
    + unfold mret at 1, io_ret at 1.
      destruct partFile as [data [e1|]]; cbn [failure].
      * rewrite io_bind_run. unfold ignore, safe.CloseAndRemove, fail.
        intros [= <- _]. unfold os_Open in Hopen.
        repeat case_match; by simplify_eq.
      * apply IH.
    + unfold mret at 1, io_ret at 1. rewrite io_bind_run.
      unfold ignore, safe.CloseAndRemove, fail. intros [= <- _].
      by eapply safe_Write_Err.
  - rewrite io_bind_run. unfold ignore, safe.CloseAndRemove, fail.
    intros [= <- _]. by eapply os_Open_Err.
Qed.

(** X6: a [CompleteMultipartUpload] stopped by one of its checks has
    touched nothing: when it fails with one of the backend's typed errors
    (a bad bucket or object name, a bucket that is not there, an unknown
    upload ID, a full disk, a part that is not on disk) or with the error of
    an ETag that is not hexadecimal, the world is as it was: no temporary
    file was made and no part was read. *)
Theorem CompleteMultipartUpload_checks_first (E : Env) (fs : Filesystem)
    (bucket object uploadID : string) (parts : list completePart.t)
    (w w' : world) (e : error) :
  CompleteMultipartUpload E fs bucket object uploadID parts w = (Err e, w') →
  isCheckError e = true →
  w' = w.
Proof.
  unfold CompleteMultipartUpload. rewrite io_bind_run.
  destruct (checkMultipartArgs E fs bucket object w) as [[b|e0] w1] eqn:Hargs;
    apply readonly_checkMultipartArgs in Hargs as Hw; subst w1;
    [|by intros [= _ <-]].
  rewrite io_bind_run, isUploadIDExist_run.
  destruct (negb _); [by intros [= _ <-]|].
  rewrite io_bind_run.
  destruct (checkDiskFree E fs w) as [[[]|e0] w1] eqn:Hdisk;
    apply readonly_checkDiskFree in Hdisk as ->; [|by intros [= _ <-]].
  rewrite io_bind_run.
  destruct (collectMD5Sums _ uploadID parts [] w) as [[md5Sums|e0] w1] eqn:Hsums;
    apply readonly_collectMD5Sums in Hsums as Hw; subst w1;
    [|by intros [= _ <-]].
  destruct (makeS3MD5 E md5Sums) as [s3MD5|e0]; [|by intros [= _ <-]].
  rewrite io_bind_run.
  destruct (safe.CreateFileWithSuffix _ "-" w) as [[safeFile|e0] w1] eqn:Hc.
  2:{ intros [= <- _] He. unfold safe.CreateFileWithSuffix in Hc.
      repeat case_match; by simplify_eq. }
  rewrite io_bind_run.
  destruct (concatParts _ uploadID safeFile parts w1) as [[[]|e0] w2] eqn:Hcat.
  2:{ intros [= <- _] He. apply concatParts_Err in Hcat. congruence. }
  rewrite io_bind_run. unfold ignore at 1.
  destruct (safe.Close safeFile w2) as [rc w3].
  rewrite io_bind_run.
  destruct (os_Stat _ w3) as [[objSt|e0] w4] eqn:Hst.
  2:{ intros [= <- _] He. unfold os_Stat, os_Lstat in Hst.
      repeat case_match; by simplify_eq. }
  rewrite io_bind_run. unfold try at 1.
  destruct (os_MkdirAll _ w4) as [[[]|e0] w5] eqn:Hmk.
  2:{ rewrite io_bind_run. unfold ignore at 1.
      destruct (os_Remove _ w5) as [rr w6]. intros [= <- _] He.
      unfold os_MkdirAll in Hmk. repeat case_match; by simplify_eq. }
  rewrite io_bind_run. unfold try at 1.
  destruct (os_Rename _ _ w5) as [[[]|e0] w6] eqn:Hrn.
  2:{ rewrite io_bind_run. unfold ignore at 1.
      destruct (os_Remove _ w6) as [rr w7]. intros [= <- _] He.
      unfold os_Rename in Hrn. repeat case_match; by simplify_eq. }
  rewrite io_bind_run. unfold ignore at 1.
  destruct (cleanupUploadID fs b object uploadID w6) as [rc' w7].
  discriminate.
Qed.

Lemma CompleteMultipartUpload_checks_first_witness :
  CompleteMultipartUpload demoEnv demoFs "bkt" "big" "u1"
    [ {| completePart.PartNumber := 1; completePart.ETag := "8b" |};
      {| completePart.PartNumber := 3; completePart.ETag := "73" |} ]
    demoWorld = (Err InvalidPart, demoWorld).
Proof.
  destruct (CompleteMultipartUpload demoEnv demoFs "bkt" "big" "u1" _ demoWorld)
    as [[info|e] w'] eqn:H; [vm_compute in H; discriminate|].
  assert (He : e = InvalidPart) by (vm_compute in H; by injection H as <- _).
  subst e.
  by rewrite (CompleteMultipartUpload_checks_first _ _ _ _ _ _ _ _ _ H eq_refl).
Defined.

(** ** Opening a session *)

Lemma mkdirs_subseteq (done todo : list string) (t t' : gmap (list string) node) :
  mkdirs done todo t = Some t' → t ⊆ t'.
Proof.
  revert done t. induction todo as [|e rest IH]; intros done t; cbn [mkdirs].
  - by intros [= <-].
  - destruct (t !! (done ++ [e])) as [[|]|] eqn:Hl; [discriminate|apply IH|].
    intros H. apply IH in H. etrans; [|exact H]. by apply insert_subseteq.
Qed.

Lemma os_MkdirAll_subseteq (name : string) (w w' : world) (r : result unit) :
  os_MkdirAll name w = (r, w') → tree w ⊆ tree w' ∧ entropy w' = entropy w ∧ now w' = now w.
Proof.
  unfold os_MkdirAll. destruct (mkdirs [] (resolve name) (tree w)) eqn:Hm;
    intros [= _ <-]; [|done].
  split; [|done]. by eapply mkdirs_subseteq.
Qed.

Lemma lookupNode_Some (t : gmap (list string) node) (k : list string) (n : node) :
  t !! k = Some n → k ≠ [] → lookupNode t k = Some n.
Proof. by destruct k. Qed.

Lemma lookupNode_subseteq (t t' : gmap (list string) node) (k : list string) (n : node) :
  t ⊆ t' → lookupNode t k = Some n → lookupNode t' k = Some n.
Proof.
  intros Hs. destruct k as [|e k]; [done|]. cbn [lookupNode].
  intros Hl. by eapply lookup_weaken.
Qed.

Lemma mkdirs_made (done todo : list string) (t t' : gmap (list string) node) :
  lookupNode t done = Some Directory →
  mkdirs done todo t = Some t' →
  lookupNode t' (done ++ todo) = Some Directory.
Proof.
  revert done t. induction todo as [|e rest IH]; intros done t Hdone; cbn [mkdirs].
  - intros [= <-]. by rewrite app_nil_r.
  - replace (done ++ e :: rest) with ((done ++ [e]) ++ rest) by by rewrite <- app_assoc.
    destruct (t !! (done ++ [e])) as [[|]|] eqn:Hl; [discriminate| |].
    + apply IH. apply lookupNode_Some; [done|by destruct done].
    + apply IH. apply lookupNode_Some; [apply lookup_insert_eq|by destruct done].
Qed.

(** The step of [newUploadID] that makes the metadir when it is missing. *)
Lemma ensure_metaObjectDir (metaObjectDir : string) (status : bool) (w w1 w2 : world)
    (r : result unit) :
  isDirExist metaObjectDir w = (Ok status, w1) →
  (if negb status then os_MkdirAll metaObjectDir else mret tt) w1 = (r, w2) →
  tree w ⊆ tree w2 ∧ entropy w2 = entropy w ∧ now w2 = now w ∧
  match r with
  | Ok _ => lookupNode (tree w2) (resolve metaObjectDir) = Some Directory
  | Err e => e ≠ outOfUUIDs
  end.
Proof.
  unfold isDirExist.
  destruct (lookupNode (tree w) (resolve metaObjectDir)) as [[|]|] eqn:Hl;
    intros [= <- <-]; cbn [negb].
  - intros Hm. apply os_MkdirAll_subseteq in Hm as Hs.
    destruct Hs as (? & ? & ?). repeat split; try done.
    unfold os_MkdirAll in Hm.
    destruct (mkdirs [] (resolve metaObjectDir) (tree w)) eqn:Hmk;
      injection Hm as <- <-; [|done].
    cbn. by apply (mkdirs_made [] _ (tree w)).
  - by intros [= <- <-].
  - intros Hm. apply os_MkdirAll_subseteq in Hm as Hs.
    destruct Hs as (? & ? & ?). repeat split; try done.
    unfold os_MkdirAll in Hm.
    destruct (mkdirs [] (resolve metaObjectDir) (tree w)) eqn:Hmk;
      injection Hm as <- <-; [|done].
    cbn. by apply (mkdirs_made [] _ (tree w)).
Qed.

(** What the loop of [newUploadID] does to the world it starts in. *)
Lemma newUploadIDLoop_run (fuel : nat) (metaObjectDir : string) (w w' : world)
    (r : result string) :
  (length (entropy w) < fuel)%nat →
  newUploadIDLoop fuel metaObjectDir w = (r, w') →
  match r with
  | Ok uploadID =>
      let k := resolve (filepath_Join [metaObjectDir; uploadID +:+ uploadIDSuffix]) in
      lookupNode (tree w) k = None ∧
      tree w' = <[k := RegularFile [] (now w)]> (tree w) ∧
      ∃ taken rest,
        entropy w = taken ++ uploadID :: rest ∧ entropy w' = rest ∧
        Forall (λ u, is_Some (lookupNode (tree w)
                  (resolve (filepath_Join [metaObjectDir; u +:+ uploadIDSuffix])))) taken
  | Err e => tree w' = tree w ∧ e ≠ outOfUUIDs
  end.
Proof.
  revert w. induction fuel as [|fuel IH]; intros w Hfuel; [lia|].
  cbn [newUploadIDLoop]. rewrite io_bind_run. unfold uuid_New at 1.
  destruct (entropy w) as [|u rest] eqn:He; [by intros [= <- <-]|].
  rewrite io_bind_run. unfold try at 1, os_Lstat at 1. cbn [tree].
  destruct (lookupNode (tree w) (resolve _)) as [n|] eqn:Hl.
  - (* the name is taken: another round *)
    intros H. apply IH in H; [|cbn in *; lia]. cbn [tree entropy now] in H.
    destruct r as [uploadID|e]; [|exact H].
    destruct H as (Hfree & Ht & taken & rest' & -> & Hrest & Htaken).
    split; [done|]. split; [done|].
    exists (u :: taken), rest'. split; [done|]. split; [done|].
    constructor; [by rewrite Hl|done].
  - cbn [os_IsNotExist negb]. rewrite io_bind_run.
    unfold ioutil_WriteFile at 1. cbn [tree now]. rewrite Hl.
    destruct (lookupNode (tree w) (removelast _)) as [[|]|];
      unfold mret, io_ret; intros [= <- <-]; cbn; try done.
    split; [done|]. split; [done|]. by exists [], rest.
Qed.

Lemma newUploadID_run (fs : Filesystem) (bucket object : string) (w w' : world)
    (r : result string) :
  newUploadID fs bucket object w = (r, w') →
  tree w ⊆ tree w'
  ∧ match r with
    | Err e => e ≠ outOfUUIDs
    | Ok uploadID =>
        ∃ made taken rest,
          let metaObjectDir := filepath_Join [path fs; configDir; bucket; object] in
          let reservation u :=
            resolve (filepath_Join [metaObjectDir; u +:+ uploadIDSuffix]) in
          tree w ⊆ made ∧
          lookupNode made (resolve metaObjectDir) = Some Directory ∧
          lookupNode made (reservation uploadID) = None ∧
          tree w' = <[reservation uploadID := RegularFile [] (now w)]> made ∧
          entropy w = taken ++ uploadID :: rest ∧ entropy w' = rest ∧
          Forall (λ u, is_Some (lookupNode made (reservation u))) taken
    end.
Proof.
  unfold newUploadID. rewrite io_bind_run.
  set (metaObjectDir := filepath_Join [path fs; configDir; bucket; object]).
  destruct (isDirExist metaObjectDir w) as [[status|e] w1] eqn:Hd;
    [|unfold isDirExist in Hd; repeat case_match; by simplify_eq].
  rewrite io_bind_run.
  destruct ((if negb status then os_MkdirAll metaObjectDir else mret tt) w1)
    as [[[]|e] w2] eqn:Hmk;
    destruct (ensure_metaObjectDir _ _ _ _ _ _ Hd Hmk) as (Hsub & Hent & Hnow & Hr);
    [|by intros [= <- <-]].
  rewrite io_bind_run. cbn [getEntropy].
  intros Hloop. apply newUploadIDLoop_run in Hloop; [|lia].
  destruct r as [uploadID|e].
  - destruct Hloop as (Hfree & Ht & taken & rest & He & Hrest & Htaken).
    split.
    { rewrite Ht. etrans; [exact Hsub|]. apply insert_subseteq.
      by apply lookupNode_None. }
    exists (tree w2), taken, rest. cbv zeta.
    rewrite <- Hent, <- Hnow. by repeat split.
  - destruct Hloop as [-> Hne]. by split.
Qed.

(** X7: [NewMultipartUpload] never takes anything away: whatever it
    answers, every entry of the tree is still there, unchanged.  When it
    succeeds, the upload ID it returns is the first random UUID whose
    reservation path was free, and the one file it has made is the empty
    reservation file [<metadir>/<uploadID>.uploadid]; the metadir and the
    directories above it are made when they were missing. *)
Theorem NewMultipartUpload_reserves (E : Env) (fs : Filesystem)
    (bucket object : string) (w w' : world) (r : result string) :
  NewMultipartUpload E fs bucket object w = (r, w') →
  tree w ⊆ tree w'
  ∧ match r with
    | Err _ => True
    | Ok uploadID =>
        ∃ bucketDirName made taken rest,
          let metaObjectDir := filepath_Join [path fs; configDir; bucketDirName; object] in
          let reservation u :=
            resolve (filepath_Join [metaObjectDir; u +:+ uploadIDSuffix]) in
          checkMultipartArgs E fs bucket object w = (Ok bucketDirName, w) ∧
          tree w ⊆ made ∧
          lookupNode made (resolve metaObjectDir) = Some Directory ∧
          lookupNode made (reservation uploadID) = None ∧
          tree w' = <[reservation uploadID := RegularFile [] (now w)]> made ∧
          entropy w = taken ++ uploadID :: rest ∧ entropy w' = rest ∧
          Forall (λ u, is_Some (lookupNode made (reservation u))) taken
    end.
Proof.
  unfold NewMultipartUpload. rewrite io_bind_run.
  destruct (checkMultipartArgs E fs bucket object w) as [[b|e] w1] eqn:Hargs;
    apply readonly_checkMultipartArgs in Hargs as Hw; subst w1;
    [|by intros [= <- <-]].
  rewrite io_bind_run.
  destruct (checkDiskFree E fs w) as [[[]|e] w1] eqn:Hdisk;
    apply readonly_checkDiskFree in Hdisk as ->; [|by intros [= <- <-]].
  intros H. apply newUploadID_run in H as [Hsub H]. split; [done|].
  destruct r as [uploadID|e]; [|done].
  destruct H as (made & taken & rest & H). exists b, made, taken, rest.
  cbv zeta in *. by repeat split; try apply H.
Qed.

Lemma NewMultipartUpload_reserves_witness :
  NewMultipartUpload demoEnv demoFs "bkt" "new/object" demoWorld =
    (Ok "a1b2c3d4",
     {| tree := <[ ["data"; ".minio"; "bkt"; "new"; "object"; "a1b2c3d4.uploadid"]
                   := RegularFile [] 100 ]>
                (<[ ["data"; ".minio"; "bkt"; "new"; "object"] := Directory ]>
                   (<[ ["data"; ".minio"; "bkt"; "new"] := Directory ]> (tree demoWorld)));
        now := 100; entropy := ["00112233"]; diskInfo := Ok (500, 1000) |})
  ∧ tree demoWorld ⊆
    tree (NewMultipartUpload demoEnv demoFs "bkt" "new/object" demoWorld).2.
Proof.
  split; [vm_compute; reflexivity|].
  exact (proj1 (NewMultipartUpload_reserves demoEnv demoFs "bkt" "new/object" demoWorld
                  _ _ (surjective_pairing _))).
Defined.

(** ** Paths of the entries of a metadir *)

Lemma concat_snoc (elems : list string) (name : string) :
  elems ≠ [] →
  String.concat "/" (elems ++ [name]) = String.concat "/" elems +:+ "/" +:+ name.
Proof.
  induction elems as [|e es IH]; [done|]. intros _.
  destruct es as [|e' es'].
  - reflexivity.
  - change ((e :: e' :: es') ++ [name]) with (e :: (e' :: es') ++ [name]).
    rewrite (concat_cons "/" e ((e' :: es') ++ [name])) by done.
    rewrite (concat_cons "/" e (e' :: es')) by done.
    rewrite IH by done. by rewrite !append_assoc.
Qed.

Lemma filepath_Join_metaObjectDir_entry (root : list string) (bucket : string)
    (objectElems : list string) (name : string) :
  Forall (λ e, isElement e = true) root →
  isElement bucket = true →
  Forall (λ e, isElement e = true) objectElems →
  objectElems ≠ [] →
  isElement name = true →
  filepath_Join [absolute root; configDir; bucket; String.concat "/" objectElems; name] =
  absolute (((root ++ [configDir; bucket]) ++ objectElems) ++ [name]).
Proof.
  intros Hr Hb Ho Hne Hn.
  rewrite <- !app_assoc.
  rewrite <- (filepath_Clean_absolute_app root ([configDir; bucket] ++ objectElems ++ [name]));
    [|done|repeat constructor; try done; apply Forall_app; by repeat constructor|done].
  cbn [app]. rewrite !concat_cons by (by destruct objectElems).
  rewrite concat_snoc by done.
  cbn [filepath_Join String.concat]. unfold absolute at 1.
  rewrite append_cons. reflexivity.
Qed.

(** ** After a session is cleaned up *)

Lemma readdir_complete (t : gmap (list string) node) (d : list string)
    (name : string) (n : node) :
  t !! (d ++ [name]) = Some n → entryOf name n ∈ readdir t d.
Proof.
  intros Hl. unfold readdir. apply list_elem_of_omap.
  exists (d ++ [name], n). split.
  - by apply elem_of_map_to_list.
  - cbn. by rewrite (proj2 (childOf_Some d (d ++ [name]) name) eq_refl).
Qed.

Lemma filteredReaddirnames_complete (dirname : string) (filter : string → bool)
    (w w' : world) (names : list string) (name : string) (n : node) :
  filteredReaddirnames dirname filter w = (Ok names, w') →
  tree w !! (resolve dirname ++ [name]) = Some n →
  filter name = true →
  name ∈ names.
Proof.
  unfold filteredReaddirnames. rewrite io_bind_run.
  destruct (filteredReaddir dirname _ false w) as [[entries|e] w1] eqn:Hrd;
    [|discriminate].
  intros [= <- _] Hl Hf. unfold filteredReaddir in Hrd.
  destruct (lookupNode (tree w) (resolve dirname)) as [[|]|]; try discriminate.
  injection Hrd as <- _.
  apply list_elem_of_fmap. exists (entryOf name n).
  split; [by rewrite entryOf_Name|].
  rewrite merge_sort_Permutation. apply list_elem_of_In, filter_In.
  split; [apply list_elem_of_In; by apply readdir_complete|].
  by rewrite entryOf_Name.
Qed.

Lemma os_Remove_Ok (name : string) (w w' : world) :
  os_Remove name w = (Ok tt, w') → tree w' = delete (resolve name) (tree w).
Proof.
  unfold os_Remove. intros H. repeat case_match; by simplify_eq.
Qed.

Lemma forEach_remove_Ok (metaDir : list string) (names : list string) (w w' : world) :
  Forall (λ e, isElement e = true) metaDir →
  Forall (λ name, isElement name = true) names →
  forEach names (λ name, os_Remove (filepath_Join [absolute metaDir; name])) w = (Ok tt, w') →
  tree w' ⊆ tree w ∧
  ∀ name, name ∈ names → tree w' !! (metaDir ++ [name]) = None.
Proof.
  intros Hmeta Hnames. revert w. induction Hnames as [|name names Hel _ IH];
    intros w; cbn [forEach].
  - intros [= <-]. split; [done|]. intros name Hin. by apply not_elem_of_nil in Hin.
  - rewrite io_bind_run.
    destruct (os_Remove _ w) as [[[]|e] w1] eqn:Hrm; [|discriminate].
    apply os_Remove_Ok in Hrm.
    rewrite filepath_Join_entry, resolve_absolute in Hrm
      by (done || apply Forall_app; by repeat constructor).
    intros H. apply IH in H as [Hsub Hgone].
    assert (Hsub' : tree w' ⊆ tree w).
    { etrans; [exact Hsub|]. rewrite Hrm. apply delete_subseteq. }
    split; [done|]. intros name' [->|Hin]%elem_of_cons; [|by apply Hgone].
    eapply lookup_weaken_None; [|exact Hsub]. rewrite Hrm. apply lookup_delete_eq.
Qed.

Lemma onlyRemoved_subseteq (t0 t : gmap (list string) node)
    (allowed : list string → Prop) :
  onlyRemoved t0 t allowed → t ⊆ t0.
Proof.
  intros Hinv. apply map_subseteq_spec. intros k n Hk.
  destruct (Hinv k) as [Heq|[Hnone _]]; congruence.
Qed.

Lemma HasPrefix_append (s more : string) :
  strings_HasPrefix (s +:+ more) s = true.
Proof.
  unfold strings_HasPrefix. induction s as [|c s IH].
  - rewrite append_empty. by destruct more.
  - rewrite append_cons. cbn [String.prefix]. by destruct (ascii_dec c c).
Qed.

Lemma HasPrefix_uploadIDSuffix (uploadID : string) :
  strings_HasPrefix (uploadID +:+ uploadIDSuffix) (uploadID +:+ ".") = true.
Proof.
  unfold strings_HasPrefix, uploadIDSuffix. induction uploadID as [|c s IH].
  - rewrite !append_empty. reflexivity.
  - rewrite !append_cons. cbn [String.prefix]. by destruct (ascii_dec c c).
Qed.

Lemma removeFileTree_Ok (dir : list string) (level : string) (w w' : world) :
  Forall (λ e, isElement e = true) dir →
  removeFileTree (absolute dir) level w = (Ok tt, w') →
  ∃ w1, tree w1 = delete dir (tree w) ∧
        removeLoop (S (size (tree w1))) (filepath_Dir (absolute dir)) level w1 = (Ok tt, w').
Proof.
  intros Hdir. unfold removeFileTree. rewrite io_bind_run.
  destruct (os_Remove (absolute dir) w) as [[[]|e] w1] eqn:Hrm; [|discriminate].
  apply os_Remove_Ok in Hrm. rewrite resolve_absolute in Hrm by done.
  rewrite io_bind_run. cbn [getTree]. intros H. by exists w1.
Qed.

Lemma isDirEmpty_Ok (dirname : string) (w w' : world) (status : bool) :
  isDirEmpty dirname w = (Ok status, w') →
  w' = w ∧ lookupNode (tree w) (resolve dirname) = Some Directory ∧
  bool_decide (readdir (tree w) (resolve dirname) = []) = status.
Proof.
  unfold isDirEmpty.
  destruct (lookupNode (tree w) (resolve dirname)) as [[|]|]; try discriminate.
  by intros [= <- <-].
Qed.

(** X8: when [cleanupUploadID] returns without an error, the tree has only
    lost entries; no entry of the object's metadir whose name starts with
    the upload ID and a dot is left, so the session does not exist any
    more and [AbortMultipartUpload] on it fails with [InvalidUploadID]; and
    the metadir itself is gone unless an entry of another session is left
    in it. *)
Theorem cleanupUploadID_ends_session (E : Env) (fs : Filesystem) (root : list string)
    (bucket : string) (objectElems : list string) (uploadID : string)
    (w w' : world) :
  path fs = absolute root →
  Forall (λ e, isElement e = true) root →
  isElement bucket = true →
  Forall (λ e, isElement e = true) objectElems →
  objectElems ≠ [] →
  isElement (uploadID +:+ uploadIDSuffix) = true →
  wellFormed (tree w) = true →
  cleanupUploadID fs bucket (String.concat "/" objectElems) uploadID w = (Ok tt, w') →
  let object := String.concat "/" objectElems in
  let metaDir := (root ++ [configDir; bucket]) ++ objectElems in
  tree w' ⊆ tree w
  ∧ (∀ name, strings_HasPrefix name (uploadID +:+ ".") = true →
             tree w' !! (metaDir ++ [name]) = None)
  ∧ isUploadIDExist fs bucket object uploadID w' = (Ok false, w')
  ∧ (∀ bucket0,
       checkMultipartArgs E fs bucket0 object w' = (Ok bucket, w') →
       AbortMultipartUpload E fs bucket0 object uploadID w' =
       (Err (InvalidUploadID uploadID), w'))
  ∧ (tree w' !! metaDir = None ∨ readdir (tree w') metaDir ≠ []).
Proof.
  intros Hpath Hroot Hbucket Hobject Hne Hid Hwf Hrun object metaDir.
  set (level := root ++ [configDir; bucket]) in *.
  assert (Hlevel : Forall (λ e, isElement e = true) level).
  { apply Forall_app. split; [done|]. by repeat constructor. }
  assert (Hmeta : Forall (λ e, isElement e = true) metaDir)
    by (apply Forall_app; done).
  assert (Hbelow : level `prefix_of` metaDir) by by exists objectElems.
  assert (Hstrict : level ≠ metaDir).
  { unfold metaDir. intros Heq. apply Hne.
    apply (app_inv_head level). by rewrite app_nil_r. }
  unfold cleanupUploadID in Hrun. rewrite Hpath in Hrun.
  rewrite filepath_Join_metaObjectDir, app_assoc in Hrun by done.
  rewrite filepath_Join_level in Hrun by done.
  fold level in Hrun. fold metaDir in Hrun.
  rewrite io_bind_run in Hrun.
  destruct (filteredReaddirnames (absolute metaDir) _ w) as [[names|e] w1] eqn:Hnames;
    [|discriminate].
  pose proof (λ name n, filteredReaddirnames_complete _ _ _ _ _ name n Hnames) as Hall.
  apply filteredReaddirnames_Ok in Hnames as [-> Hnames].
  rewrite resolve_absolute in Hnames, Hall by done.
  assert (Hnames' : Forall (λ name, isElement name = true) names).
  { eapply Forall_impl; [exact Hnames|]. intros name [Hp Hin].
    apply (wellFormed_lookup _ _ Hwf) in Hin.
    apply Forall_app in Hin as [_ Hin]. by inversion Hin. }
  rewrite io_bind_run in Hrun.
  destruct (forEach names _ w) as [[[]|e] w1] eqn:Hloop; [|discriminate].
  apply forEach_remove_Ok in Hloop as [Hsub1 Hgone1]; [|done|done].
  rewrite io_bind_run in Hrun.
  destruct (isDirEmpty (absolute metaDir) w1) as [[status|e] w2] eqn:Hd;
    [|discriminate].
  apply isDirEmpty_Ok in Hd as (-> & Hnode & Hd).
  rewrite resolve_absolute in Hnode, Hd by done.
  assert (Hsub2 : tree w' ⊆ tree w1 ∧
                  (tree w' !! metaDir = None ∨ readdir (tree w') metaDir ≠ [])).
  { destruct status.
    - split.
      + eapply onlyRemoved_subseteq.
        eapply (removeFileTree_onlyRemoved (tree w1) metaDir level uploadID);
          [exact Hmeta|exact Hbelow|exact Hstrict|apply onlyRemoved_refl| |exact Hrun].
        destruct metaDir as [|? ?] eqn:Hm; [|exact Hnode].
        apply prefix_nil_inv in Hbelow. by destruct Hstrict.
      + left. apply removeFileTree_Ok in Hrun as (w2 & Htree & Hrun); [|done].
        eapply lookup_weaken_None; [apply lookup_delete_eq|].
        rewrite <- Htree. eapply onlyRemoved_subseteq.
        rewrite filepath_Dir_absolute in Hrun by done.
        eapply (removeLoop_onlyRemoved (tree w2) metaDir level uploadID Hmeta Hbelow
                  _ (removelast metaDir));
          [by apply removelast_prefix|apply onlyRemoved_refl|exact Hrun].
    - injection Hrun as <-. split; [done|]. right. by apply bool_decide_eq_false in Hd. }
  destruct Hsub2 as [Hsub2 Hkept].
  assert (Hgone : ∀ name, strings_HasPrefix name (uploadID +:+ ".") = true →
                          tree w' !! (metaDir ++ [name]) = None).
  { intros name Hpre.
    destruct (tree w !! (metaDir ++ [name])) as [n|] eqn:Hl.
    - eapply lookup_weaken_None; [|exact Hsub2]. apply Hgone1. by eapply Hall.
    - eapply lookup_weaken_None; [exact Hl|]. by etrans. }
  assert (Hex : isUploadIDExist fs bucket object uploadID w' = (Ok false, w')).
  { rewrite isUploadIDExist_run, Hpath. unfold object.
    rewrite filepath_Join_metaObjectDir_entry, resolve_absolute; try done.
    2:{ apply Forall_app. split; [done|]. by repeat constructor. }
    fold level. fold metaDir.
    assert (Hnone := Hgone _ (HasPrefix_uploadIDSuffix uploadID)).
    destruct (metaDir ++ [uploadID +:+ uploadIDSuffix]) as [|e es] eqn:Hk;
      [by destruct metaDir|].
    cbn [lookupNode]. by rewrite Hnone. }
  split; [by etrans|]. split; [done|]. split; [done|]. split; [|done].
  intros bucket0 Hargs. unfold AbortMultipartUpload.
  by rewrite io_bind_run, Hargs, io_bind_run, Hex.
Qed.

Lemma cleanupUploadID_ends_session_witness :
  isUploadIDExist demoFs "bkt" "big" "u1"
    (cleanupUploadID demoFs "bkt" "big" "u1" demoWorld).2 =
  (Ok false, (cleanupUploadID demoFs "bkt" "big" "u1" demoWorld).2)
  ∧ tree (cleanupUploadID demoFs "bkt" "big" "u1" demoWorld).2
      !! (metaDir ++ ["u1.2.73"]) = None.
Proof.
  destruct (cleanupUploadID_ends_session demoEnv demoFs ["data"] "bkt" ["big"] "u1"
              demoWorld (cleanupUploadID demoFs "bkt" "big" "u1" demoWorld).2)
    as (_ & Hgone & Hex & _);
    [reflexivity | by repeat constructor | reflexivity | by repeat constructor
    | discriminate | reflexivity | vm_compute; reflexivity
    | vm_compute; reflexivity |].
  split; [exact Hex|]. apply (Hgone "u1.2.73"). vm_compute. reflexivity.
Defined.

(** ** A session that was opened *)

Lemma mkdirs_lookup (done todo : list string) (t t' : gmap (list string) node)
    (k : list string) :
  mkdirs done todo t = Some t' →
  t' !! k = t !! k ∨ (t !! k = None ∧ t' !! k = Some Directory ∧ k `prefix_of` done ++ todo).
Proof.
  revert done t. induction todo as [|e rest IH]; intros done t; cbn [mkdirs].
  - intros [= <-]. by left.
  - replace (done ++ e :: rest) with ((done ++ [e]) ++ rest) by by rewrite <- app_assoc.
    destruct (t !! (done ++ [e])) as [[|]|] eqn:Hl; [discriminate|apply IH|].
    intros H. destruct (IH _ _ H) as [Heq|(Hnone & Hdir & Hpre)].
    + destruct (decide (k = done ++ [e])) as [->|Hne].
      * right. rewrite Heq, lookup_insert_eq. split; [done|]. split; [done|].
        by exists rest.
      * left. by rewrite Heq, lookup_insert_ne.
    + right. split; [|done].
      destruct (decide (k = done ++ [e])) as [->|Hne].
      * by rewrite lookup_insert_eq in Hnone.
      * by rewrite lookup_insert_ne in Hnone.
Qed.

Lemma length_append (s1 s2 : string) :
  String.length (s1 +:+ s2) = (String.length s1 + String.length s2)%nat.
Proof.
  induction s1 as [|c s1 IH]; rewrite ?append_empty, ?append_cons; [done|].
  cbn [String.length]. by rewrite IH.
Qed.

Lemma append_inj_suffix (s1 s2 suffix : string) :
  s1 +:+ suffix = s2 +:+ suffix → s1 = s2.
Proof.
  revert s2. induction s1 as [|c s1 IH]; intros [|c2 s2];
    rewrite ?append_empty, ?append_cons; [done| | |].
  - intros H. apply (f_equal String.length) in H.
    cbn [String.length] in H. rewrite length_append in H. lia.
  - intros H. apply (f_equal String.length) in H.
    cbn [String.length] in H. rewrite length_append in H. lia.
  - intros [= -> H]. by rewrite (IH _ H).
Qed.

Lemma newUploadID_entries (fs : Filesystem) (root : list string)
    (bucket : string) (objectElems : list string) (uploadID : string) (w w' : world) :
  path fs = absolute root →
  Forall (λ e, isElement e = true) root →
  isElement bucket = true →
  Forall (λ e, isElement e = true) objectElems →
  objectElems ≠ [] →
  Forall (λ u, isElement (u +:+ uploadIDSuffix) = true) (entropy w) →
  newUploadID fs bucket (String.concat "/" objectElems) w = (Ok uploadID, w') →
  let metaDir := (root ++ [configDir; bucket]) ++ objectElems in
  isElement (uploadID +:+ uploadIDSuffix) = true
  ∧ tree w !! (metaDir ++ [uploadID +:+ uploadIDSuffix]) = None
  ∧ tree w' !! (metaDir ++ [uploadID +:+ uploadIDSuffix]) = Some (RegularFile [] (now w))
  ∧ ∀ name, name ≠ uploadID +:+ uploadIDSuffix →
            tree w' !! (metaDir ++ [name]) = tree w !! (metaDir ++ [name]).
Proof.
  intros Hpath Hroot Hbucket Hobject Hne Hent Hrun metaDir.
  assert (Hmeta : Forall (λ e, isElement e = true) metaDir).
  { apply Forall_app. split; [|done]. apply Forall_app. split; [done|].
    by repeat constructor. }
  unfold newUploadID in Hrun.
  rewrite Hpath, filepath_Join_metaObjectDir, app_assoc in Hrun by done.
  fold metaDir in Hrun.
  rewrite io_bind_run in Hrun.
  destruct (isDirExist _ w) as [[status|e] w1] eqn:Hd;
    [|unfold isDirExist in Hd; repeat case_match; by simplify_eq].
  rewrite io_bind_run in Hrun.
  destruct ((if negb status then os_MkdirAll _ else mret tt) w1) as [[[]|e] w2] eqn:Hm;
    [|discriminate].
  destruct (ensure_metaObjectDir _ _ _ _ _ _ Hd Hm) as (Hsub & Hent2 & Hnow & _).
  assert (w1 = w) as -> by (unfold isDirExist in Hd; repeat case_match; by simplify_eq).
  rewrite io_bind_run in Hrun. cbn [getEntropy] in Hrun.
  apply newUploadIDLoop_run in Hrun as (Hfree & Ht & taken & rest & He & _); [|lia].
  assert (Hid : isElement (uploadID +:+ uploadIDSuffix) = true).
  { rewrite <- Hent2, He in Hent. apply Forall_app in Hent as [_ Hent]. by inversion Hent. }
  rewrite filepath_Join_entry, resolve_absolute in Hfree, Ht
    by (done || apply Forall_app; by repeat constructor).
  assert (Hfree' : tree w2 !! (metaDir ++ [uploadID +:+ uploadIDSuffix]) = None).
  { destruct (metaDir ++ [uploadID +:+ uploadIDSuffix]) eqn:Hk; [by destruct metaDir|].
    exact Hfree. }
  split; [done|]. split; [by eapply lookup_weaken_None|].
  split; [by rewrite Ht, lookup_insert_eq, Hnow|].
  intros name Hname. rewrite Ht, lookup_insert_ne
    by (intros Heq; by apply app_inj_tail in Heq as [_ <-]).
  (* the directories made on the way are no entries of the metadir *)
  destruct status; cbn [negb] in Hm; [by injection Hm as <-|].
  unfold os_MkdirAll in Hm.
  destruct (mkdirs [] (resolve _) (tree w)) as [t|] eqn:Hmkd; [|discriminate].
  injection Hm as <-. cbn [tree withTree].
  rewrite resolve_absolute in Hmkd by done.
  destruct (mkdirs_lookup _ _ _ _ (metaDir ++ [name]) Hmkd) as [Heq|(_ & _ & Hpre)];
    [done|].
  apply prefix_length in Hpre. rewrite length_app in Hpre. cbn in Hpre. lia.
Qed.

(** X9: the upload ID that [NewMultipartUpload] returns names a session
    that did not exist before the call and exists after it; the call opens
    and closes no other session of the object, and every other entry of the
    object's metadir, the parts of the other sessions among them, is as it
    was. *)
Theorem NewMultipartUpload_opens_session (E : Env) (fs : Filesystem)
    (root : list string) (bucket bucketDirName : string) (objectElems : list string)
    (uploadID : string) (w w' : world) :
  path fs = absolute root →
  Forall (λ e, isElement e = true) root →
  isElement bucketDirName = true →
  Forall (λ e, isElement e = true) objectElems →
  objectElems ≠ [] →
  Forall (λ u, isElement (u +:+ uploadIDSuffix) = true) (entropy w) →
  checkMultipartArgs E fs bucket (String.concat "/" objectElems) w = (Ok bucketDirName, w) →
  NewMultipartUpload E fs bucket (String.concat "/" objectElems) w = (Ok uploadID, w') →
  let object := String.concat "/" objectElems in
  let metaDir := (root ++ [configDir; bucketDirName]) ++ objectElems in
  isUploadIDExist fs bucketDirName object uploadID w = (Ok false, w)
  ∧ isUploadIDExist fs bucketDirName object uploadID w' = (Ok true, w')
  ∧ (∀ other, other ≠ uploadID → isElement (other +:+ uploadIDSuffix) = true →
       (isUploadIDExist fs bucketDirName object other w').1 =
       (isUploadIDExist fs bucketDirName object other w).1)
  ∧ (∀ name, name ≠ uploadID +:+ uploadIDSuffix →
       tree w' !! (metaDir ++ [name]) = tree w !! (metaDir ++ [name])).
Proof.
  intros Hpath Hroot Hbucket Hobject Hne Hent Hargs Hrun object metaDir.
  unfold NewMultipartUpload in Hrun. rewrite io_bind_run, Hargs, io_bind_run in Hrun.
  destruct (checkDiskFree E fs w) as [[[]|e] w1] eqn:Hdisk;
    apply readonly_checkDiskFree in Hdisk as ->; [|discriminate].
  apply (newUploadID_entries fs root) in Hrun as (Hid & Hfree & Hthere & Hother);
    try done.
  fold metaDir in Hfree, Hthere, Hother.
  assert (Hex : ∀ other v, isElement (other +:+ uploadIDSuffix) = true →
            isUploadIDExist fs bucketDirName object other v =
            (Ok match tree v !! (metaDir ++ [other +:+ uploadIDSuffix]) with
                | Some (RegularFile _ _) => true
                | _ => false
                end, v)).
  { intros other v Hel. rewrite isUploadIDExist_run, Hpath. unfold object.
    rewrite filepath_Join_metaObjectDir_entry, resolve_absolute; try done.
    2:{ apply Forall_app. split; [|by repeat constructor].
        apply Forall_app. split; [|done]. apply Forall_app. split; [done|].
        by repeat constructor. }
    fold metaDir.
    destruct (metaDir ++ [other +:+ uploadIDSuffix]) eqn:Hk; [by destruct metaDir|].
    reflexivity. }
  split; [by rewrite Hex, Hfree|]. split; [by rewrite Hex, Hthere|].
  split; [|done]. intros other Hdiff Hel. rewrite !Hex by done. cbn [fst].
  rewrite Hother; [done|]. intros Heq. by apply append_inj_suffix in Heq.
Qed.

Lemma NewMultipartUpload_opens_session_witness :
  isUploadIDExist demoFs "bkt" "big" "a1b2c3d4"
    (NewMultipartUpload demoEnv demoFs "bkt" "big" demoWorld).2 =
  (Ok true, (NewMultipartUpload demoEnv demoFs "bkt" "big" demoWorld).2)
  ∧ tree (NewMultipartUpload demoEnv demoFs "bkt" "big" demoWorld).2
      !! (metaDir ++ ["u1.1.8b"]) = Some (RegularFile (bytesOf "hello") 7).
Proof.
  destruct (NewMultipartUpload_opens_session demoEnv demoFs ["data"] "bkt" "bkt" ["big"]
              "a1b2c3d4" demoWorld (NewMultipartUpload demoEnv demoFs "bkt" "big" demoWorld).2)
    as (_ & Hex & _ & Hother);
    [reflexivity | by repeat constructor | reflexivity | by repeat constructor
    | discriminate | by repeat constructor | vm_compute; reflexivity
    | vm_compute; reflexivity |].
  split; [exact Hex|].
  etrans; [apply (Hother "u1.1.8b"); discriminate|]. vm_compute. reflexivity.
Defined.

(** ** A part that was put *)

Lemma partNumbers_round_trip :
  forallb partNumberRoundTrip (map Z.of_nat (seq 1 (Z.to_nat 10000))) = true.
Proof. vm_compute. reflexivity. Qed.

Lemma strconv_Atoi_Itoa (n : Z) :
  1 ≤ n ≤ 10000 →
  strconv_Atoi (strconv_Itoa n) = Some n ∧ hasNoDot (strconv_Itoa n) = true.
Proof.
  intros Hn. pose proof partNumbers_round_trip as H.
  rewrite forallb_forall in H. specialize (H n).
  assert (Hin : In n (map Z.of_nat (seq 1 (Z.to_nat 10000)))).
  { apply in_map_iff. exists (Z.to_nat n). split; [lia|]. apply in_seq. lia. }
  apply H in Hin. unfold partNumberRoundTrip in Hin.
  destruct (strconv_Atoi (strconv_Itoa n)) as [m|]; [|discriminate].
  apply andb_true_iff in Hin as [Hm Hd]. apply Z.eqb_eq in Hm. by subst.
Qed.

Lemma strings_Split_part_name (uploadID number md5Hex : string) :
  hasNoDot uploadID = true → hasNoDot number = true → hasNoDot md5Hex = true →
  strings_Split (uploadID +:+ "." +:+ number +:+ "." +:+ md5Hex) "."%char =
  [uploadID; number; md5Hex].
Proof.
  intros Hu Hn Hm.
  change (uploadID +:+ "." +:+ number +:+ "." +:+ md5Hex)
    with (uploadID +:+ String "."%char (number +:+ String "."%char md5Hex)).
  rewrite !strings_Split_app.
  by rewrite !strings_Split_free.
Qed.

(** What a [PutObjectPart] that succeeds has checked and done. *)
Lemma PutObjectPart_Ok (E : Env) (fs : Filesystem)
    (bucket object uploadID : string) (partNumber size : Z) (data : reader)
    (md5Hex etag : string) (w w' : world) :
  PutObjectPart E fs bucket object uploadID partNumber size data md5Hex w = (Ok etag, w') →
  ∃ bucketDirName written,
    checkMultipartArgs E fs bucket object w = (Ok bucketDirName, w) ∧
    isUploadIDExist fs bucketDirName object uploadID w = (Ok true, w) ∧
    1 ≤ partNumber ≤ 10000 ∧
    streamed data size = (written, None) ∧
    etag = md5Hex ∧
    tree w' =
      <[resolve (filepath_Join
                   [path fs; configDir; bucketDirName; object;
                    uploadID +:+ "." +:+ strconv_Itoa partNumber +:+ "." +:+ md5Hex])
        := RegularFile written (now w)]> (tree w).
Proof.
  unfold PutObjectPart. rewrite io_bind_run.
  destruct (checkMultipartArgs E fs bucket object w) as [[b|e] w1] eqn:Hargs;
    apply readonly_checkMultipartArgs in Hargs as Hw; subst w1; [|discriminate].
  rewrite io_bind_run.
  destruct (isUploadIDExist fs b object uploadID w) as [[status|e] w1] eqn:Hex;
    [|discriminate].
  apply readonly_isFileExist in Hex as Hw. subst w1.
  destruct status; cbn [negb]; [|discriminate].
  destruct (Z.leb_spec partNumber 0); [discriminate|].
  destruct (Z.ltb_spec 10000 partNumber); [discriminate|].
  rewrite io_bind_run.
  destruct (checkDiskFree E fs w) as [[[]|e] w1] eqn:Hdisk;
    apply readonly_checkDiskFree in Hdisk as ->; [|discriminate].
  rewrite io_bind_run, safeWriteFile_run.
  destruct (safe.CreateFileWithSuffix _ "-" w) as [[f|e] w1] eqn:Hc; [|discriminate].
  destruct (streamed data size) as [written [e|]]; [discriminate|].
  cbv zeta.
  destruct (negb (String.eqb md5Hex EmptyString) && negb (isMD5SumEqual E md5Hex _));
    unfold mret, io_ret; intros [= <- <-]; [].
  exists b, written. repeat split; try done; lia.
Qed.



(** ** The cursors of [ListMultipartUploads] *)

Section ListMultipartObjectMapFacts.

Context {listMultipartObjectParams multipartObjectInfoChannel : Type}
  `{Countable listMultipartObjectParams}.
Context (IsTimedOut : multipartObjectInfoChannel → bool).

Local Abbreviation cursors :=
  (gmap listMultipartObjectParams (list multipartObjectInfoChannel)).

Lemma lookupLoop_run (params : listMultipartObjectParams)
    (channels : list multipartObjectInfoChannel) (m : cursors) :
  match lookupLoop IsTimedOut params channels m with
  | Some (channel, m') =>
      ∃ timedOut rest,
        channels = timedOut ++ channel :: rest ∧
        Forall (λ c, IsTimedOut c = true) timedOut ∧
        IsTimedOut channel = false ∧
        m' = match rest with
             | [] => delete params m
             | _ :: _ => <[params := rest]> m
             end
  | None => Forall (λ c, IsTimedOut c = true) channels
  end.
Proof.
  induction channels as [|c cs IH]; cbn [lookupLoop]; [done|].
  destruct (IsTimedOut c) eqn:Hc; cbn [negb].
  - destruct (lookupLoop IsTimedOut params cs m) as [[channel m']|].
    + destruct IH as (timedOut & rest & -> & Hall & Hlive & ->).
      exists (c :: timedOut), rest. by repeat split; [constructor|..].
    + by constructor.
  - exists [], cs. repeat split; [done..|]. by destruct cs.
Qed.

Lemma lookupLoop_snoc (params : listMultipartObjectParams)
    (channels : list multipartObjectInfoChannel) (ch : multipartObjectInfoChannel)
    (m0 m : cursors) :
  (∀ v, <[params := v]> m0 = <[params := v]> m) →
  delete params m0 = delete params m →
  lookupLoop IsTimedOut params (channels ++ [ch]) m0 =
  match lookupLoop IsTimedOut params channels m with
  | Some (c, m') => Some (c, saveListMultipartObjectCh params ch m')
  | None => if IsTimedOut ch then None else Some (ch, delete params m)
  end.
Proof.
  intros Hins Hdel. induction channels as [|c cs IH]; cbn [app lookupLoop].
  - destruct (IsTimedOut ch); cbn [negb length Nat.ltb Nat.leb]; [done|].
    by rewrite Hdel.
  - destruct (IsTimedOut c); cbn [negb]; [exact IH|].
    f_equal. f_equal. unfold saveListMultipartObjectCh.
    destruct cs as [|c' cs']; cbn [app length Nat.ltb Nat.leb].
    + by rewrite lookup_delete_eq, insert_delete_eq, Hins.
    + by rewrite lookup_insert_eq, insert_insert_eq, Hins.
Qed.

Lemma lookupLoop_other (params other : listMultipartObjectParams)
    (saved channels : list multipartObjectInfoChannel) (m : cursors) :
  other ≠ params →
  lookupLoop IsTimedOut params channels (<[other := saved]> m) =
  (λ cm, (cm.1, <[other := saved]> cm.2)) <$> lookupLoop IsTimedOut params channels m.
Proof.
  intros Hne. induction channels as [|c cs IH]; cbn [lookupLoop]; [done|].
  destruct (IsTimedOut c); cbn [negb]; [exact IH|]. cbn. f_equal. f_equal.
  destruct cs; cbn [length Nat.ltb Nat.leb].
  - by rewrite delete_insert_ne.
  - by rewrite insert_insert_ne.
Qed.

(** The map [lookupListMultipartObjectCh] leaves. *)
Lemma lookupListMultipartObjectCh_map (params : listMultipartObjectParams) (m : cursors) :
  (lookupListMultipartObjectCh IsTimedOut params m).2 = m
  ∨ (lookupListMultipartObjectCh IsTimedOut params m).2 = delete params m
  ∨ ∃ c rest, (lookupListMultipartObjectCh IsTimedOut params m).2 =
              <[params := c :: rest]> m.
Proof.
  unfold lookupListMultipartObjectCh.
  destruct (m !! params) as [channels|]; [|by left].
  pose proof (lookupLoop_run params channels m) as Hloop.
  destruct (lookupLoop IsTimedOut params channels m) as [[channel m']|]; cbn [snd];
    [|by right; left].
  destruct Hloop as (timedOut & [|c rest] & _ & _ & _ & ->); eauto.
Qed.

End ListMultipartObjectMapFacts.

(** X11: [lookupListMultipartObjectCh] returns the first channel saved
    under the parameters that is not timed out, in the order the channels
    were saved; the channels saved before it, all timed out, are dropped
    with it and the ones after it stay, the entry being deleted when none
    is left.  It returns nothing exactly when every channel saved under the
    parameters is timed out, or none is saved, and then no entry is left
    under the parameters. *)
Theorem lookupListMultipartObjectCh_first_live
    {listMultipartObjectParams multipartObjectInfoChannel : Type}
    `{Countable listMultipartObjectParams}
    (IsTimedOut : multipartObjectInfoChannel → bool)
    (params : listMultipartObjectParams)
    (m : gmap listMultipartObjectParams (list multipartObjectInfoChannel)) :
  let channels := default [] (m !! params) in
  match lookupListMultipartObjectCh IsTimedOut params m with
  | (Some channel, m') =>
      ∃ timedOut rest,
        channels = timedOut ++ channel :: rest ∧
        Forall (λ c, IsTimedOut c = true) timedOut ∧
        IsTimedOut channel = false ∧
        m' = match rest with
             | [] => delete params m
             | _ :: _ => <[params := rest]> m
             end
  | (None, m') =>
      Forall (λ c, IsTimedOut c = true) channels ∧ m' = delete params m
  end.
Proof.
  unfold lookupListMultipartObjectCh.
  destruct (m !! params) as [channels|] eqn:Hl; cbn [default].
  - pose proof (lookupLoop_run IsTimedOut params channels m) as Hloop.
    destruct (lookupLoop IsTimedOut params channels m) as [[channel m']|]; done.
  - split; [done|]. by rewrite delete_id.
Qed.

(** X12: both functions keep the map free of empty entries, and neither
    touches the entry of other parameters. *)
Theorem listMultipartObjectMap_entries
    {listMultipartObjectParams multipartObjectInfoChannel : Type}
    `{Countable listMultipartObjectParams}
    (IsTimedOut : multipartObjectInfoChannel → bool)
    (params : listMultipartObjectParams) (ch : multipartObjectInfoChannel)
    (m : gmap listMultipartObjectParams (list multipartObjectInfoChannel)) :
  noEmptyEntry m →
  noEmptyEntry (saveListMultipartObjectCh params ch m)
  ∧ noEmptyEntry (lookupListMultipartObjectCh IsTimedOut params m).2
  ∧ ∀ other, other ≠ params →
      saveListMultipartObjectCh params ch m !! other = m !! other ∧
      (lookupListMultipartObjectCh IsTimedOut params m).2 !! other = m !! other.
Proof.
  intros Hm.
  pose proof (lookupListMultipartObjectCh_map IsTimedOut params m) as Hlookup.
  split; [|split].
  - intros k channels. unfold saveListMultipartObjectCh.
    destruct (decide (k = params)) as [->|Hne].
    + rewrite lookup_insert_eq. intros [= <-]. destruct (m !! params) as [saved|]; [|done].
      by destruct saved.
    + rewrite lookup_insert_ne by done. apply Hm.
  - intros k channels. destruct Hlookup as [->|[->|(c & rest & ->)]].
    + apply Hm.
    + destruct (decide (k = params)) as [->|Hne].
      * by rewrite lookup_delete_eq.
      * rewrite lookup_delete_ne by done. apply Hm.
    + destruct (decide (k = params)) as [->|Hne].
      * rewrite lookup_insert_eq. by intros [= <-].
      * rewrite lookup_insert_ne by done. apply Hm.
  - intros other Hne. split.
    + unfold saveListMultipartObjectCh. by rewrite lookup_insert_ne.
    + destruct Hlookup as [->|[->|(c & rest & ->)]]; [done| |].
      * by rewrite lookup_delete_ne.
      * by rewrite lookup_insert_ne.
Qed.

Lemma listMultipartObjectMap_entries_witness :
  noEmptyEntry (saveListMultipartObjectCh "bkt/a" 5 demoCursors)
  ∧ (lookupListMultipartObjectCh demoIsTimedOut "bkt/a" demoCursors).2 !! "bkt/b" =
    Some [-4].
Proof.
  destruct (listMultipartObjectMap_entries demoIsTimedOut "bkt/a" 5 demoCursors)
    as (Hsave & _ & Hother).
  - intros params channels. unfold demoCursors.
    destruct (decide (params = "bkt/a")) as [->|Ha];
      [rewrite lookup_insert_eq; by intros [= <-]|].
    rewrite lookup_insert_ne by done.
    destruct (decide (params = "bkt/b")) as [->|Hb];
      [rewrite lookup_singleton_eq; by intros [= <-]|].
    by rewrite lookup_singleton_ne.
  - split; [exact Hsave|].
    destruct (Hother "bkt/b") as [_ ->]; [done|]. reflexivity.
Defined.

(** X13: the channels under one set of parameters are handed out in the
    order they were saved.  A lookup after a save returns what the lookup
    without the save returns, the saved channel staying behind it; the
    saved channel itself is returned only when the lookup without the save
    finds none, and not even then when it is timed out.  A save under other
    parameters does not change what a lookup returns. *)
Theorem saved_channels_first_in_first_out
    {listMultipartObjectParams multipartObjectInfoChannel : Type}
    `{Countable listMultipartObjectParams}
    (IsTimedOut : multipartObjectInfoChannel → bool)
    (params : listMultipartObjectParams) (ch : multipartObjectInfoChannel)
    (m : gmap listMultipartObjectParams (list multipartObjectInfoChannel)) :
  lookupListMultipartObjectCh IsTimedOut params (saveListMultipartObjectCh params ch m) =
    match lookupListMultipartObjectCh IsTimedOut params m with
    | (Some channel, m') => (Some channel, saveListMultipartObjectCh params ch m')
    | (None, m') => if IsTimedOut ch then (None, m') else (Some ch, m')
    end
  ∧ ∀ other, other ≠ params →
      lookupListMultipartObjectCh IsTimedOut params (saveListMultipartObjectCh other ch m) =
      ((lookupListMultipartObjectCh IsTimedOut params m).1,
       saveListMultipartObjectCh other ch (lookupListMultipartObjectCh IsTimedOut params m).2).
Proof.
  split.
  - unfold lookupListMultipartObjectCh at 1, saveListMultipartObjectCh at 1.
    rewrite lookup_insert_eq.
    unfold lookupListMultipartObjectCh.
    destruct (m !! params) as [channels|] eqn:Hl.
    + rewrite (lookupLoop_snoc IsTimedOut params channels ch _ m);
        [|intros v; apply insert_insert_eq|apply delete_insert_eq].
      destruct (lookupLoop IsTimedOut params channels m) as [[c m']|]; [done|].
      unfold saveListMultipartObjectCh. rewrite delete_insert_eq.
      by destruct (IsTimedOut ch).
    + cbn [lookupLoop length Nat.ltb Nat.leb]. unfold saveListMultipartObjectCh.
      rewrite !delete_insert_eq, !(delete_id m) by done.
      by destruct (IsTimedOut ch).
  - intros other Hne. unfold lookupListMultipartObjectCh.
    unfold saveListMultipartObjectCh at 1. rewrite lookup_insert_ne by done.
    destruct (m !! params) as [channels|] eqn:Hl; [|done].
    unfold saveListMultipartObjectCh at 1. rewrite lookupLoop_other by done.
    destruct (lookupLoop IsTimedOut params channels m) as [[c m']|] eqn:Hrun; cbn.
    + f_equal. unfold saveListMultipartObjectCh.
      pose proof (lookupLoop_run IsTimedOut params channels m) as Hcases.
      rewrite Hrun in Hcases. destruct Hcases as (? & rest & _ & _ & _ & ->).
      destruct rest; by rewrite ?lookup_delete_ne, ?lookup_insert_ne.
    + f_equal. unfold saveListMultipartObjectCh.
      by rewrite lookup_delete_ne, delete_insert_ne.
Qed.

Lemma saved_channels_first_in_first_out_witness :
  lookupListMultipartObjectCh demoIsTimedOut "bkt/a"
    (saveListMultipartObjectCh "bkt/b" 7 demoCursors) =
  (Some 2, {[ "bkt/a" := [3]; "bkt/b" := [-4; 7] ]}).
Proof.
  rewrite (proj2 (saved_channels_first_in_first_out demoIsTimedOut "bkt/a" 7 demoCursors)
             "bkt/b") by done.
  vm_compute. reflexivity.
Defined.

(** ** Policies with patterns that do not compile *)

Lemma patternLoop_Fatal (L : RegexpLib) (s : string) (patterns : list string)
    (msg : string) :
  patternLoop L s patterns = Fatal msg ↔
  msg = invalidPattern ∧ reachesInvalid L s patterns.
Proof.
  unfold reachesInvalid. induction patterns as [|p ps IH]; cbn [patternLoop].
  - split; [discriminate|]. intros (_ & [|? ?] & ? & ? & ? & _); discriminate.
  - unfold regexp_MatchString at 1.
    destruct (regexp_Compile L p) as [re|] eqn:Hp.
    + destruct (Regexp_MatchString L re s) eqn:Hm.
      * split; [discriminate|].
        intros (_ & [|q before] & pattern & after & Hl & Hall & Hc);
          cbn in Hl; injection Hl as <- ->; [congruence|].
        apply Forall_cons in Hall as [Hq _].
        unfold regexp_MatchString in Hq. rewrite Hp, Hm in Hq. discriminate.
      * rewrite IH. split.
        -- intros (-> & before & pattern & after & -> & Hall & Hc).
           split; [done|]. exists (p :: before), pattern, after.
           split; [done|]. split; [|done]. constructor; [|done].
           unfold regexp_MatchString. by rewrite Hp, Hm.
        -- intros (-> & [|q before] & pattern & after & Hl & Hall & Hc);
             cbn in Hl; injection Hl as <- ->; [congruence|].
           split; [done|]. exists before, pattern, after.
           split; [done|]. split; [|done]. by apply Forall_cons in Hall as [_ ?].
    + split.
      * intros [= <-]. split; [done|]. by exists [], p, ps.
      * by intros [-> _].
Qed.

Lemma bucketPolicyMatchStatement_Fatal (L : RegexpLib) (action resource : string)
    (conditions : gmap string string) (statement : policyStatement) (msg : string) :
  bucketPolicyMatchStatement L action resource conditions statement = Fatal msg ↔
  msg = invalidPattern ∧
  (reachesInvalid L action (Actions statement) ∨
   (patternLoop L action (Actions statement) = Returned true ∧
    reachesInvalid L (strings_TrimPrefix resource "/") (Resources statement))).
Proof.
  unfold bucketPolicyMatchStatement, bucketPolicyActionMatch, bucketPolicyResourceMatch.
  destruct (patternLoop L action (Actions statement)) as [[|]|m] eqn:Ha.
  - destruct (patternLoop L _ (Resources statement)) as [[|]|m] eqn:Hr.
    + destruct (bucketPolicyConditionMatch conditions statement);
        (split; [discriminate|]); intros (-> & [Hi|[_ Hi]]).
      all: try (assert (Hf := proj2 (patternLoop_Fatal L _ _ invalidPattern)
                                (conj eq_refl Hi)); congruence).
    + split; [discriminate|]. intros (-> & [Hi|[_ Hi]]).
      all: assert (Hf := proj2 (patternLoop_Fatal L _ _ invalidPattern)
                           (conj eq_refl Hi)); congruence.
    + apply patternLoop_Fatal in Hr as [-> Hr]. split.
      * intros [= <-]. split; [done|]. by right.
      * by intros [-> _].
  - split; [discriminate|]. intros (-> & [Hi|[? _]]); [|discriminate].
    assert (Hf := proj2 (patternLoop_Fatal L _ _ invalidPattern) (conj eq_refl Hi)).
    congruence.
  - apply patternLoop_Fatal in Ha as [-> Ha]. split.
    + intros [= <-]. split; [done|]. by left.
    + by intros [-> _].
Qed.

(** X14: the evaluation of a policy ends fatally, with the message for an
    invalid pattern, exactly when it reaches a pattern that does not
    compile: the statements before the one that holds it all fail to match,
    and in that statement either an action pattern that does not compile is
    reached before one that matches the action, or the action matches and a
    resource pattern that does not compile is reached before one that
    matches the resource.  The conditions of the statement play no part,
    and neither do the patterns and statements behind the one reached. *)
Theorem bucketPolicyEvalStatements_fatal (L : RegexpLib) (action resource : string)
    (conditions : gmap string string) (statements : list policyStatement)
    (msg : string) :
  bucketPolicyEvalStatements L action resource conditions statements = Fatal msg ↔
  msg = invalidPattern ∧
  ∃ before statement after,
    statements = before ++ statement :: after ∧
    Forall (λ s, bucketPolicyMatchStatement L action resource conditions s =
                 Returned false) before ∧
    (reachesInvalid L action (Actions statement) ∨
     (patternLoop L action (Actions statement) = Returned true ∧
      reachesInvalid L (strings_TrimPrefix resource "/") (Resources statement))).
Proof.
  induction statements as [|st sts IH]; cbn [bucketPolicyEvalStatements].
  - split; [discriminate|]. intros (_ & [|? ?] & ? & ? & ? & _); discriminate.
  - destruct (bucketPolicyMatchStatement L action resource conditions st)
      as [[|]|m] eqn:Hst.
    + split; [destruct (String.eqb _ _); discriminate|].
      intros (-> & [|s before] & statement & after & Hl & Hall & Hi);
        cbn in Hl; injection Hl as <- ->.
      * assert (Hf := proj2 (bucketPolicyMatchStatement_Fatal L action resource
                               conditions st invalidPattern) (conj eq_refl Hi)).
        congruence.
      * apply Forall_cons in Hall as [Hs _]. congruence.
    + rewrite IH. split.
      * intros (-> & before & statement & after & -> & Hall & Hi).
        split; [done|]. exists (st :: before), statement, after.
        split; [done|]. split; [by constructor|done].
      * intros (-> & [|s before] & statement & after & Hl & Hall & Hi);
          cbn in Hl; injection Hl as <- ->.
        -- assert (Hf := proj2 (bucketPolicyMatchStatement_Fatal L action resource
                                  conditions st invalidPattern) (conj eq_refl Hi)).
           congruence.
        -- split; [done|]. exists before, statement, after.
           split; [done|]. split; [|done]. by apply Forall_cons in Hall as [_ ?].
    + apply bucketPolicyMatchStatement_Fatal in Hst as [-> Hst]. split.
      * intros [= <-]. split; [done|]. by exists [], st, sts.
      * by intros [-> _].
Qed.

(** X15: Go fixes no order for the range over the condition map of a
    statement; whatever order the entries are met in, the loop of
    [bucketPolicyConditionMatch], which breaks at the first condition that
    fails, gives the same answer. *)
Theorem bucketPolicyConditionMatch_any_order (conditions : gmap string string)
    (statement : policyStatement) (entries : list (string * gmap string string)) :
  entries ≡ₚ map_to_list (Conditions statement) →
  conditionLoop conditions entries = bucketPolicyConditionMatch conditions statement.
Proof. intros Hp. unfold bucketPolicyConditionMatch. by apply conditionLoop_order. Qed.

Lemma bucketPolicyConditionMatch_any_order_witness :
  conditionLoop {[ "prefix" := "photos" ]}
    (reverse (map_to_list (Conditions prefixStatement))) =
  bucketPolicyConditionMatch {[ "prefix" := "photos" ]} prefixStatement.
Proof.
  apply (bucketPolicyConditionMatch_any_order {[ "prefix" := "photos" ]} prefixStatement).
  apply reverse_Permutation.
Defined.

(** ** What [PutBucketPolicyHandler] stores *)

Lemma io_LimitReader_prefix (r : reader) (n : Z) :
  pending (io_LimitReader r n) `prefix_of` pending r.
Proof.
  unfold io_LimitReader.
  destruct (n <=? Z.of_nat (length (pending r))); cbn; [apply prefix_take|done].
Qed.

Lemma io_LimitReader_idemp (r : reader) (n : Z) :
  0 ≤ n → io_LimitReader (io_LimitReader r n) n = io_LimitReader r n.
Proof.
  intros Hn.
  destruct (Z.leb_spec n (Z.of_nat (length (pending r)))) as [Hle|Hlt].
  - assert (io_LimitReader r n =
            {| pending := take (Z.to_nat n) (pending r); failure := None |}) as ->.
    { unfold io_LimitReader.
      destruct (Z.leb_spec n (Z.of_nat (length (pending r)))); [done|lia]. }
    unfold io_LimitReader. cbn [pending].
    destruct (Z.leb_spec n (Z.of_nat (length (take (Z.to_nat n) (pending r)))))
      as [_|Hlt]; [|done].
    by rewrite take_take, Nat.min_id.
  - rewrite (io_LimitReader_within r n) by lia. apply io_LimitReader_within. lia.
Qed.

(** X16: [PutBucketPolicyHandler] answers with success exactly when the
    request is signed or presigned and authenticated, its declared length
    passes the checks or it is chunked, the body read through the limit
    reader ends without a read error, and the bytes read parse, pass
    [checkBucketPolicy] and are written by [writeBucketPolicy] without an
    error.  The bytes handed to the parser and to the store are the
    beginning of the body and never more than [maxAccessPolicySize]. *)
Theorem PutBucketPolicyHandler_success (P : PolicyStore) (r : Request) :
  PutBucketPolicyHandler P r = writeSuccessNoContent ↔
  (requestAuthType r = authTypePresigned ∨ requestAuthType r = authTypeSigned)
  ∧ reqAuthenticated r = ErrNone
  ∧ (contains (TransferEncoding r) "chunked" = true
     ∨ (ContentLength r ≠ -1 ∧ ContentLength r ≠ 0 ∧
        ContentLength r ≤ maxAccessPolicySize))
  ∧ ∃ bucketPolicyBuf bucketPolicy,
      ioutil_ReadAll (io_LimitReader (Body r) maxAccessPolicySize) =
        (bucketPolicyBuf, None)
      ∧ bucketPolicyBuf `prefix_of` pending (Body r)
      ∧ Z.of_nat (length bucketPolicyBuf) ≤ maxAccessPolicySize
      ∧ parseBucketPolicy P bucketPolicyBuf = Some bucketPolicy
      ∧ checkBucketPolicy P (bucketVar r) bucketPolicy = ErrNone
      ∧ writeBucketPolicy P (bucketVar r) bucketPolicyBuf = None.
Proof.
  assert (Hmax : maxAccessPolicySize = 20971520) by reflexivity.
  assert (Hbody : putBucketPolicyBody P r = writeSuccessNoContent ↔
    ∃ bucketPolicyBuf bucketPolicy,
      ioutil_ReadAll (io_LimitReader (Body r) maxAccessPolicySize) =
        (bucketPolicyBuf, None)
      ∧ bucketPolicyBuf `prefix_of` pending (Body r)
      ∧ Z.of_nat (length bucketPolicyBuf) ≤ maxAccessPolicySize
      ∧ parseBucketPolicy P bucketPolicyBuf = Some bucketPolicy
      ∧ checkBucketPolicy P (bucketVar r) bucketPolicy = ErrNone
      ∧ writeBucketPolicy P (bucketVar r) bucketPolicyBuf = None).
  { unfold putBucketPolicyBody, ioutil_ReadAll.
    pose proof (io_LimitReader_prefix (Body r) maxAccessPolicySize) as Hpre.
    assert (Hlen : failure (io_LimitReader (Body r) maxAccessPolicySize) = None →
              Z.of_nat (length (pending (io_LimitReader (Body r) maxAccessPolicySize)))
              ≤ maxAccessPolicySize).
    { unfold io_LimitReader.
      destruct (Z.leb_spec maxAccessPolicySize (Z.of_nat (length (pending (Body r)))));
        cbn; [rewrite length_take|]; lia. }
    destruct (failure (io_LimitReader (Body r) maxAccessPolicySize)) as [e|].
    { split; [discriminate|]. by intros (? & ? & [= _ ?] & _). }
    set (buf := pending (io_LimitReader (Body r) maxAccessPolicySize)) in *.
    destruct (parseBucketPolicy P buf) as [policy|] eqn:Hparse.
    2:{ split; [discriminate|]. intros (? & ? & [= <-] & _ & _ & ? & _). congruence. }
    destruct (checkBucketPolicy P (bucketVar r) policy) eqn:Hcheck.
    2-10: split; [discriminate|];
          intros (? & ? & [= <-] & _ & _ & ? & ? & _); congruence.
    destruct (writeBucketPolicy P (bucketVar r) buf) as [e|] eqn:Hwrite.
    { split; [by destruct e|]. intros (? & ? & [= <-] & _ & _ & _ & _ & ?). congruence. }
    split; [|done]. intros _. exists buf, policy. repeat split; auto. }
  unfold PutBucketPolicyHandler, contentLengthCheck.
  destruct (requestAuthType r) eqn:Hauth;
    try (split; [discriminate|]; intros ([?|?] & _); discriminate).
  all: destruct (reqAuthenticated r) eqn:Hreq;
    try (split; [discriminate|]; intros (_ & ? & _); discriminate).
  all: destruct (contains (TransferEncoding r) "chunked") eqn:Hch; cbn [negb].
  all: try (rewrite Hbody; split; [intros H; repeat split; auto|by intros (_ & _ & _ & ?)]).
  all: destruct (Z.eqb_spec (ContentLength r) (-1)) as [Hm1|Hm1]; cbn [orb].
  all: try (split; [discriminate|]; intros (_ & _ & [?|(? & _)] & _); done).
  all: destruct (Z.eqb_spec (ContentLength r) 0) as [H0|H0].
  all: try (split; [discriminate|]; intros (_ & _ & [?|(_ & ? & _)] & _); done).
  all: destruct (Z.ltb_spec maxAccessPolicySize (ContentLength r)) as [Hlt|Hle].
  all: try (split; [discriminate|]; intros (_ & _ & [?|(_ & _ & ?)] & _); [done|lia]).
  all: rewrite Hbody; split; [intros H; repeat split; auto|by intros (_ & _ & _ & ?)].
Qed.

(** X17: the handler sees the body only through the limit reader: its
    answer is the one it gives to the request whose body ends, without a
    read error, after [maxAccessPolicySize] bytes.  Bytes beyond the limit
    and a read error beyond it have no effect, and a chunked body longer
    than the limit is not refused but cut. *)
Theorem PutBucketPolicyHandler_reads_to_limit (P : PolicyStore) (r : Request) :
  PutBucketPolicyHandler P r =
  PutBucketPolicyHandler P (withBody r (io_LimitReader (Body r) maxAccessPolicySize)).
Proof.
  unfold PutBucketPolicyHandler, contentLengthCheck, putBucketPolicyBody, withBody.
  cbn [requestAuthType reqAuthenticated TransferEncoding ContentLength Body bucketVar].
  rewrite io_LimitReader_idemp; [reflexivity|]. unfold maxAccessPolicySize. lia.
Qed.

(** ** The page [ListObjectParts] returns *)

Lemma byDirentName_total : Total byDirentName.
Proof. intros a b. apply String.leb_total. Qed.

Lemma filteredReaddir_sorted (dirname : string) (filter : DirEntry.t → bool)
    (followDirs : bool) (w w' : world) (entries : list DirEntry.t) :
  filteredReaddir dirname filter followDirs w = (Ok entries, w') →
  Sorted byDirentName entries.
Proof.
  unfold filteredReaddir. intros H. repeat case_match; simplify_eq.
  apply Sorted_merge_sort, byDirentName_total.
Qed.

(** X18: the parts [ListObjectParts] lists are the first [MaxParts] of the
    entries of the metadir that belong to the session and lie above the
    marker, taken in the byte-wise order of their file names (so part 10
    comes before part 2), each turned into a part by [partOf]; the result
    is truncated exactly when there are more such entries than
    [MaxParts]. *)
Theorem ListObjectParts_page (E : Env) (fs : Filesystem)
    (bucket object uploadID : string) (partNumberMarker maxParts : Z)
    (w w' : world) (info : ListPartsInfo.t) :
  ListObjectParts E fs bucket object uploadID partNumberMarker maxParts w = (Ok info, w') →
  ∃ entries,
    filteredReaddir
      (filepath_Join [path fs; configDir; ListPartsInfo.Bucket info; object])
      (partFilter uploadID partNumberMarker) false w = (Ok entries, w)
    ∧ Sorted (λ a b, String.leb (DirEntry.Name a) (DirEntry.Name b) = true) entries
    ∧ ListPartsInfo.Parts info =
        map partOf (take (Z.to_nat (ListPartsInfo.MaxParts info)) entries)
    ∧ (ListPartsInfo.IsTruncated info = true ↔
       ListPartsInfo.MaxParts info < Z.of_nat (length entries)).
Proof.
  intros H. unfold ListObjectParts in H.
  io_step H. io_step H. io_step H. io_step H.
  apply readonly_checkMultipartArgs in Hm as ->.
  apply readonly_isFileExist in Hm0 as ->.
  apply readonly_filteredReaddir in Hm1 as Hw. subst w2.
  apply filteredReaddir_sorted in Hm1 as Hsorted.
  set (limit := if (maxParts <=? 0) || (1000 <? maxParts) then 1000 else maxParts) in *.
  assert (Hlimit : 1 ≤ limit ≤ 1000).
  { unfold limit. destruct (Z.leb_spec maxParts 0), (Z.ltb_spec 1000 maxParts); cbn; lia. }
  rewrite partsLoop_run in H by lia. cbn [app] in H.
  injection H as <- <-. cbn. rewrite Z.sub_0_r.
  exists a1. split; [done|]. split; [done|]. split; [done|].
  apply bool_decide_eq_true.
Qed.

Lemma ListObjectParts_page_witness :
  ∃ info,
    ListObjectParts demoEnv demoFs "bkt" "big" "u1" 0 1 demoWorld = (Ok info, demoWorld)
    ∧ ListPartsInfo.IsTruncated info = true
    ∧ (partInfo.PartNumber <$> ListPartsInfo.Parts info) = [1].
Proof.
  destruct (ListObjectParts demoEnv demoFs "bkt" "big" "u1" 0 1 demoWorld)
    as [[info|e] w'] eqn:H; [|vm_compute in H; discriminate].
  destruct (ListObjectParts_page _ _ _ _ _ _ _ _ _ _ H)
    as (entries & Hrd & _ & Hparts & Htr).
  assert (w' = demoWorld) as -> by (vm_compute in H; by injection H as _ <-).
  exists info. split; [done|].
  vm_compute in H. injection H as <-. split; reflexivity.
Defined.

(** ** The server configuration *)

(** X19: [initConfig] tests the error of [getConfigFile], which is nil at
    that point, after its call of [os.Stat] on the configuration file, so
    the answer of [os.Stat] has no effect on what [initConfig] returns or
    leaves.  Whenever [initConfig] returns without an error, the global
    configuration is set and its version is [globalMinioConfigVersion],
    whatever version the file held; a configuration made anew has the
    region [us-east-1] and the generated credentials, a configuration read
    from the file keeps the file's region and credentials. *)
Theorem initConfig_version_and_stat {credential logger : Type}
    (C : ConfigEnv credential logger)
    (serverConfig : option (serverConfigV4.t credential logger)) :
  (∀ stat, initConfig (withConfigFileStat C stat) serverConfig = initConfig C serverConfig)
  ∧ match initConfig C serverConfig with
    | (Some _, _) => True
    | (None, None) => False
    | (None, Some cfg) =>
        serverConfigV4.Version cfg = globalMinioConfigVersion C
        ∧ if isConfigFileExists C
          then ∃ configFile loaded,
                 getConfigFile C = Ok configFile ∧
                 quick_Load C
                   {| serverConfigV4.Version := globalMinioConfigVersion C;
                      serverConfigV4.Credential := zeroCredential C;
                      serverConfigV4.Region := EmptyString;
                      serverConfigV4.Logger := zeroLogger C |} configFile = Ok loaded ∧
                 serverConfigV4.Region cfg = serverConfigV4.Region loaded ∧
                 serverConfigV4.Credential cfg = serverConfigV4.Credential loaded
          else serverConfigV4.Region cfg = "us-east-1" ∧
               serverConfigV4.Credential cfg = mustGenAccessKeys C ∧
               Save C cfg = None
    end.
Proof.
  split; [reflexivity|].
  unfold initConfig. destruct (isConfigFileExists C); cbn [negb].
  - destruct (getConfigFile C) as [configFile|err]; [|done]. cbn [isSome].
    destruct (quick_New C _) as [err|]; [done|].
    destruct (quick_Load C _ configFile) as [loaded|err] eqn:Hload; [|done].
    split; [done|]. by exists configFile, loaded.
  - destruct (createConfigPath C); [done|]. destruct (createCertsPath C); [done|].
    destruct (Save C _) eqn:Hsave; done.
Qed.

(** ** What a completion that succeeds has checked *)

Lemma collectMD5Sums_present (metaObjectDir uploadID : string)
    (parts : list completePart.t) (acc md5Sums : list string) (w w' : world) :
  collectMD5Sums metaObjectDir uploadID parts acc w = (Ok md5Sums, w') →
  Forall (λ part,
            isFileExist
              (filepath_Join
                 [metaObjectDir;
                  uploadID +:+ "." +:+ strconv_Itoa (completePart.PartNumber part) +:+ "." +:+
                  strings_Trim (completePart.ETag part) quoteString]) w = (Ok true, w))
    parts.
Proof.
  revert acc w'. induction parts as [|part rest IH]; intros acc w';
    cbn [collectMD5Sums]; [by constructor|].
  rewrite io_bind_run.
  destruct (isFileExist _ w) as [[status|e] w1] eqn:Hex; [|discriminate].
  apply readonly_isFileExist in Hex as Hw. subst w1.
  destruct status; cbn [negb]; [|discriminate].
  intros H. constructor; [exact Hex|]. by eapply IH.
Qed.


